(** * Calendar day layout (js/app.js): a shallow embedding and its properties

    The program lays out the events of one day: [layOutDay] clones the
    caller's events, sorts them, computes the collision lists, moves some
    events "under" earlier ones, and assigns [left]/[width] to all of them.

    Numbers are integers throughout (minutes and pixels), so JavaScript
    numbers are modelled by [Z]: on integers of magnitude up to 2^53 the
    arithmetic of the program is exact, and the statements about sums keep
    to that range.  Array indices are [nat]; arrays are lists read with
    [!!] and written with [<[_:=_]>].  The functions are given twice: on
    values, where an array is the list of its objects, and in [Mem] over a
    store of objects and arrays named by addresses; the second run is shown
    to return what the first returns. *)

From Stdlib Require Import ZArith Lia List Sorted Permutation.
From stdpp Require Import base option list sorting gmap strings pretty.

Local Open Scope Z_scope.

(** ** Data model *)

(** The program uses an id in three ways: it copies it, it uses it as a
    property key of the plain objects [eventIdxById] and [eventsGroups],
    and it compares two ids with [==].  An id is kept here as its property
    key, a string.  That is the id itself when the ids are strings; when
    they are numbers (other than [NaN]) it is their numeral, and two such
    ids are [==] exactly when their keys are equal.  Arrays that mix ids of
    both kinds are not covered. *)
Definition ident := string.

(** The ids [id: 1], [id: 2], ... of the examples: the key of a small
    natural number is its decimal numeral. *)
Definition id_of_number (n : nat) : ident := pretty n.
Coercion id_of_number : nat >-> ident.

(** The properties that every plain object inherits from
    [Object.prototype], as the language defines them.  A read [o[k]] of
    such a key on an object without an own property [k] gives the
    inherited function (for ["__proto__"], the prototype object), not
    [undefined]. *)
Definition Object_prototype : list ident :=
  ["constructor"; "hasOwnProperty"; "isPrototypeOf"; "propertyIsEnumerable";
   "toLocaleString"; "toString"; "valueOf"; "__proto__"; "__defineGetter__";
   "__defineSetter__"; "__lookupGetter__"; "__lookupSetter__"].

Definition inherited (k : ident) : bool := bool_decide (k ∈ Object_prototype).

(** An event as the caller supplies it: [{id, start, end}]. *)
Record InputEvent := mkInput {
  in_id    : ident;
  in_start : Z;
  in_end   : Z
}.

(** The object literal pushed by [cloneEvents]. *)
Record WorkingEvent := mkWorking {
  id            : ident;
  start         : Z;
  end_          : Z;
  collisions    : list nat;
  left          : Z;
  width         : Z;
  hasEventUnder : bool;
  topEventId    : option ident
}.

(** The object literal pushed by [normalizeEvents]. *)
Record OutputEvent := mkOutput {
  out_id    : ident;
  out_start : Z;
  out_end   : Z;
  out_left  : Z;
  out_width : Z;
  out_top   : Z
}.

(** The argument of [layOutDay]: either something that is not an array, or
    an array whose elements are event objects or falsy values ([null],
    [undefined], [0], ...), the latter written [None]. *)
Inductive JsValue :=
| JsNotArray
| JsArray (elems : list (option InputEvent)).

(** What a call can end in. [InvalidInput] is
    [new Error('Events must be an array')]; [TypeError] is what the engine
    raises on a property read of [undefined]. *)
Inductive error := InvalidInput | TypeError.

Inductive Result (A : Type) :=
| Ok (a : A)
| Throw (e : error).
Arguments Ok {A} a.
Arguments Throw {A} e.

#[global] Instance Result_ret : MRet Result := λ A a, Ok a.
#[global] Instance Result_bind : MBind Result := λ A B k r,
  match r with
  | Ok a => k a
  | Throw e => Throw e
  end.

(** A loop whose body may throw. *)
Fixpoint foldM {A S} (body : S → A → Result S) (xs : list A) (s : S) : Result S :=
  match xs with
  | [] => Ok s
  | x :: rest => s' ← body s x; foldM body rest s'
  end.

(** [o.f] where [o] may be [undefined]. *)
Definition deref {A} (o : option A) : Result A :=
  match o with
  | Some a => Ok a
  | None => Throw TypeError
  end.

(** Field assignments. *)
Definition set_collisions (cs : list nat) (e : WorkingEvent) : WorkingEvent :=
  mkWorking (id e) (start e) (end_ e) cs (left e) (width e)
            (hasEventUnder e) (topEventId e).
Definition set_left (l : Z) (e : WorkingEvent) : WorkingEvent :=
  mkWorking (id e) (start e) (end_ e) (collisions e) l (width e)
            (hasEventUnder e) (topEventId e).
Definition set_width (w : Z) (e : WorkingEvent) : WorkingEvent :=
  mkWorking (id e) (start e) (end_ e) (collisions e) (left e) w
            (hasEventUnder e) (topEventId e).
Definition set_hasEventUnder (b : bool) (e : WorkingEvent) : WorkingEvent :=
  mkWorking (id e) (start e) (end_ e) (collisions e) (left e) (width e)
            b (topEventId e).
Definition set_topEventId (t : option ident) (e : WorkingEvent) : WorkingEvent :=
  mkWorking (id e) (start e) (end_ e) (collisions e) (left e) (width e)
            (hasEventUnder e) t.

(** [_events[i].f = v]: the object at index [i] is changed in place.  It is
    used at the indices of elements only. *)
Definition update_at (i : nat) (f : WorkingEvent → WorkingEvent)
    (es : list WorkingEvent) : list WorkingEvent :=
  alter f i es.

(** ** cloneEvents, normalizeEvents *)

(** The object literal that [cloneEvents] pushes for [event]. *)
Definition clone_of (event : InputEvent) : WorkingEvent :=
  mkWorking (in_id event) (in_start event) (in_end event) [] 0 0 false None.

(** [for (; (event = _events[i]); ++i)]: the loop ends at the first falsy
    element, or past the end of the array. *)
Fixpoint cloneEvents (_events : list (option InputEvent)) : list WorkingEvent :=
  match _events with
  | Some event :: rest => clone_of event :: cloneEvents rest
  | _ => []
  end.

(** The elements here are the working objects, none of them falsy. *)
Definition normalizeEvents (_events : list WorkingEvent) : list OutputEvent :=
  map (fun event => mkOutput (id event) (start event) (end_ event)
                             (left event) (width event) (start event)) _events.

(** ** compareStartEndTime and the sort *)

Definition compareStartEndTime (a b : WorkingEvent) : Z :=
  if start a =? start b
  then (if end_ a >? end_ b then -1 else 1)
  else (if start a >? start b then 1 else -1).

(** [array.sort(comparefn)] as a straight insertion sort: each element is
    moved left past the elements [t] of the sorted prefix with
    [comparefn(t, element) > 0].  The prefix is kept reversed.  Where
    [comparefn] is a consistent order every sort gives this result; where
    it is not, as for two events with the same times here, the language
    leaves the order to the engine: [compareStartEndTime] answers 1 both
    ways for such a pair, this sort then puts the later one of the input
    first, and a merge sort that asks [comparefn(later, earlier)] keeps
    the order of the input. *)
Fixpoint insert_back {A} (cmp : A → A → Z) (element : A) (rprefix : list A)
    : list A :=
  match rprefix with
  | [] => [element]
  | t :: r => if cmp t element >? 0 then t :: insert_back cmp element r
              else element :: rprefix
  end.

Definition sort_events {A} (cmp : A → A → Z) (es : list A) : list A :=
  rev (fold_left (fun rprefix element => insert_back cmp element rprefix) es []).

(** ** isEventsCollides *)

Definition isEventsCollides (a b : WorkingEvent) : bool :=
  ((end_ a >? start b) && (end_ a <=? end_ b))
  || ((start a >=? start b) && (start a <? end_ b))
  || ((start a <? start b) && (end_ a >? end_ b)).

(** ** updateCollisions *)

(** [_events[i].collisions.push(j)] *)
Definition push_collision (i j : nat) (es : list WorkingEvent) : list WorkingEvent :=
  update_at i (fun e => set_collisions (collisions e ++ [j]) e) es.

(** The body of the inner loop, for the pair [(i, j)]. *)
Definition collide_step (es : list WorkingEvent) (p : nat * nat) : list WorkingEvent :=
  match es !! p.1, es !! p.2 with
  | Some a, Some b =>
      if isEventsCollides a b
      then push_collision p.2 p.1 (push_collision p.1 p.2 es)
      else es
  | _, _ => es
  end.

(** The pairs [(i, j)], [0 <= i < len - 1], [i < j < len], in loop order. *)
Definition index_pairs (len : nat) : list (nat * nat) :=
  flat_map (fun i => map (pair i) (seq (S i) (len - S i))) (seq 0 (len - 1)).

Definition updateCollisions (_events : list WorkingEvent) : list WorkingEvent :=
  let len := length _events in
  fold_left collide_step (index_pairs len) (map (set_collisions []) _events).

(** ** getLeftCollisionsCount *)

(** [while (_collisions[count] < _eventIdx) ++count]: the length of the
    longest prefix of indices below [_eventIdx]. *)
Fixpoint getLeftCollisionsCount (_collisions : list nat) (_eventIdx : nat) : nat :=
  match _collisions with
  | c :: rest => if (c <? _eventIdx)%nat
                 then S (getLeftCollisionsCount rest _eventIdx) else 0%nat
  | [] => 0%nat
  end.

(** ** setLayOutParams *)

(** [(maxWidth / n) << 0]: the quotient is truncated and taken as a signed
    32-bit integer. *)
Definition to_int32 (z : Z) : Z := (z + 2 ^ 31) mod 2 ^ 32 - 2 ^ 31.

Definition div_shl0 (a : Z) (n : nat) : Z := to_int32 (Z.quot a (Z.of_nat n)).

(** The body of [for (k = start; k < i; ++k)]; the state is the array and
    the local [left].  [_events[start]] and [_events[k]] are elements of the
    array, since [start <= k < i].  The sum [left += width] is the sum of
    the integers as long as it stays within [2^53] in magnitude, as it
    does in [layOutDay]; beyond, the program rounds. *)
Definition relayout_step (minLeft width : Z) (start : nat)
    (st : list WorkingEvent * Z) (k : nat) : list WorkingEvent * Z :=
  let '(es, left0) := st in
  let left1 :=
    match es !! start with
    | Some s => if (k =? start)%nat && (left0 >? left s) then left s else left0
    | None => left0
    end in
  let es' := update_at k (fun e => set_left (Z.max left1 minLeft) (set_width width e)) es in
  (es', left1 + width).

(** The body of the outer loop at index [i]; the state is the array and the
    local [start]. *)
Definition setLayOutParams_step (minLeft maxWidth : Z)
    (st : list WorkingEvent * nat) (i : nat) : Result (list WorkingEvent * nat) :=
  let '(es, start) := st in
  match es !! i with
  | None => Ok st
  | Some event =>
      let leftCollisionsCount := getLeftCollisionsCount (collisions event) i in
      if (leftCollisionsCount =? 0)%nat
      then Ok (update_at i (fun e => set_width maxWidth (set_left minLeft e)) es, i)
      else
        first ← deref (head (collisions event) ≫= (es !!.));
        let width := div_shl0 maxWidth (i - start + 1) in
        let '(es', left') :=
          fold_left (relayout_step minLeft width start)
                    (seq start (i - start)) (es, left first) in
        Ok (update_at i (fun e => set_width width (set_left left' e)) es', start)
  end.

Definition setLayOutParams (_events : list WorkingEvent) (minLeft maxWidth : Z)
    : Result (list WorkingEvent) :=
  st ← foldM (setLayOutParams_step minLeft maxWidth)
             (seq 0 (length _events)) (_events, 0%nat);
  Ok st.1.

(** ** getEventsUnder *)

(** [for (j = start; j < i; ++j)]: the first [j] whose event neither
    collides with [currentEvent] nor has an event under it. *)
Fixpoint find_leftEvent (es : list WorkingEvent) (currentEvent : WorkingEvent)
    (js : list nat) : option (nat * WorkingEvent) :=
  match js with
  | [] => None
  | j :: rest =>
      match es !! j with
      | Some leftEvent =>
          if negb (isEventsCollides leftEvent currentEvent)
             && negb (hasEventUnder leftEvent)
          then Some (j, leftEvent)
          else find_leftEvent es currentEvent rest
      | None => find_leftEvent es currentEvent rest
      end
  end.

(** The scan of [_events].  [n] is the number of elements from index [i]
    on: an iteration either moves on to [i + 1] or splices the element at
    [i] out and stays at [i] ([--i] followed by the loop's [++i]), so [n]
    goes down by one each time, and the loop ends with [n = 0], when
    [_events[i]] is [undefined]. *)
Fixpoint getEventsUnder_loop (n : nat) (es eventsUnder : list WorkingEvent)
    (start i : nat) : list WorkingEvent * list WorkingEvent :=
  match n with
  | O => (es, eventsUnder)
  | S n' =>
      match es !! i with
      | None => (es, eventsUnder)
      | Some currentEvent =>
          if (getLeftCollisionsCount (collisions currentEvent) i =? 0)%nat
          then getEventsUnder_loop n' es eventsUnder i (S i)
          else
            match find_leftEvent es currentEvent (seq start (i - start)) with
            | Some (j, leftEvent) =>
                let temp := set_topEventId (Some (id leftEvent)) currentEvent in
                let es1 := delete i es in
                let es2 := update_at j (set_hasEventUnder true) es1 in
                getEventsUnder_loop n' (updateCollisions es2)
                                    (eventsUnder ++ [temp]) start i
            | None => getEventsUnder_loop n' es eventsUnder start (S i)
            end
      end
  end.

(** Returns the changed [_events] together with [eventsUnder]. *)
Definition getEventsUnder (_events : list WorkingEvent)
    : list WorkingEvent * list WorkingEvent :=
  let '(es, eventsUnder) := getEventsUnder_loop (length _events) _events [] 0 0 in
  (es, if (length eventsUnder =? 0)%nat then eventsUnder
       else updateCollisions eventsUnder).

(** ** processEventsUnder *)

(** A value of [eventsGroups]. [items] holds references to elements of
    [_eventsUnder]; they are kept as the indices of those elements. *)
Record Group := mkGroup {
  items   : list nat;
  g_left  : Z;
  g_width : Z
}.

(** The number that a key is the numeral of, when the key is an array
    index: a numeral without leading zero, below 2^32 - 1. *)
Definition digit_of (c : Ascii.ascii) : option N :=
  let n := Ascii.N_of_ascii c in
  if (48 <=? n)%N && (n <=? 57)%N then Some (n - 48)%N else None.

Fixpoint digits_value (s : string) (acc : N) : option N :=
  match s with
  | String.EmptyString => Some acc
  | String.String c rest => d ← digit_of c; digits_value rest (10 * acc + d)%N
  end.

Definition array_index (k : ident) : option N :=
  match k with
  | String.EmptyString => None
  | String.String c rest =>
      if bool_decide (digit_of c = Some 0%N)
         && negb (bool_decide (rest = String.EmptyString))
      then None
      else v ← digits_value k 0; if (v <? 2 ^ 32 - 1)%N then Some v else None
  end.

(** The order in which [for (i in ...)] enumerates two own keys of which
    the second one was created first: array indices come in ascending
    order, before all other keys, and those stay in the order of their
    creation. *)
Definition key_before (k k' : ident) : bool :=
  match array_index k, array_index k' with
  | Some n, Some n' => (n <? n')%N
  | Some _, None => true
  | None, _ => false
  end.

(** [eventsGroups] is a plain object with the ids as keys.  Its own
    properties are kept in the order of [for (i in ...)]. *)
Fixpoint groups_get (k : ident) (gs : list (ident * Group)) : option Group :=
  match gs with
  | [] => None
  | (k', g) :: rest => if bool_decide (k = k') then Some g else groups_get k rest
  end.

Fixpoint groups_put (k : ident) (g : Group) (gs : list (ident * Group))
    : list (ident * Group) :=
  match gs with
  | [] => [(k, g)]
  | (k', g') :: rest =>
      if bool_decide (k = k') then (k, g) :: rest
      else if key_before k k' then (k, g) :: gs
      else (k', g') :: groups_put k g rest
  end.

(** The key that [topEventId] is used as: [null] gives the key ["null"]. *)
Definition top_key (t : option ident) : ident := default "null" t.

(** [for (; (event = _events[i]); ++i) eventIdxById[event.id] = i].
    [eventIdxById] is a plain object: the assignment to the key
    ["__proto__"] goes to the setter that [Object.prototype] has for it,
    which ignores a number, and makes no own property. *)
Definition fill_eventIdxById (_events : list WorkingEvent) : gmap ident nat :=
  fold_left (fun m ie => if bool_decide (id ie.2 = "__proto__") then m
                         else <[id ie.2 := ie.1]> m)
            (imap pair _events) ∅.

(** The first event of [_events], at the indices [js] in that order, that
    collides with [event]. *)
Fixpoint first_colliding (_events : list WorkingEvent) (event : WorkingEvent)
    (js : list nat) : option WorkingEvent :=
  match js with
  | [] => None
  | j :: rest =>
      match _events !! j with
      | Some e => if isEventsCollides e event then Some e
                  else first_colliding _events event rest
      | None => first_colliding _events event rest
      end
  end.

(** The body of [for (j = 0; j < i; ++j)], "try to fit between other events
    at the left"; the state is the pair of the locals [left] and [width]. *)
Definition fit_between_step (_eventsUnder : list WorkingEvent)
    (eventsGroups : list (ident * Group)) (event eventAtTop : WorkingEvent)
    (eventGroup : Group) (lw : Z * Z) (j : nat) : Result (Z * Z) :=
  match _eventsUnder !! j with
  | None => Ok lw
  | Some other =>
      if isEventsCollides other event
      then
        match groups_get (top_key (topEventId other)) eventsGroups with
        | Some otherEventGroup =>
            if g_left otherEventGroup <? g_left eventGroup
            then
              let left' := g_left otherEventGroup + g_width otherEventGroup in
              Ok (left', lw.2 + (left eventAtTop - left'))
            else Ok lw
        | None =>
            (* an inherited function has no [left]: the comparison with
               [undefined] is false; [undefined.left] throws *)
            if inherited (top_key (topEventId other)) then Ok lw
            else Throw TypeError
        end
      else Ok lw
  end.

(** The body of the grouping loop at index [i]. An event whose "top" event
    is not found ([eventAtTop] is [undefined]) makes the read of
    [eventAtTop.left] or of [eventAtTop.collisions] throw, unless
    [eventGroup.items.push] has thrown before.  When the key is one that
    [eventsGroups] inherits and does not own, [eventsGroups[eventAtTopId]]
    is the inherited function: no group is made, [eventGroup.items] is
    [undefined] and the call of [push] throws. *)
Definition processEventsUnder_step (_eventsUnder _events : list WorkingEvent)
    (eventIdxById : gmap ident nat) (eventsGroups : list (ident * Group))
    (i : nat) : Result (list (ident * Group)) :=
  match _eventsUnder !! i with
  | None => Ok eventsGroups
  | Some event =>
      let eventAtTopId := top_key (topEventId event) in
      eventAtTopIdx ← deref (eventIdxById !! eventAtTopId);
      eventAtTop ← deref (_events !! eventAtTopIdx);
      group0 ← match groups_get eventAtTopId eventsGroups with
               | Some g => Ok g
               | None => if inherited eventAtTopId then Throw TypeError
                         else Ok (mkGroup [] (left eventAtTop) (width eventAtTop))
               end;
      let eventGroup := mkGroup (items group0 ++ [i]) (g_left group0) (g_width group0) in
      let eventsGroups1 := groups_put eventAtTopId eventGroup eventsGroups in
      let hasTopCollisionAtRight :=
        match _events !! S eventAtTopIdx, _eventsUnder !! S i with
        | Some rightEvent, Some nextEvent =>
            bool_decide (Some (id rightEvent) = topEventId nextEvent)
            && isEventsCollides nextEvent event
        | _, _ => false
        end in
      if negb (length (collisions eventAtTop) =? 0)%nat && negb hasTopCollisionAtRight
      then
        let leftCollisionsCount := getLeftCollisionsCount (collisions event) i in
        lw ← (if negb (leftCollisionsCount =? 0)%nat
              then foldM (fit_between_step _eventsUnder eventsGroups1 event
                                           eventAtTop eventGroup)
                         (seq 0 i) (left eventAtTop, width eventAtTop)
              else
                match first_colliding _events event (rev (seq 0 eventAtTopIdx)) with
                | Some e =>
                    let left' := left e + width e in
                    Ok (left', width eventAtTop + (left eventAtTop - left'))
                | None => Ok (left eventAtTop, width eventAtTop)
                end);
        let width' :=
          match first_colliding _events event
                  (seq (S eventAtTopIdx) (length _events - S eventAtTopIdx)) with
          | Some e => left e - lw.1
          | None => lw.2
          end in
        Ok (groups_put eventAtTopId (mkGroup (items eventGroup) lw.1 width') eventsGroups1)
      else Ok eventsGroups1
  end.

(** [setLayOutParams(eventsGroups[i].items, ...)]: the items are the
    objects of [_eventsUnder] at the group's indices, changed in place. *)
Definition layout_group (_eventsUnder : list WorkingEvent) (kg : ident * Group)
    : Result (list WorkingEvent) :=
  let g := kg.2 in
  let refs := omap (λ k, pair k <$> _eventsUnder !! k) (items g) in
  objs ← setLayOutParams refs.*2 (g_left g) (g_width g);
  Ok (fold_left (λ es ko, <[ko.1 := ko.2]> es) (zip refs.*1 objs) _eventsUnder).

(** The grouping loop. *)
Definition build_groups (_eventsUnder _events : list WorkingEvent)
    : Result (list (ident * Group)) :=
  foldM (processEventsUnder_step _eventsUnder _events (fill_eventIdxById _events))
        (seq 0 (length _eventsUnder)) [].

Definition processEventsUnder (_eventsUnder _events : list WorkingEvent)
    : Result (list WorkingEvent) :=
  eventsGroups ← build_groups _eventsUnder _events;
  foldM layout_group eventsGroups _eventsUnder.

(** ** layOutDay *)

Definition MAX_WIDTH : Z := 620.
Definition MIN_LEFT : Z := 10.

Definition layOutDay (_events : JsValue) : Result (list OutputEvent) :=
  match _events with
  | JsNotArray => Throw InvalidInput
  | JsArray elems =>
      let events0 := updateCollisions
                       (sort_events compareStartEndTime (cloneEvents elems)) in
      let '(events1, eventsUnder) := getEventsUnder events0 in
      events ← setLayOutParams events1 MIN_LEFT MAX_WIDTH;
      eventsUnder' ← processEventsUnder eventsUnder events;
      Ok (normalizeEvents (events ++ eventsUnder'))
  end.

(** * The same run over a store of objects and arrays

    The functions above take and return values.  Here the objects and the
    arrays live in a store and are named by their addresses, so that it can
    be said which of them a call writes to. *)

#[global] Instance WorkingEvent_inhabited : Inhabited WorkingEvent :=
  populate (mkWorking 0%nat 0 0 [] 0 0 false None).

Module Mem.

Definition loc := nat.

(** An element of an array is a reference to an object, or a falsy value
    ([None]).  An input object is stored with its [id], [start] and
    [end]; no other field of it is read. *)
Record heap := mkHeap {
  objects : list WorkingEvent;
  arrays  : list (list (option loc))
}.

(** The argument of [layOutDay]. *)
Inductive value :=
| NotArray
| ArrayRef (a : loc).

Definition obj (h : heap) (l : loc) : WorkingEvent := objects h !!! l.

Definition elements (h : heap) (a : loc) : list (option loc) :=
  default [] (arrays h !! a).

(** [array[0]], [array[1]], ... up to the first falsy element. *)
Fixpoint truthy (elems : list (option loc)) : list loc :=
  match elems with
  | Some l :: rest => l :: truthy rest
  | _ => []
  end.

Definition refs (h : heap) (a : loc) : list loc := truthy (elements h a).

Definition objs (h : heap) (a : loc) : list WorkingEvent := obj h <$> refs h a.

(** The object at [l] is changed in place. *)
Definition set_obj (l : loc) (e : WorkingEvent) (h : heap) : heap :=
  mkHeap (<[l := e]> (objects h)) (arrays h).

(** The objects at [locs] are changed in place into [es]. *)
Definition store (locs : list loc) (es : list WorkingEvent) (h : heap) : heap :=
  fold_left (λ h le, set_obj le.1 le.2 h) (zip locs es) h.

(** The array at [a] is changed in place. *)
Definition set_array (a : loc) (elems : list loc) (h : heap) : heap :=
  mkHeap (objects h) (<[a := Some <$> elems]> (arrays h)).

Definition new_array (elems : list loc) (h : heap) : heap * loc :=
  (mkHeap (objects h) (arrays h ++ [Some <$> elems]), length (arrays h)).

Definition new_objects (es : list WorkingEvent) (h : heap) : heap * list loc :=
  (mkHeap (objects h ++ es) (arrays h), seq (length (objects h)) (length es)).

(** The caller's array as [cloneEvents] reads it. *)
Definition input_of (h : heap) (a : loc) : list (option InputEvent) :=
  map (option_map (λ l, mkInput (id (obj h l)) (start (obj h l)) (end_ (obj h l))))
      (elements h a).

(** A new array of new objects. *)
Definition cloneEvents (h : heap) (_events : loc) : heap * loc :=
  let '(h1, locs) := new_objects (cloneEvents (input_of h _events)) h in
  new_array locs h1.

(** [events.sort(compareStartEndTime)], in place. *)
Definition sort (h : heap) (events : loc) : heap :=
  set_array events
    (sort_events (λ l1 l2, compareStartEndTime (obj h l1) (obj h l2))
                 (refs h events)) h.

(** The objects of the array get their new [collisions]. *)
Definition updateCollisions (h : heap) (_events : loc) : heap :=
  store (refs h _events) (updateCollisions (objs h _events)) h.

Fixpoint getEventsUnder_loop (n : nat) (h : heap) (_events eventsUnder : loc)
    (start i : nat) : heap :=
  match n with
  | O => h
  | S n' =>
      match refs h _events !! i with
      | None => h
      | Some cur =>
          let currentEvent := obj h cur in
          if (getLeftCollisionsCount (collisions currentEvent) i =? 0)%nat
          then getEventsUnder_loop n' h _events eventsUnder i (S i)
          else
            match find_leftEvent (objs h _events) currentEvent
                    (seq start (i - start)) with
            | Some (j, leftEvent) =>
                let lft := default cur (refs h _events !! j) in
                let h1 := set_array _events (delete i (refs h _events)) h in
                let h2 := set_obj cur (set_topEventId (Some (id leftEvent))
                                                      (obj h1 cur)) h1 in
                let h3 := set_array eventsUnder (refs h2 eventsUnder ++ [cur]) h2 in
                let h4 := set_obj lft (set_hasEventUnder true (obj h3 lft)) h3 in
                getEventsUnder_loop n' (updateCollisions h4 _events)
                                    _events eventsUnder start i
            | None => getEventsUnder_loop n' h _events eventsUnder start (S i)
            end
      end
  end.

Definition getEventsUnder (h : heap) (_events : loc) : heap * loc :=
  let '(h1, eventsUnder) := new_array [] h in
  let h2 := getEventsUnder_loop (length (refs h1 _events)) h1 _events
                                eventsUnder 0 0 in
  (if (length (refs h2 eventsUnder) =? 0)%nat then h2
   else updateCollisions h2 eventsUnder, eventsUnder).

(** [setLayOutParams] on the array whose elements are [locs]. *)
Definition setLayOutParams (h : heap) (locs : list loc) (minLeft maxWidth : Z)
    : Result heap :=
  es ← setLayOutParams (obj h <$> locs) minLeft maxWidth;
  Ok (store locs es h).

(** The grouping loop only reads; the items of a group are the objects of
    [_eventsUnder] at the group's indices. *)
Definition processEventsUnder (h : heap) (_eventsUnder _events : loc)
    : Result heap :=
  let under := refs h _eventsUnder in
  eventsGroups ← build_groups (objs h _eventsUnder) (objs h _events);
  foldM (λ h kg, setLayOutParams h (omap (under !!.) (items kg.2))
                                 (g_left kg.2) (g_width kg.2))
        eventsGroups h.

(** The records of the output are new objects in a new array; they are
    returned as values. *)
Definition layOutDay (h : heap) (_events : value)
    : heap * Result (list OutputEvent) :=
  match _events with
  | NotArray => (h, Throw InvalidInput)
  | ArrayRef a =>
      let '(h1, events) := cloneEvents h a in
      let h2 := updateCollisions (sort h1 events) events in
      let '(h3, eventsUnder) := getEventsUnder h2 events in
      match setLayOutParams h3 (refs h3 events) MIN_LEFT MAX_WIDTH with
      | Throw e => (h3, Throw e)
      | Ok h4 =>
          match processEventsUnder h4 eventsUnder events with
          | Throw e => (h4, Throw e)
          | Ok h5 =>
              (h5, Ok (normalizeEvents (objs h5 events ++ objs h5 eventsUnder)))
          end
      end
  end.

End Mem.

(** * Definitions used in the statements *)

(** The well-formed events of the documentation: minutes in [0, 720], the
    start before the end. *)
Definition well_formed (e : InputEvent) : Prop :=
  0 <= in_start e ∧ in_start e < in_end e ∧ in_end e <= 720.

(** Two half-open intervals intersect when some minute lies in both. *)
Definition intervals_intersect (a b : WorkingEvent) : Prop :=
  ∃ t, (start a <= t < end_ a) ∧ (start b <= t < end_ b).

(** What the pair [p] of indices adds to the collisions of the event at
    index [k]. *)
Definition contrib (es : list WorkingEvent) (k : nat) (p : nat * nat) : list nat :=
  match es !! p.1, es !! p.2 with
  | Some a, Some b =>
      if isEventsCollides a b
      then (if decide (p.1 = k) then [p.2] else [])
           ++ (if decide (p.2 = k) then [p.1] else [])
      else []
  | _, _ => []
  end.

(** The loop order on pairs of indices. *)
Definition pair_before (p q : nat * nat) : Prop :=
  (p.1 < p.2 ∧ q.1 < q.2 ∧ (p.1 < q.1 ∨ (p.1 = q.1 ∧ p.2 < q.2)))%nat.

(** The array after an event at [i] was moved under the event at [j]. *)
Definition after_extract (es : list WorkingEvent) (i j : nat) : list WorkingEvent :=
  updateCollisions (update_at j (set_hasEventUnder true) (delete i es)).

(** Every event of [under] names as its top an event of [es] below index
    [i] that is marked as having an event under it. *)
Definition anchored (es : list WorkingEvent) (i : nat) (under : list WorkingEvent)
    : Prop :=
  ∀ u, u ∈ under →
    ∃ m e, (m < i)%nat ∧ es !! m = Some e
           ∧ topEventId u = Some (id e) ∧ hasEventUnder e = true.

(** With distinct ids, no two events of [under] name the same top. *)
Definition distinct_tops (es : list WorkingEvent) (i : nat)
    (under : list WorkingEvent) : Prop :=
  NoDup (id <$> es) ∧ anchored es i under ∧ NoDup (topEventId <$> under).

(** [tops] gives, for each event of [under] in turn, the index below [i] of
    a different event of [es]: the one it is under, marked as such. *)
Definition anchors (es : list WorkingEvent) (i : nat) (under : list WorkingEvent)
    (tops : list nat) : Prop :=
  NoDup tops ∧ length tops = length under
  ∧ ∀ k u m, under !! k = Some u → tops !! k = Some m →
      (m < i)%nat
      ∧ ∃ e, es !! m = Some e ∧ topEventId u = Some (id e)
             ∧ hasEventUnder e = true.

(** The groups of the tops of the first [i] events of [under] exist. *)
Definition groups_cover (under : list WorkingEvent) (i : nat)
    (gs : list (ident * Group)) : Prop :=
  ∀ j u, (j < i)%nat → under !! j = Some u →
    is_Some (groups_get (top_key (topEventId u)) gs).

(** Every event of [under] names as its top an event of [events] whose id
    is not a key that plain objects inherit. *)
Definition tops_named (under events : list WorkingEvent) : Prop :=
  ∀ u, u ∈ under →
    ∃ e, e ∈ events ∧ topEventId u = Some (id e) ∧ inherited (id e) = false.

(** No id is a key that plain objects inherit: in an array of events, and
    in an argument of [layOutDay]. *)
Definition plain_ids (es : list WorkingEvent) : Prop :=
  Forall (λ e, inherited (id e) = false) es.

Definition all_plain (elems : list (option InputEvent)) : Prop :=
  ∀ e, Some e ∈ elems → inherited (in_id e) = false.

(** An event without its [left] and [width]. *)
Definition no_geometry (e : WorkingEvent) : WorkingEvent :=
  set_left 0 (set_width 0 e).

(** Every group so far has one item and belongs to the top of one of the
    first [i] events of [under]. *)
Definition groups_single (under : list WorkingEvent) (i : nat)
    (gs : list (ident * Group)) : Prop :=
  ∀ k g, (k, g) ∈ gs →
    length (items g) = 1%nat
    ∧ ∃ j u, (j < i)%nat ∧ under !! j = Some u ∧ top_key (topEventId u) = k.

(** An event lies between [minLeft] and [minLeft + maxWidth]. *)
Definition within (minLeft maxWidth : Z) (e : WorkingEvent) : Prop :=
  minLeft <= left e ∧ 0 <= width e ∧ left e + width e <= minLeft + maxWidth.

(** The events before index [i] lie within the bounds, and the event at
    [start] sits at [minLeft]. *)
Definition placed (minLeft maxWidth : Z) (i : nat)
    (st : list WorkingEvent * nat) : Prop :=
  (∀ k e, (k < i)%nat → st.1 !! k = Some e → within minLeft maxWidth e)
  ∧ ((0 < i)%nat → (st.2 < i)%nat
                   ∧ ∃ s, st.1 !! st.2 = Some s ∧ left s = minLeft).

(** The state of the inner loop before index [m]. *)
Definition replaced (minLeft maxWidth w : Z) (i st0 m : nat)
    (st : list WorkingEvent * Z) : Prop :=
  (∀ k e, (k < i)%nat → st.1 !! k = Some e → within minLeft maxWidth e)
  ∧ (∃ s, st.1 !! st0 = Some s ∧ left s = minLeft)
  ∧ minLeft <= st.2
  ∧ ((st0 < m)%nat → st.2 <= minLeft + Z.of_nat (m - st0) * w).

(** An output record read as an event, for [isEventsCollides]. *)
Definition as_event (o : OutputEvent) : WorkingEvent :=
  mkWorking (out_id o) (out_start o) (out_end o) [] (out_left o) (out_width o)
            false None.

(** The horizontal spans [left, left + width) of two records share a pixel. *)
Definition spans_overlap (a b : OutputEvent) : Prop :=
  ∃ x, (out_left a <= x < out_left a + out_width a)
       ∧ (out_left b <= x < out_left b + out_width b).

(** No two records whose times collide overlap horizontally. *)
Definition no_overlap (out : list OutputEvent) : Prop :=
  ∀ i j a b, i ≠ j → out !! i = Some a → out !! j = Some b →
    isEventsCollides (as_event a) (as_event b) = true → ¬ spans_overlap a b.

(** A record lies between [MIN_LEFT] and [right]. *)
Definition in_bounds (right : Z) (o : OutputEvent) : Prop :=
  MIN_LEFT <= out_left o ∧ out_left o + out_width o <= right.

(** The times of an event. *)
Definition times (e : WorkingEvent) : Z * Z := (start e, end_ e).

(** [a] sorts before [b]: earlier start, or same start and later end. *)
Definition before (a b : WorkingEvent) : Prop :=
  start a < start b ∨ (start a = start b ∧ end_ b < end_ a).

(** The association of an id with its geometry in an output record. *)
Definition geometry (o : OutputEvent) : ident * (Z * Z * Z) :=
  (out_id o, (out_left o, out_width o, out_top o)).

(** Every object and every array of [h0] is the same in [h]. *)
Definition unchanged (h0 h : Mem.heap) : Prop :=
  (∀ l e, Mem.objects h0 !! l = Some e → Mem.objects h !! l = Some e)
  ∧ (∀ a elems, Mem.arrays h0 !! a = Some elems → Mem.arrays h !! a = Some elems).

(** The object at [l] does not exist in [h0]. *)
Definition fresh (h0 : Mem.heap) (l : Mem.loc) : Prop :=
  (length (Mem.objects h0) ≤ l)%nat.

(** The array at [a] and the objects it refers to do not exist in [h0]. *)
Definition owned (h0 h : Mem.heap) (a : Mem.loc) : Prop :=
  (length (Mem.arrays h0) ≤ a)%nat ∧ Forall (fresh h0) (Mem.refs h a).

(** [h] has left [h0] as it was, and the arrays [arrs] are the call's own. *)
Definition private (h0 : Mem.heap) (arrs : list Mem.loc) (h : Mem.heap) : Prop :=
  unchanged h0 h ∧ Forall (owned h0 h) arrs.

(** The array at [a] exists, and its elements are distinct objects that
    exist. *)
Definition good (h : Mem.heap) (a : Mem.loc) : Prop :=
  (a < length (Mem.arrays h))%nat
  ∧ NoDup (Mem.refs h a)
  ∧ Forall (λ l, (l < length (Mem.objects h))%nat) (Mem.refs h a).

(** The arrays [a] and [u] of the store hold the values [es] and [uv], and
    share no object. *)
Definition sim (h : Mem.heap) (a u : Mem.loc) (es uv : list WorkingEvent) : Prop :=
  good h a ∧ good h u ∧ a ≠ u
  ∧ (∀ l, l ∈ Mem.refs h a → l ∉ Mem.refs h u)
  ∧ Mem.objs h a = es ∧ Mem.objs h u = uv.

(** [layOutDay] reads its argument from the store. *)
Definition value_of (h : Mem.heap) (v : Mem.value) : JsValue :=
  match v with
  | Mem.NotArray => JsNotArray
  | Mem.ArrayRef a => JsArray (Mem.input_of h a)
  end.

(** [a] may come before [b] in the sorted array: [b] does not sort before
    [a]. *)
Definition in_order (a b : WorkingEvent) : Prop := ¬ before b a.

(** An event that opens a column group (its count of left collisions is
    zero) separates the events before it from the events from it on: no
    event before it collides with one of those. *)
Definition separated (es : list WorkingEvent) : Prop :=
  ∀ k s k' a c b, (k < s ≤ k')%nat →
    es !! k = Some a → es !! s = Some c → es !! k' = Some b →
    getLeftCollisionsCount (collisions c) s = 0%nat →
    isEventsCollides a b = false.

(** An index below [i] in the collisions of the event at [i] is the index
    of an event that collides with it. *)
Definition left_consistent (es : list WorkingEvent) : Prop :=
  ∀ i e c, es !! i = Some e → c ∈ collisions e → (c < i)%nat →
    ∃ a, es !! c = Some a ∧ isEventsCollides a e = true.

(** The first index in the collisions of an event lies in the event's
    column group: not before the event that opens the group. *)
Definition heads_in_group (es : list WorkingEvent) : Prop :=
  ∀ s i o e c rest, (s ≤ i)%nat →
    es !! s = Some o → getLeftCollisionsCount (collisions o) s = 0%nat →
    es !! i = Some e → collisions e = c :: rest → (c < i)%nat → (s ≤ c)%nat.

(** The state of [setLayOutParams] before index [i]: the open group, from
    [start] on, stands in equal columns, and of two colliding events before
    [i] the first one ends where the second one begins, or before. *)
Definition columns (minLeft maxWidth : Z) (es0 : list WorkingEvent) (i : nat)
    (st : list WorkingEvent * nat) : Prop :=
  no_geometry <$> st.1 = no_geometry <$> es0
  ∧ ((0 < i)%nat → (st.2 < i)%nat)
  ∧ (∀ c, es0 !! st.2 = Some c →
       getLeftCollisionsCount (collisions c) st.2 = 0%nat)
  ∧ (∀ k e, (st.2 ≤ k < i)%nat → st.1 !! k = Some e →
       left e = minLeft + Z.of_nat (k - st.2) * div_shl0 maxWidth (i - st.2)
       ∧ width e = div_shl0 maxWidth (i - st.2))
  ∧ (∀ k k' a b, (k < k' < i)%nat → st.1 !! k = Some a → st.1 !! k' = Some b →
       isEventsCollides a b = true → left a + width a <= left b).

(** The state of the inner loop of [setLayOutParams] before index [m]. *)
Definition recolumned (minLeft w : Z) (cur : list WorkingEvent) (st0 m : nat)
    (st : list WorkingEvent * Z) : Prop :=
  no_geometry <$> st.1 = no_geometry <$> cur
  ∧ (∀ k e, (st0 ≤ k < m)%nat → st.1 !! k = Some e →
       left e = minLeft + Z.of_nat (k - st0) * w ∧ width e = w)
  ∧ (∀ k, ¬ (st0 ≤ k < m)%nat → st.1 !! k = cur !! k)
  ∧ minLeft <= st.2
  ∧ ((st0 < m)%nat → st.2 = minLeft + Z.of_nat (m - st0) * w).

(** What identifies an event of the input: its id and its times. *)
Definition event_key (e : WorkingEvent) : ident * Z * Z := (id e, start e, end_ e).

(** The array and the events put under, followed by the part of the array
    still to scan, are in the order of [keys0]. *)
Definition scan_order (keys0 : list (ident * Z * Z)) (es : list WorkingEvent)
    (i : nat) (under : list WorkingEvent) : Prop :=
  event_key <$> es `sublist_of` keys0
  ∧ (event_key <$> under) ++ (event_key <$> drop i es) `sublist_of` keys0.

(** Every event of [under] names as its top a marked event of [es] below
    index [i] that stands in the relation [R] to it. *)
Definition anchored_with (R : WorkingEvent → WorkingEvent → Prop)
    (es : list WorkingEvent) (i : nat) (under : list WorkingEvent) : Prop :=
  ∀ u, u ∈ under →
    ∃ m e, (m < i)%nat ∧ es !! m = Some e
           ∧ topEventId u = Some (id e) ∧ hasEventUnder e = true ∧ R e u.

(** A relation between two events that looks at their times only. *)
Definition on_times (R : WorkingEvent → WorkingEvent → Prop) : Prop :=
  ∀ e e' u u', times e = times e' → times u = times u' → R e u → R e' u'.

(** A result that is a value, or the error [err] and no other. *)
Definition only_throws {A} (err : error) (r : Result A) : Prop :=
  match r with
  | Ok _ => True
  | Throw e => e = err
  end.

(** The same of an event as the caller supplies it. *)
Definition in_key (e : InputEvent) : ident * Z * Z :=
  (in_id e, in_start e, in_end e).

(** What identifies an event in the output. *)
Definition out_key (o : OutputEvent) : ident * Z * Z :=
  (out_id o, out_start o, out_end o).

(** No two events of the input share a minute. *)
Definition disjoint_times (ins : list InputEvent) : Prop :=
  ∀ i j a b, i ≠ j → ins !! i = Some a → ins !! j = Some b →
    in_end a <= in_start b ∨ in_end b <= in_start a.

(** The order of the sort on ids with times. *)
Definition key_order (s t : ident * Z * Z) : Prop :=
  s.1.2 < t.1.2 ∨ (s.1.2 = t.1.2 ∧ t.2 <= s.2).

(** The order of the sort on the records of the output. *)
Definition out_order (a b : OutputEvent) : Prop :=
  out_start a < out_start b ∨ (out_start a = out_start b ∧ out_end b <= out_end a).

(** The state of [setLayOutParams] before index [i]: every event before
    [i] without a collision to its left stands at [minLeft]; the event at
    [start] is one of them, and the events after it are not. *)
Definition openers_left (minLeft : Z) (i : nat)
    (st : list WorkingEvent * nat) : Prop :=
  (st.2 ≤ i)%nat ∧ ((0 < i)%nat → (st.2 < i)%nat)
  ∧ (∀ s, st.1 !! st.2 = Some s →
       getLeftCollisionsCount (collisions s) st.2 = 0%nat)
  ∧ (∀ k e, (st.2 < k < i)%nat → st.1 !! k = Some e →
       getLeftCollisionsCount (collisions e) k ≠ 0%nat)
  ∧ (∀ k e, (k < i)%nat → st.1 !! k = Some e →
       getLeftCollisionsCount (collisions e) k = 0%nat → left e = minLeft).

(** The state of the inner loop before index [m]: the event at [start]
    stands at [minLeft], and only [left] and [width] of the events from
    [start] to [m] have changed. *)
Definition opener_kept (minLeft : Z) (cur : list WorkingEvent) (st0 m : nat)
    (st : list WorkingEvent * Z) : Prop :=
  no_geometry <$> st.1 = no_geometry <$> cur
  ∧ (∀ k, ¬ (st0 ≤ k < m)%nat → st.1 !! k = cur !! k)
  ∧ (∀ s, st.1 !! st0 = Some s → left s = minLeft).

(** * Properties *)

(** ** The overlap predicate *)

Ltac z_bool :=
  rewrite ?Z.gtb_ltb, ?Z.geb_leb in *;
  repeat match goal with
         | |- context [(?x <? ?y)] => destruct (Z.ltb_spec x y)
         | |- context [(?x <=? ?y)] => destruct (Z.leb_spec x y)
         | |- context [(?x =? ?y)] => destruct (Z.eqb_spec x y)
         end; simpl in *.

Lemma isEventsCollides_true a b :
  start a < end_ a → start b < end_ b →
  isEventsCollides a b = true ↔ start a < end_ b ∧ start b < end_ a.
Proof.
  intros Ha Hb. unfold isEventsCollides. z_bool; split; intros; try lia; try done.
Qed.

Lemma isEventsCollides_sym a b :
  start a < end_ a → start b < end_ b →
  isEventsCollides a b = isEventsCollides b a.
Proof.
  intros Ha Hb. apply eq_true_iff_eq.
  rewrite !isEventsCollides_true by done. lia.
Qed.

(** C5: on events with [start < end], [isEventsCollides a b] holds exactly
    when the half-open intervals [start a, end a) and [start b, end b)
    intersect, and the predicate is symmetric. *)
Theorem isEventsCollides_spec a b :
  start a < end_ a → start b < end_ b →
  (isEventsCollides a b = true ↔ intervals_intersect a b)
  ∧ isEventsCollides a b = isEventsCollides b a.
Proof.
  intros Ha Hb. split; [|by apply isEventsCollides_sym].
  rewrite isEventsCollides_true by done. unfold intervals_intersect. split.
  - intros [H1 H2]. exists (Z.max (start a) (start b)). lia.
  - intros (t & H1 & H2). lia.
Qed.

Lemma isEventsCollides_spec_witness :
  let a := mkWorking 1%nat 0 60 [] 0 0 false None in
  let b := mkWorking 2%nat 30 90 [] 0 0 false None in
  (isEventsCollides a b = true ↔ intervals_intersect a b)
  ∧ isEventsCollides a b = isEventsCollides b a.
Proof. intros a b. apply (isEventsCollides_spec a b); simpl; lia. Defined.

(** ** The collision lists *)

Lemma update_at_lookup i f es k :
  update_at i f es !! k = if decide (i = k) then f <$> es !! k else es !! k.
Proof.
  unfold update_at. rewrite list_lookup_alter. by case_decide; subst.
Qed.

Lemma update_at_length i f es : length (update_at i f es) = length es.
Proof. apply length_alter. Qed.

Lemma set_collisions_id e : set_collisions (collisions e) e = e.
Proof. by destruct e. Qed.

Lemma collide_step_lookup es p k :
  p.1 ≠ p.2 →
  collide_step es p !! k
  = (λ e, set_collisions (collisions e ++ contrib es k p) e) <$> es !! k.
Proof.
  intros Hp. unfold collide_step, contrib.
  destruct (es !! p.1) as [a|] eqn:Ha, (es !! p.2) as [b|] eqn:Hb;
    try (destruct (es !! k) as [e|]; simpl; [|done];
         by rewrite app_nil_r, set_collisions_id).
  destruct (isEventsCollides a b).
  - unfold push_collision. rewrite !update_at_lookup.
    repeat case_decide; subst; try done;
      destruct (es !! k) as [e|]; simpl; try done;
      by rewrite ?app_nil_r, ?set_collisions_id.
  - destruct (es !! k) as [e|]; simpl; [|done].
    by rewrite app_nil_r, set_collisions_id.
Qed.

Lemma contrib_ext es1 es2 k p :
  (∀ m, set_collisions [] <$> es1 !! m = set_collisions [] <$> es2 !! m) →
  contrib es1 k p = contrib es2 k p.
Proof.
  intros H. unfold contrib.
  pose proof (H p.1) as H1. pose proof (H p.2) as H2.
  destruct (es1 !! p.1) as [a1|], (es2 !! p.1) as [a2|]; try done;
    destruct (es1 !! p.2) as [b1|], (es2 !! p.2) as [b2|]; try done.
  simpl in *. injection H1 as ? ? ? ? ? ? ?. injection H2 as ? ? ? ? ? ? ?.
  unfold isEventsCollides. by repeat match goal with H : _ = _ |- _ => rewrite H end.
Qed.

Lemma fold_collide_lookup ps es k :
  Forall (λ p, p.1 ≠ p.2) ps →
  fold_left collide_step ps es !! k
  = (λ e, set_collisions (collisions e ++ flat_map (contrib es k) ps) e) <$> es !! k.
Proof.
  intros Hps. revert es. induction Hps as [|p ps Hp _ IH]; intros es; simpl.
  - destruct (es !! k) as [e|]; simpl; [|done].
    by rewrite app_nil_r, set_collisions_id.
  - rewrite IH, collide_step_lookup by done.
    assert (∀ q, contrib (collide_step es p) k q = contrib es k q) as Hc.
    { intros q. apply contrib_ext. intros m.
      rewrite collide_step_lookup by done. by destruct (es !! m). }
    rewrite (flat_map_ext _ _ Hc).
    destruct (es !! k) as [e|]; simpl; [|done].
    f_equal. unfold set_collisions. simpl. by rewrite app_assoc.
Qed.

Lemma elem_of_index_pairs len i j :
  (i, j) ∈ index_pairs len ↔ (i < j < len)%nat.
Proof.
  unfold index_pairs. rewrite list_elem_of_In, in_flat_map. split.
  - intros (i' & Hi & Hj). apply in_map_iff in Hj as (j' & ? & Hj).
    apply in_seq in Hi, Hj. simplify_eq. lia.
  - intros H. exists i. split; [apply in_seq; lia|].
    apply in_map_iff. exists j. split; [done|]. apply in_seq. lia.
Qed.

Lemma index_pairs_distinct len : Forall (λ p, p.1 ≠ p.2) (index_pairs len).
Proof.
  apply Forall_forall. intros [i j] H%elem_of_index_pairs. simpl. lia.
Qed.

Lemma updateCollisions_lookup es k :
  updateCollisions es !! k
  = set_collisions (flat_map (contrib es k) (index_pairs (length es))) <$> es !! k.
Proof.
  unfold updateCollisions.
  rewrite fold_collide_lookup by apply index_pairs_distinct.
  rewrite list_lookup_fmap.
  assert (∀ q, contrib (map (set_collisions []) es) k q = contrib es k q) as Hc.
  { intros q. apply contrib_ext. intros m.
    rewrite list_lookup_fmap. by destruct (es !! m). }
  rewrite (flat_map_ext _ _ Hc). by destruct (es !! k).
Qed.

Lemma updateCollisions_length es : length (updateCollisions es) = length es.
Proof.
  unfold updateCollisions. generalize (index_pairs (length es)).
  intros ps. rewrite <-(length_map (set_collisions []) es).
  generalize (map (set_collisions []) es). clear es.
  induction ps as [|p ps IH]; intros es; simpl; [done|].
  rewrite IH. unfold collide_step.
  destruct (es !! p.1), (es !! p.2); try done.
  destruct (isEventsCollides _ _); [|done].
  unfold push_collision. by rewrite !update_at_length.
Qed.

Lemma elem_of_flat_map {A B} (f : A → list B) (l : list A) (x : B) :
  x ∈ flat_map f l ↔ ∃ a, a ∈ l ∧ x ∈ f a.
Proof.
  rewrite list_elem_of_In, in_flat_map.
  split; intros (a & ? & ?); exists a; by rewrite ?list_elem_of_In in *.
Qed.

Lemma StronglySorted_weaken {A} (R R' : relation A) (l : list A) :
  (∀ x y, x ∈ l → y ∈ l → R x y → R' x y) →
  StronglySorted R l → StronglySorted R' l.
Proof.
  intros H HR. induction HR as [|a l HR IH Ha]; constructor.
  - apply IH. intros x y ? ?. apply H; by constructor.
  - rewrite Forall_forall in *. intros y Hy.
    apply H; [by constructor|by constructor|]. by apply Ha.
Qed.

Lemma seq_StronglySorted a m : StronglySorted lt (seq a m).
Proof.
  revert a. induction m as [|m IH]; intros a; simpl; constructor; [apply IH|].
  apply Forall_forall. intros y Hy%elem_of_seq. lia.
Qed.

Lemma flat_map_StronglySorted {A B} (Q : relation A) (R : relation B)
    (f : A → list B) (l : list A) :
  StronglySorted Q l →
  (∀ a, a ∈ l → StronglySorted R (f a)) →
  (∀ a b x y, Q a b → x ∈ f a → y ∈ f b → R x y) →
  StronglySorted R (flat_map f l).
Proof.
  intros HQ Hf HR. induction HQ as [|a l HQ IH Ha]; simpl; [constructor|].
  apply StronglySorted_app_2.
  - intros x y Hx (b & Hb & Hy)%elem_of_flat_map.
    rewrite Forall_forall in Ha. apply (HR a b); [|done..]. by apply Ha.
  - apply Hf. by constructor.
  - apply IH. intros b Hb. apply Hf. by constructor.
Qed.

Lemma index_pairs_sorted len : StronglySorted pair_before (index_pairs len).
Proof.
  unfold index_pairs. apply (flat_map_StronglySorted lt).
  - apply seq_StronglySorted.
  - intros i _. apply (StronglySorted_fmap _ (λ x y, i < x ∧ x < y)%nat).
    + intros x y ?. unfold pair_before. simpl. lia.
    + apply (StronglySorted_weaken lt); [|apply seq_StronglySorted].
      intros x y Hx%elem_of_seq _ ?. lia.
  - intros i i' p q Hlt Hp Hq.
    apply list_elem_of_fmap in Hp as (j & -> & Hj%elem_of_seq).
    apply list_elem_of_fmap in Hq as (j' & -> & Hj'%elem_of_seq).
    unfold pair_before. simpl. lia.
Qed.

Lemma elem_of_contrib es k p x :
  x ∈ contrib es k p ↔
  ∃ a b, es !! p.1 = Some a ∧ es !! p.2 = Some b ∧ isEventsCollides a b = true
         ∧ ((p.1 = k ∧ x = p.2) ∨ (p.2 = k ∧ x = p.1)).
Proof.
  unfold contrib.
  destruct (es !! p.1) as [a|], (es !! p.2) as [b|];
    rewrite ?elem_of_nil; try (split; [done|by intros (? & ? & ? & ? & ?)]).
  destruct (isEventsCollides a b) eqn:Hc;
    rewrite ?elem_of_nil; [|split; [done|intros (? & ? & ? & ? & ? & ?); congruence]].
  rewrite elem_of_app.
  destruct (decide (p.1 = k)), (decide (p.2 = k));
    rewrite ?list_elem_of_singleton, ?elem_of_nil; split.
  all: try (intros [?|?]; try done; exists a, b; split_and!; auto; fail).
  all: intros (? & ? & ? & ? & ? & [[? ?]|[? ?]]); auto; congruence.
Qed.

Lemma contrib_sorted es k len :
  StronglySorted lt (flat_map (contrib es k) (index_pairs len)).
Proof.
  apply (flat_map_StronglySorted pair_before); [apply index_pairs_sorted|..].
  - intros [i j] H%elem_of_index_pairs. unfold contrib. simpl.
    destruct (es !! i), (es !! j); try constructor.
    destruct (isEventsCollides _ _); [|constructor].
    repeat case_decide; simpl; repeat constructor. lia.
  - intros p q x y Hpq Hx%elem_of_contrib Hy%elem_of_contrib.
    destruct Hx as (_ & _ & _ & _ & _ & [[? ?]|[? ?]]),
             Hy as (_ & _ & _ & _ & _ & [[? ?]|[? ?]]);
      unfold pair_before in Hpq; lia.
Qed.

Lemma updateCollisions_elem_of es k e x :
  updateCollisions es !! k = Some e →
  x ∈ collisions e ↔
  ∃ a b, es !! k = Some a ∧ es !! x = Some b
         ∧ ((k < x)%nat ∧ isEventsCollides a b = true
            ∨ (x < k)%nat ∧ isEventsCollides b a = true).
Proof.
  rewrite updateCollisions_lookup. intros He.
  destruct (es !! k) as [a|] eqn:Ha; [|done]. injection He as <-. simpl.
  rewrite elem_of_flat_map. split.
  - intros ([i j] & Hp%elem_of_index_pairs & Hx%elem_of_contrib).
    destruct Hx as (a' & b' & Ha' & Hb' & Hc & [[Hk Hx]|[Hk Hx]]);
      simpl in *; subst.
    + exists a', b'. split_and!; [congruence|done|]. left. split; [lia|done].
    + exists b', a'. split_and!; [congruence|done|]. right. split; [lia|done].
  - intros (a' & b & Ha' & Hb & [[Hlt Hc]|[Hlt Hc]]).
    + exists (k, x). split.
      * apply elem_of_index_pairs. split; [done|]. by eapply lookup_lt_Some.
      * apply elem_of_contrib. exists a, b. simpl. split_and!; [done|done|congruence|auto].
    + exists (x, k). split.
      * apply elem_of_index_pairs. split; [done|]. by eapply lookup_lt_Some.
      * apply elem_of_contrib. exists b, a. simpl. split_and!; [done|done|congruence|auto].
Qed.

Lemma updateCollisions_fields es k e :
  updateCollisions es !! k = Some e →
  ∃ a, es !! k = Some a ∧ e = set_collisions (collisions e) a.
Proof.
  rewrite updateCollisions_lookup. intros He.
  destruct (es !! k) as [a|]; simplify_eq/=. by exists a.
Qed.



(** ** Loops that cannot throw *)

Lemma foldM_inv {A S} (P : S → Prop) (body : S → A → Result S) xs s :
  P s →
  (∀ s x, P s → x ∈ xs → ∃ s', body s x = Ok s' ∧ P s') →
  ∃ s', foldM body xs s = Ok s' ∧ P s'.
Proof.
  revert s. induction xs as [|x xs IH]; intros s Hs Hbody; simpl.
  - by exists s.
  - destruct (Hbody s x Hs) as (s1 & -> & Hs1); [by left|]. simpl.
    apply IH; [done|]. intros s2 y ? ?. apply Hbody; [done|by right].
Qed.

Lemma fold_left_inv {A S} (P : S → Prop) (body : S → A → S) xs s :
  P s → (∀ s x, P s → x ∈ xs → P (body s x)) → P (fold_left body xs s).
Proof.
  revert s. induction xs as [|x xs IH]; intros s Hs Hbody; simpl; [done|].
  apply IH; [apply Hbody; [done|by left]|].
  intros s2 y ? ?. apply Hbody; [done|by right].
Qed.

(** ** What each step leaves unchanged *)

Lemma update_at_fmap {B} (g : WorkingEvent → B) i f es :
  (∀ e, g (f e) = g e) → g <$> update_at i f es = g <$> es.
Proof.
  intros Hg. apply list_eq. intros k.
  rewrite !list_lookup_fmap, update_at_lookup.
  case_decide; [|done]. destruct (es !! k); simpl; [|done]. by rewrite Hg.
Qed.

Lemma updateCollisions_fmap {B} (g : WorkingEvent → B) es :
  (∀ cs e, g (set_collisions cs e) = g e) →
  g <$> updateCollisions es = g <$> es.
Proof.
  intros Hg. apply list_eq. intros k.
  rewrite !list_lookup_fmap, updateCollisions_lookup.
  destruct (es !! k); simpl; [|done]. by rewrite Hg.
Qed.

Lemma getLeftCollisionsCount_pos cs i :
  getLeftCollisionsCount cs i ≠ 0%nat → ∃ c rest, cs = c :: rest ∧ (c < i)%nat.
Proof.
  destruct cs as [|c rest]; simpl; [done|].
  destruct (Nat.ltb_spec c i); [|done]. intros _. by exists c, rest.
Qed.

Lemma relayout_fold_fmap {B} (g : WorkingEvent → B) minLeft w st0 ks st :
  (∀ l e, g (set_left l e) = g e) → (∀ l e, g (set_width l e) = g e) →
  g <$> (fold_left (relayout_step minLeft w st0) ks st).1 = g <$> st.1.
Proof.
  intros Hl Hw. revert st. induction ks as [|k ks IH]; intros [es l]; simpl; [done|].
  rewrite IH. simpl. apply update_at_fmap. intros e. by rewrite Hl, Hw.
Qed.

Lemma setLayOutParams_step_ok {B} (g : WorkingEvent → B) minLeft maxWidth st i :
  (∀ l e, g (set_left l e) = g e) → (∀ l e, g (set_width l e) = g e) →
  ∃ st', setLayOutParams_step minLeft maxWidth st i = Ok st'
         ∧ g <$> st'.1 = g <$> st.1.
Proof.
  intros Hl Hw. destruct st as [es st0]. unfold setLayOutParams_step.
  destruct (es !! i) as [event|] eqn:Hi; [|by eexists].
  destruct (Nat.eqb_spec (getLeftCollisionsCount (collisions event) i) 0) as [Hz|Hn].
  - eexists. split; [done|]. simpl. apply update_at_fmap.
    intros e. by rewrite Hw, Hl.
  - apply getLeftCollisionsCount_pos in Hn as (c & rest & -> & Hc). simpl.
    destruct (lookup_lt_is_Some_2 es c) as [first Hfirst].
    { apply lookup_lt_Some in Hi. lia. }
    rewrite Hfirst. simpl.
    destruct (fold_left _ _ _) as [es' left'] eqn:Hfold.
    eexists. split; [done|]. simpl.
    rewrite update_at_fmap by (intros e; by rewrite Hw, Hl).
    change es' with (es', left').1. rewrite <-Hfold.
    by rewrite (relayout_fold_fmap g).
Qed.

Lemma setLayOutParams_ok {B} (g : WorkingEvent → B) es minLeft maxWidth :
  (∀ l e, g (set_left l e) = g e) → (∀ l e, g (set_width l e) = g e) →
  ∃ es', setLayOutParams es minLeft maxWidth = Ok es' ∧ g <$> es' = g <$> es.
Proof.
  intros Hl Hw. unfold setLayOutParams.
  destruct (foldM_inv (λ st, g <$> st.1 = g <$> es)
              (setLayOutParams_step minLeft maxWidth)
              (seq 0 (length es)) (es, 0%nat)) as (st & -> & Hst); [done| |].
  - intros st i Hst _.
    destruct (setLayOutParams_step_ok g minLeft maxWidth st i Hl Hw) as (st' & ? & ?).
    exists st'. split; [done|]. congruence.
  - simpl. by exists st.1.
Qed.

(** ** The scan of getEventsUnder *)

Lemma find_leftEvent_Some es cur js j leftEvent :
  find_leftEvent es cur js = Some (j, leftEvent) →
  j ∈ js ∧ es !! j = Some leftEvent
  ∧ isEventsCollides leftEvent cur = false ∧ hasEventUnder leftEvent = false.
Proof.
  induction js as [|j' js IH]; simpl; [done|].
  destruct (es !! j') as [e|] eqn:He.
  - destruct (isEventsCollides e cur) eqn:Hc, (hasEventUnder e) eqn:Hu; simpl;
      try (intros (? & ? & ? & ?)%IH; split_and!; [by right|done..]).
    intros [= <- <-]. split_and!; [by left|done..].
  - intros (? & ? & ? & ?)%IH. split_and!; [by right|done..].
Qed.

Lemma after_extract_lookup_lt es i j m :
  (m < i)%nat →
  ∃ cs, after_extract es i j !! m
        = (λ e, set_collisions cs
                  (if decide (j = m) then set_hasEventUnder true e else e))
          <$> es !! m.
Proof.
  intros Hm. unfold after_extract. eexists.
  rewrite updateCollisions_lookup, update_at_lookup, list_lookup_delete_lt by done.
  case_decide; by destruct (es !! m).
Qed.

Lemma after_extract_fmap {B} (g : WorkingEvent → B) es i j :
  (∀ cs e, g (set_collisions cs e) = g e) →
  (∀ b e, g (set_hasEventUnder b e) = g e) →
  g <$> after_extract es i j = g <$> delete i es.
Proof.
  intros Hc Hu. unfold after_extract.
  rewrite updateCollisions_fmap by done. by apply update_at_fmap.
Qed.

(** An induction principle for the scan: a property of the array, the index
    and [eventsUnder] that survives both kinds of iteration holds at the
    end. *)
Lemma getEventsUnder_loop_ind
    (P : list WorkingEvent → nat → list WorkingEvent → Prop) :
  (∀ es i under, P es i under → P es (S i) under) →
  (∀ es i under st0 cur j leftEvent,
      P es i under →
      es !! i = Some cur →
      find_leftEvent es cur (seq st0 (i - st0)) = Some (j, leftEvent) →
      P (after_extract es i j) i
        (under ++ [set_topEventId (Some (id leftEvent)) cur])) →
  ∀ n es under st0 i,
    P es i under →
    ∃ i', P (getEventsUnder_loop n es under st0 i).1 i'
            (getEventsUnder_loop n es under st0 i).2.
Proof.
  intros Hadv Hext n. induction n as [|n IH]; intros es under st0 i HP; simpl.
  { by exists i. }
  destruct (es !! i) as [cur|] eqn:Hi; [|by exists i].
  destruct (_ =? _)%nat; [by apply IH, Hadv|].
  destruct (find_leftEvent _ _ _) as [[j leftEvent]|] eqn:Hfind.
  - apply IH. by eapply Hext.
  - by apply IH, Hadv.
Qed.

Lemma getEventsUnder_loop_perm {B} (g : WorkingEvent → B) n es under st0 i :
  (∀ cs e, g (set_collisions cs e) = g e) →
  (∀ b e, g (set_hasEventUnder b e) = g e) →
  (∀ t e, g (set_topEventId t e) = g e) →
  let r := getEventsUnder_loop n es under st0 i in
  g <$> (r.1 ++ r.2) ≡ₚ g <$> (es ++ under).
Proof.
  intros Hc Hu Ht.
  destruct (getEventsUnder_loop_ind
              (λ es' _ under', g <$> (es' ++ under') ≡ₚ g <$> (es ++ under)))
    with (n := n) (es := es) (under := under) (st0 := st0) (i := i)
    as [_ H]; [done| |done|done].
  clear n st0 i. intros es' i under' st0 cur j leftEvent HP Hi _.
  rewrite <-HP, !fmap_app, after_extract_fmap by done.
  simpl. rewrite Ht.
  rewrite (delete_Permutation es' i cur Hi) at 2. simpl.
  rewrite <-!Permutation_middle, app_nil_r. done.
Qed.

Lemma anchored_extract es i under st0 cur j leftEvent :
  anchored es i under →
  es !! i = Some cur →
  find_leftEvent es cur (seq st0 (i - st0)) = Some (j, leftEvent) →
  anchored (after_extract es i j) i
           (under ++ [set_topEventId (Some (id leftEvent)) cur]).
Proof.
  intros Hanch Hi (Hj%elem_of_seq & Hle & _)%find_leftEvent_Some u Hu.
  apply elem_of_app in Hu as [Hu|Hu%list_elem_of_singleton].
  - destruct (Hanch u Hu) as (m & e & Hm & He & Htop & Hflag).
    destruct (after_extract_lookup_lt es i j m Hm) as [cs Hlk].
    rewrite He in Hlk. simpl in Hlk. eexists m, _. split_and!; [done|exact Hlk|..].
    + rewrite Htop. by case_decide.
    + by case_decide.
  - subst u. assert (j < i)%nat as Hji by lia.
    destruct (after_extract_lookup_lt es i j j Hji) as [cs Hlk].
    rewrite Hle in Hlk. simpl in Hlk. rewrite decide_True in Hlk by done.
    eexists j, _. split_and!; [done|exact Hlk|done..].
Qed.

Lemma getEventsUnder_loop_anchored n es under st0 i :
  anchored es i under →
  let r := getEventsUnder_loop n es under st0 i in
  ∃ i', anchored r.1 i' r.2.
Proof.
  intros H. apply getEventsUnder_loop_ind; [|apply anchored_extract|done].
  intros es' i' under' Ha u Hu.
  destruct (Ha u Hu) as (m & e & ? & ?). exists m, e. split; [lia|done].
Qed.

Lemma getEventsUnder_loop_distinct n es under st0 i :
  distinct_tops es i under →
  let r := getEventsUnder_loop n es under st0 i in
  ∃ i', distinct_tops r.1 i' r.2.
Proof.
  intros H. apply getEventsUnder_loop_ind; [| |done]; clear.
  - intros es i under (? & Ha & ?). split_and!; [done| |done].
    intros u Hu. destruct (Ha u Hu) as (m & e & ? & ?).
    exists m, e. split; [lia|done].
  - intros es i under st0 cur j leftEvent (Hid & Ha & Htop) Hi Hfind.
    split_and!; [|by eapply anchored_extract|].
    + rewrite after_extract_fmap by done.
      rewrite (delete_Permutation es i cur Hi) in Hid.
      rewrite fmap_cons in Hid. by apply NoDup_cons in Hid as [_ ?].
    + apply find_leftEvent_Some in Hfind as (_ & Hle & _ & Hflag).
      rewrite fmap_app. apply NoDup_app. split_and!; [done| |apply NoDup_singleton].
      intros t (u & -> & Hu)%list_elem_of_fmap Ht%list_elem_of_singleton.
      simpl in Ht.
      destruct (Ha u Hu) as (m & e & _ & He & Hue & Hflag').
      rewrite Ht in Hue. injection Hue as Heq.
      assert (m = j) as ->.
      { eapply (NoDup_lookup (id <$> es)); [done| |].
        - rewrite list_lookup_fmap, He. simpl. by rewrite <-Heq.
        - by rewrite list_lookup_fmap, Hle. }
      congruence.
Qed.

(** ** processEventsUnder does not throw *)

Lemma foldM_seq_inv {S} (P : nat → S → Prop) (body : S → nat → Result S) a n s :
  P a s →
  (∀ i s, (a ≤ i < a + n)%nat → P i s → ∃ s', body s i = Ok s' ∧ P (Datatypes.S i) s') →
  ∃ s', foldM body (seq a n) s = Ok s' ∧ P (a + n)%nat s'.
Proof.
  revert a s. induction n as [|n IH]; intros a s Hs Hbody; simpl.
  - exists s. by rewrite Nat.add_0_r.
  - destruct (Hbody a s) as (s1 & -> & Hs1); [lia|done|]. simpl.
    rewrite <-Nat.add_succ_comm. apply IH; [done|].
    intros i s2 ? ?. apply Hbody; [lia|done].
Qed.

Lemma groups_get_put k k' g gs :
  groups_get k' (groups_put k g gs)
  = if decide (k = k') then Some g else groups_get k' gs.
Proof.
  induction gs as [|[k0 g0] gs IH]; simpl.
  - case_decide; [subst; by rewrite bool_decide_eq_true_2|].
    by rewrite bool_decide_eq_false_2.
  - case_bool_decide as Hk0; simpl.
    + subst k0. case_decide; [subst; by rewrite bool_decide_eq_true_2|].
      by rewrite !bool_decide_eq_false_2 by done.
    + destruct (key_before k k0); simpl.
      * case_decide; [subst; by rewrite bool_decide_eq_true_2|].
        by rewrite (bool_decide_eq_false_2 (k' = k)) by done.
      * rewrite IH. case_bool_decide; [|done].
        subst. by rewrite decide_False.
Qed.

Lemma fill_eventIdxById_snoc l x :
  fill_eventIdxById (l ++ [x])
  = if bool_decide (id x = "__proto__") then fill_eventIdxById l
    else <[id x := length l]> (fill_eventIdxById l).
Proof.
  unfold fill_eventIdxById. rewrite imap_app, fold_left_app. simpl.
  by rewrite Nat.add_0_r.
Qed.

Lemma fill_eventIdxById_lookup events e :
  e ∈ events → id e ≠ "__proto__" →
  ∃ idx e', fill_eventIdxById events !! id e = Some idx
            ∧ events !! idx = Some e' ∧ id e' = id e.
Proof.
  induction events as [|x l IH] using rev_ind.
  { by intros ?%elem_of_nil. }
  intros He Hproto. rewrite fill_eventIdxById_snoc.
  destruct (decide (id x = id e)) as [Heq|Hne].
  - rewrite bool_decide_eq_false_2 by congruence.
    exists (length l), x. rewrite Heq, lookup_insert_eq.
    split_and!; [done| |done]. by apply list_lookup_middle.
  - apply elem_of_app in He as [He|He%list_elem_of_singleton]; [|by subst].
    destruct (IH He Hproto) as (idx & e' & ? & ? & ?).
    exists idx, e'. split_and!; [|by apply lookup_app_l_Some|done].
    case_bool_decide; [done|]. by rewrite lookup_insert_ne.
Qed.

Lemma groups_cover_put under i k g gs :
  groups_cover under i gs → groups_cover under i (groups_put k g gs).
Proof.
  intros H j u Hj Hu. specialize (H j u Hj Hu).
  rewrite groups_get_put. by case_decide.
Qed.

Lemma groups_cover_S under i event t g gs :
  groups_cover under i gs →
  under !! i = Some event → top_key (topEventId event) = t →
  groups_cover under (S i) (groups_put t g gs).
Proof.
  intros H Hi Ht j u Hj Hu. destruct (decide (j = i)) as [->|].
  - rewrite groups_get_put, decide_True; [done|congruence].
  - apply (groups_cover_put under i t g gs H j u); [lia|done].
Qed.

Lemma fit_between_ok under gs event eventAtTop eventGroup i lw :
  groups_cover under i gs →
  ∃ lw', foldM (fit_between_step under gs event eventAtTop eventGroup)
               (seq 0 i) lw = Ok lw'.
Proof.
  intros Hcover.
  destruct (foldM_inv (λ _, True)
              (fit_between_step under gs event eventAtTop eventGroup)
              (seq 0 i) lw) as (lw' & ? & _); [done| |by exists lw'].
  intros lw0 j _ Hj%elem_of_seq. unfold fit_between_step.
  destruct (under !! j) as [other|] eqn:Hother; [|by eexists].
  destruct (isEventsCollides other event); [|by eexists].
  destruct (Hcover j other) as [g Hg]; [lia|done|].
  rewrite Hg. destruct (_ <? _); by eexists.
Qed.

Lemma processEventsUnder_step_ok under events gs i :
  tops_named under events →
  groups_cover under i gs →
  ∃ gs', processEventsUnder_step under events (fill_eventIdxById events) gs i
         = Ok gs'
         ∧ groups_cover under (S i) gs'.
Proof.
  intros Htop Hcover. unfold processEventsUnder_step.
  destruct (under !! i) as [event|] eqn:Hi.
  2:{ exists gs. split; [done|]. intros j u Hj Hu.
      destruct (decide (j = i)) as [->|]; [congruence|].
      apply (Hcover j u); [lia|done]. }
  destruct (Htop event) as (e & He & Het & Hplain);
    [by eapply list_elem_of_lookup_2|].
  assert (id e ≠ "__proto__") as Hproto.
  { intros Heq. by rewrite Heq in Hplain. }
  destruct (fill_eventIdxById_lookup events e He Hproto)
    as (idx & eventAtTop & Hidx & Hat & _).
  rewrite Het. simpl. rewrite Hidx. simpl. rewrite Hat. simpl. rewrite Hplain.
  match goal with
  | |- context [mbind _ ?r] => assert (∃ g0, r = Ok g0) as [group0 ->]
  end.
  { destruct (groups_get (id e) gs); by eexists. }
  simpl.
  set (eventGroup := mkGroup _ _ _).
  assert (groups_cover under (S i) (groups_put (id e) eventGroup gs)) as Hcover1.
  { eapply groups_cover_S; [done..|]. by rewrite Het. }
  destruct (_ && _); [|by eexists].
  destruct (negb _).
  - destruct (fit_between_ok under (groups_put (id e) eventGroup gs) event
                eventAtTop eventGroup i (left eventAtTop, width eventAtTop))
      as [lw ->].
    { intros j u Hj Hu. apply (Hcover1 j u); [lia|done]. }
    simpl. eexists. split; [reflexivity|]. exact (groups_cover_put _ _ _ _ _ Hcover1).
  - destruct (first_colliding events event (rev (seq 0 idx))); simpl;
      (eexists; split; [done|]; exact (groups_cover_put _ _ _ _ _ Hcover1)).
Qed.

Lemma build_groups_ok under events :
  tops_named under events →
  ∃ gs, build_groups under events = Ok gs.
Proof.
  intros Htop. unfold build_groups.
  destruct (foldM_seq_inv (groups_cover under)
              (processEventsUnder_step under events (fill_eventIdxById events))
              0 (length under) []) as (gs & ? & _); [| |by exists gs].
  - intros j u Hj. lia.
  - intros i gs _ Hcover. by apply processEventsUnder_step_ok.
Qed.

Lemma layout_group_ok {B} (g : WorkingEvent → B) under kg :
  (∀ l e, g (set_left l e) = g e) → (∀ l e, g (set_width l e) = g e) →
  ∃ under', layout_group under kg = Ok under' ∧ g <$> under' = g <$> under.
Proof.
  intros Hl Hw. unfold layout_group.
  set (refs := omap _ _).
  destruct (setLayOutParams_ok g refs.*2 (g_left kg.2) (g_width kg.2) Hl Hw)
    as (objs & -> & Hobjs).
  simpl. eexists. split; [done|].
  apply (fold_left_inv (λ cur, g <$> cur = g <$> under)); [done|].
  intros cur [k o] Hcur Hko. simpl.
  apply elem_of_lookup_zip_with in Hko as (n & k' & o' & [= <- <-] & Hk & Ho).
  rewrite list_fmap_insert, Hcur. apply list_insert_id.
  apply (f_equal (.!! n)) in Hobjs. rewrite !list_lookup_fmap, Ho in Hobjs.
  rewrite list_lookup_fmap in Hk.
  destruct (refs !! n) as [[k0 o0]|] eqn:Hn; [|done].
  simpl in *. injection Hk as ->. injection Hobjs as ->.
  apply list_elem_of_lookup_2, list_elem_of_omap in Hn as (k1 & _ & Hk1).
  destruct (under !! k1) as [o1|] eqn:Hu; [|done].
  simpl in Hk1. injection Hk1 as -> ->.
  by rewrite list_lookup_fmap, Hu.
Qed.

Lemma processEventsUnder_ok {B} (g : WorkingEvent → B) under events :
  (∀ l e, g (set_left l e) = g e) → (∀ l e, g (set_width l e) = g e) →
  tops_named under events →
  ∃ under', processEventsUnder under events = Ok under'
            ∧ g <$> under' = g <$> under.
Proof.
  intros Hl Hw Htop. unfold processEventsUnder.
  destruct (build_groups_ok under events Htop) as [gs ->]. simpl.
  apply (foldM_inv (λ cur, g <$> cur = g <$> under)); [done|].
  intros cur kg Hcur _.
  destruct (layout_group_ok g cur kg Hl Hw) as (cur' & ? & ?).
  exists cur'. split; [done|]. congruence.
Qed.

Lemma processEventsUnder_frame {B} (g : WorkingEvent → B) under events under' :
  (∀ l e, g (set_left l e) = g e) → (∀ l e, g (set_width l e) = g e) →
  processEventsUnder under events = Ok under' →
  g <$> under' = g <$> under.
Proof.
  intros Hl Hw. unfold processEventsUnder.
  destruct (build_groups under events) as [gs|]; [|done]. simpl. intros Hrun.
  destruct (foldM_inv (λ cur, g <$> cur = g <$> under) layout_group gs under)
    as (under1 & Hrun1 & Hframe); [done| |congruence].
  intros cur kg Hcur _.
  destruct (layout_group_ok g cur kg Hl Hw) as (cur' & ? & ?).
  exists cur'. split; [done|]. congruence.
Qed.

(** ** What processEventsUnder can throw *)

Lemma foldM_only_throws {A S} err (body : S → A → Result S) xs s :
  (∀ s x, only_throws err (body s x)) → only_throws err (foldM body xs s).
Proof.
  intros Hbody. revert s. induction xs as [|x xs IH]; intros s; simpl; [done|].
  specialize (Hbody s x). destruct (body s x) as [s'|e]; simpl; [apply IH|done].
Qed.

Lemma foldM_throws {A S} err (body : S → A → Result S) xs s x :
  x ∈ xs → (∀ s, body s x = Throw err) →
  (∀ s y, only_throws err (body s y)) →
  foldM body xs s = Throw err.
Proof.
  intros Hx Hthrow Hbody. revert s.
  induction xs as [|y xs IH]; intros s; [by apply elem_of_nil in Hx|].
  simpl. apply elem_of_cons in Hx as [<-|Hx].
  - by rewrite Hthrow.
  - specialize (Hbody s y). destruct (body s y) as [s'|e]; simpl; [by apply IH|].
    simpl in Hbody. by subst.
Qed.

Lemma deref_only_throws {A} (o : option A) : only_throws TypeError (deref o).
Proof. by destruct o. Qed.

Lemma fit_between_step_only_throws under gs event eventAtTop eventGroup lw j :
  only_throws TypeError
    (fit_between_step under gs event eventAtTop eventGroup lw j).
Proof.
  unfold fit_between_step. destruct (under !! j) as [other|]; [|done].
  destruct (isEventsCollides other event); [|done].
  destruct (groups_get _ gs) as [g|]; [by destruct (_ <? _)|].
  by destruct (inherited _).
Qed.

Lemma processEventsUnder_step_only_throws under events tbl gs i :
  only_throws TypeError (processEventsUnder_step under events tbl gs i).
Proof.
  unfold processEventsUnder_step. destruct (under !! i) as [event|]; [|done].
  destruct (tbl !! _) as [idx|]; simpl; [|done].
  destruct (events !! idx) as [eventAtTop|]; simpl; [|done].
  match goal with
  | |- context [mbind _ ?r] =>
      assert (only_throws TypeError r) as Hr;
      [|destruct r as [group0|]; [simpl|exact Hr]]
  end.
  { destruct (groups_get _ gs); [done|]. by destruct (inherited _). }
  destruct (_ && _); [|done].
  destruct (negb _).
  - match goal with
    | |- context [foldM ?b ?xs ?s] =>
        pose proof (foldM_only_throws TypeError b xs s) as H;
        destruct (foldM b xs s)
    end; simpl.
    + done.
    + apply H. intros lw j. apply fit_between_step_only_throws.
  - by destruct (first_colliding events event (rev (seq 0 idx))).
Qed.

Lemma processEventsUnder_only_throws under events :
  only_throws TypeError (processEventsUnder under events).
Proof.
  unfold processEventsUnder, build_groups.
  match goal with
  | |- context [foldM ?b ?xs ?s] =>
      pose proof (foldM_only_throws TypeError b xs s) as H;
      destruct (foldM b xs s) as [gs|]
  end; simpl.
  - destruct (foldM_inv (λ _, True) layout_group gs under) as (u1 & -> & _);
      [done| |done].
    intros cur kg _ _.
    destruct (layout_group_ok (λ _, ()) cur kg) as (cur' & ? & _); [done..|].
    by exists cur'.
  - apply H. intros gs j. apply processEventsUnder_step_only_throws.
Qed.

(** ** The pipeline of layOutDay *)

Lemma fmap_eq_elem_of {B} (g : WorkingEvent → B) (l1 l2 : list WorkingEvent) x :
  g <$> l1 = g <$> l2 → x ∈ l2 → ∃ y, y ∈ l1 ∧ g y = g x.
Proof.
  intros Heq Hx.
  assert (g x ∈ g <$> l1) as (y & ? & ?)%list_elem_of_fmap.
  { rewrite Heq. by apply list_elem_of_fmap_2. }
  by exists y.
Qed.

Lemma insert_back_perm {A} (cmp : A → A → Z) x r : insert_back cmp x r ≡ₚ x :: r.
Proof.
  induction r as [|t r IH]; simpl; [done|].
  destruct (_ >? _); [|done]. rewrite IH. apply perm_swap.
Qed.

Lemma sort_events_perm {A} (cmp : A → A → Z) es : sort_events cmp es ≡ₚ es.
Proof.
  unfold sort_events. rewrite <-Permutation_rev.
  rewrite <-(app_nil_r es) at 2. generalize (@nil A).
  induction es as [|x es IH]; intros acc; simpl; [done|].
  rewrite IH, insert_back_perm. by rewrite Permutation_middle.
Qed.

Lemma cloneEvents_Some ins : cloneEvents (Some <$> ins) = clone_of <$> ins.
Proof. induction ins as [|x ins IH]; csimpl; [done|]. by rewrite IH. Qed.

Lemma cloneEvents_falsy pre rest :
  cloneEvents ((Some <$> pre) ++ None :: rest) = cloneEvents (Some <$> pre).
Proof. induction pre as [|x pre IH]; csimpl; [done|]. by rewrite IH. Qed.

Lemma getEventsUnder_anchored es :
  ∀ u, u ∈ (getEventsUnder es).2 →
    ∃ e, e ∈ (getEventsUnder es).1 ∧ topEventId u = Some (id e)
         ∧ hasEventUnder e = true.
Proof.
  unfold getEventsUnder.
  destruct (getEventsUnder_loop_anchored (length es) es [] 0 0) as [i' Ha].
  { by intros u ?%elem_of_nil. }
  destruct (getEventsUnder_loop _ _ _ _ _) as [es' under]. simpl in *.
  intros u Hu.
  assert (∃ u0, u0 ∈ under ∧ topEventId u0 = topEventId u) as (u0 & Hu0 & <-).
  { destruct (_ =? _)%nat; [by exists u|].
    eapply (fmap_eq_elem_of topEventId); [|done].
    symmetry. by apply updateCollisions_fmap. }
  destruct (Ha u0 Hu0) as (m & e & _ & He & ? & ?).
  exists e. split_and!; [by eapply list_elem_of_lookup_2|done..].
Qed.

Lemma getEventsUnder_perm {B} (g : WorkingEvent → B) es :
  (∀ cs e, g (set_collisions cs e) = g e) →
  (∀ b e, g (set_hasEventUnder b e) = g e) →
  (∀ t e, g (set_topEventId t e) = g e) →
  g <$> ((getEventsUnder es).1 ++ (getEventsUnder es).2) ≡ₚ g <$> es.
Proof.
  intros Hc Hu Ht. unfold getEventsUnder.
  pose proof (getEventsUnder_loop_perm g (length es) es [] 0 0 Hc Hu Ht) as Hp.
  destruct (getEventsUnder_loop _ _ _ _ _) as [es' under]. simpl in *.
  rewrite app_nil_r in Hp. rewrite <-Hp, !fmap_app.
  destruct (_ =? _)%nat; [done|]. by rewrite updateCollisions_fmap.
Qed.

Lemma no_geometry_fmap {B} (g : WorkingEvent → B) (l1 l2 : list WorkingEvent) :
  (∀ e, g (no_geometry e) = g e) →
  no_geometry <$> l1 = no_geometry <$> l2 → g <$> l1 = g <$> l2.
Proof.
  intros Hg Heq.
  rewrite <-(list_fmap_ext (g ∘ no_geometry) g l1), <-(list_fmap_ext (g ∘ no_geometry) g l2)
    by (intros; apply Hg).
  by rewrite !(list_fmap_compose no_geometry g), Heq.
Qed.

(** The run of [layOutDay] on an array, step by step: only
    [processEventsUnder] can throw. *)
Lemma layOutDay_steps elems :
  let events0 := updateCollisions
                   (sort_events compareStartEndTime (cloneEvents elems)) in
  let r := getEventsUnder events0 in
  ∃ events,
    setLayOutParams r.1 MIN_LEFT MAX_WIDTH = Ok events
    ∧ no_geometry <$> events = no_geometry <$> r.1
    ∧ layOutDay (JsArray elems)
      = (under' ← processEventsUnder r.2 events;
         Ok (normalizeEvents (events ++ under'))).
Proof.
  intros events0 r.
  destruct (setLayOutParams_ok no_geometry r.1 MIN_LEFT MAX_WIDTH)
    as (events & Hevents & Hg1); [done..|].
  exists events. split_and!; [done..|].
  unfold layOutDay. fold events0. fold r. destruct r as [events1 eventsUnder].
  simpl in *. by rewrite Hevents.
Qed.

(** A run that returns. *)
Lemma layOutDay_returns elems out :
  layOutDay (JsArray elems) = Ok out →
  let events0 := updateCollisions
                   (sort_events compareStartEndTime (cloneEvents elems)) in
  let r := getEventsUnder events0 in
  ∃ events under',
    setLayOutParams r.1 MIN_LEFT MAX_WIDTH = Ok events
    ∧ processEventsUnder r.2 events = Ok under'
    ∧ out = normalizeEvents (events ++ under')
    ∧ no_geometry <$> events = no_geometry <$> r.1
    ∧ no_geometry <$> under' = no_geometry <$> r.2.
Proof.
  intros Hout events0 r.
  destruct (layOutDay_steps elems) as (events & Hev & Hg1 & Hrun).
  fold events0 in Hev, Hg1, Hrun. fold r in Hev, Hg1, Hrun.
  rewrite Hrun in Hout.
  destruct (processEventsUnder r.2 events) as [under'|] eqn:Hunder; [|done].
  simpl in Hout. injection Hout as <-.
  exists events, under'. split_and!; [done..|].
  by apply (processEventsUnder_frame no_geometry _ events).
Qed.

Lemma layOutDay_only_throws elems :
  only_throws TypeError (layOutDay (JsArray elems)).
Proof.
  destruct (layOutDay_steps elems) as (events & _ & _ & ->).
  pose proof (processEventsUnder_only_throws
                (getEventsUnder
                   (updateCollisions
                      (sort_events compareStartEndTime (cloneEvents elems)))).2
                events) as H.
  by destruct (processEventsUnder _ events).
Qed.

Lemma elem_of_cloneEvents elems e :
  e ∈ cloneEvents elems → ∃ x, Some x ∈ elems ∧ e = clone_of x.
Proof.
  induction elems as [|[x|] elems IH]; simpl; [by intros ?%elem_of_nil| |].
  - intros [->|(y & ? & ?)%IH]%elem_of_cons.
    + exists x. split; [by left|done].
    + exists y. split; [by right|done].
  - by intros ?%elem_of_nil.
Qed.

Lemma all_plain_cloneEvents elems :
  all_plain elems → plain_ids (cloneEvents elems).
Proof.
  intros Hplain. apply Forall_forall.
  intros e (x & Hx & ->)%elem_of_cloneEvents. by apply Hplain.
Qed.

Lemma getEventsUnder_tops_named es events :
  plain_ids es →
  id <$> events = id <$> (getEventsUnder es).1 →
  tops_named (getEventsUnder es).2 events.
Proof.
  intros Hplain Hevents u Hu.
  destruct (getEventsUnder_anchored es u Hu) as (e & He & Htop & _).
  destruct (fmap_eq_elem_of id events _ e Hevents He) as (e' & ? & Hid).
  exists e'. split_and!; [done|by rewrite Hid|]. rewrite Hid.
  unfold plain_ids in Hplain. rewrite Forall_forall in Hplain.
  assert (id e ∈ id <$> es) as (e0 & -> & He0)%list_elem_of_fmap; [|by apply Hplain].
  rewrite <-(getEventsUnder_perm id es) by done.
  apply list_elem_of_fmap_2, elem_of_app. by left.
Qed.

(** The run on an array whose ids are no keys that plain objects inherit:
    no step throws. *)
Lemma layOutDay_run elems :
  plain_ids (cloneEvents elems) →
  let events0 := updateCollisions
                   (sort_events compareStartEndTime (cloneEvents elems)) in
  let r := getEventsUnder events0 in
  ∃ events under',
    setLayOutParams r.1 MIN_LEFT MAX_WIDTH = Ok events
    ∧ processEventsUnder r.2 events = Ok under'
    ∧ layOutDay (JsArray elems) = Ok (normalizeEvents (events ++ under'))
    ∧ no_geometry <$> events = no_geometry <$> r.1
    ∧ no_geometry <$> under' = no_geometry <$> r.2.
Proof.
  intros Hplain events0 r.
  destruct (layOutDay_steps elems) as (events & Hev & Hg1 & Hrun).
  fold events0 in Hev, Hg1, Hrun. fold r in Hev, Hg1, Hrun.
  destruct (processEventsUnder_ok no_geometry r.2 events)
    as (under' & Hunder & Hg2); [done..| |].
  { apply getEventsUnder_tops_named.
    - apply Forall_forall. intros e He.
      unfold plain_ids in Hplain. rewrite Forall_forall in Hplain.
      assert (id e ∈ id <$> cloneEvents elems)
        as (e0 & -> & He0)%list_elem_of_fmap; [|by apply Hplain].
      rewrite <-(sort_events_perm compareStartEndTime (cloneEvents elems)).
      rewrite <-(updateCollisions_fmap id) by done.
      by apply list_elem_of_fmap_2.
    - by apply (no_geometry_fmap id). }
  exists events, under'. split_and!; try done.
  by rewrite Hrun, Hunder.
Qed.

Lemma normalizeEvents_ids es : out_id <$> normalizeEvents es = id <$> es.
Proof. unfold normalizeEvents. by rewrite <-list_fmap_compose. Qed.

Lemma layOutDay_output_ids elems out :
  layOutDay (JsArray elems) = Ok out →
  out_id <$> out ≡ₚ id <$> cloneEvents elems.
Proof.
  intros (events & under' & _ & _ & -> & Hg1 & Hg2)%layOutDay_returns.
  rewrite normalizeEvents_ids, fmap_app.
  rewrite (no_geometry_fmap id _ _ (λ _, eq_refl) Hg1).
  rewrite (no_geometry_fmap id _ _ (λ _, eq_refl) Hg2).
  rewrite <-fmap_app, getEventsUnder_perm by done.
  rewrite updateCollisions_fmap by done.
  by rewrite sort_events_perm.
Qed.

Lemma all_plain_Some ins :
  all_plain (Some <$> ins) ↔ Forall (λ e, inherited (in_id e) = false) ins.
Proof.
  rewrite Forall_forall. split.
  - intros H e He. apply H. by apply list_elem_of_fmap_2.
  - intros H e (x & [= ->] & Hx)%list_elem_of_fmap. by apply H.
Qed.

(** C2: whenever [layOutDay] returns, the ids of the output are the ids of
    the input, each exactly once when those are distinct, and it returns
    when no id is a key that plain objects inherit.  It does not return on
    the three well-formed events below, whose ids are distinct: the event
    "c" is put under the event "constructor", [eventsGroups] has an
    inherited property of that name, and [processEventsUnder] throws. *)
Theorem layOutDay_ids :
  (let ins := [mkInput "constructor" 0 60; mkInput "b" 30 90;
               mkInput "c" 60 120] in
   Forall well_formed ins ∧ NoDup (in_id <$> ins)
   ∧ layOutDay (JsArray (Some <$> ins)) = Throw TypeError)
  ∧ (∀ ins out, layOutDay (JsArray (Some <$> ins)) = Ok out →
       out_id <$> out ≡ₚ in_id <$> ins
       ∧ (NoDup (in_id <$> ins) → NoDup (out_id <$> out)))
  ∧ (∀ ins, all_plain (Some <$> ins) →
       ∃ out, layOutDay (JsArray (Some <$> ins)) = Ok out).
Proof.
  split_and!.
  - split_and!.
    + repeat constructor; simpl; lia.
    + refine (bool_decide_unpack _ _). vm_compute. exact I.
    + by vm_compute.
  - intros ins out Hout.
    pose proof (layOutDay_output_ids _ _ Hout) as Hp.
    rewrite cloneEvents_Some, <-list_fmap_compose in Hp.
    split; [exact Hp|]. by rewrite Hp.
  - intros ins Hplain.
    destruct (layOutDay_run (Some <$> ins))
      as (events & under' & _ & _ & Hout & _); [|by eexists].
    by apply all_plain_cloneEvents.
Qed.

(** C10: an array with a falsy element after [k] events is laid out as the
    array of those [k] events alone: the same records are returned, or the
    same error is thrown.  There is no error when no id of the [k] events
    is a key that plain objects inherit; there is one for the three
    well-formed events below. *)
Theorem layOutDay_falsy :
  (∀ pre rest,
     layOutDay (JsArray ((Some <$> pre) ++ None :: rest))
     = layOutDay (JsArray (Some <$> pre)))
  ∧ (∀ pre rest, all_plain (Some <$> pre) →
       ∃ out, layOutDay (JsArray ((Some <$> pre) ++ None :: rest)) = Ok out)
  ∧ (let pre := [mkInput "constructor" 0 60; mkInput "b" 30 90;
                 mkInput "c" 60 120] in
     Forall well_formed pre
     ∧ layOutDay (JsArray ((Some <$> pre) ++ [None])) = Throw TypeError).
Proof.
  assert (∀ pre rest,
            layOutDay (JsArray ((Some <$> pre) ++ None :: rest))
            = layOutDay (JsArray (Some <$> pre))) as Heq.
  { intros pre rest. unfold layOutDay. by rewrite cloneEvents_falsy. }
  split_and!; [done| |].
  - intros pre rest Hplain. rewrite Heq.
    destruct (layOutDay_run (Some <$> pre))
      as (events & under' & _ & _ & Hout & _); [|by eexists].
    by apply all_plain_cloneEvents.
  - split; [repeat constructor; simpl; lia|by vm_compute].
Qed.

(** ** One nested event per top *)

Lemma getEventsUnder_distinct_tops es :
  NoDup (id <$> es) →
  NoDup (topEventId <$> (getEventsUnder es).2).
Proof.
  intros Hid. unfold getEventsUnder.
  destruct (getEventsUnder_loop_distinct (length es) es [] 0 0)
    as (i' & _ & _ & Htop).
  { split_and!; [done| |constructor]. by intros u ?%elem_of_nil. }
  destruct (getEventsUnder_loop _ _ _ _ _) as [es' under]. simpl in *.
  destruct (_ =? _)%nat; [done|]. by rewrite updateCollisions_fmap.
Qed.

Lemma elem_of_groups_put k g gs kg :
  kg ∈ groups_put k g gs → kg = (k, g) ∨ kg ∈ gs.
Proof.
  induction gs as [|[k0 g0] gs IH]; simpl.
  - intros ?%list_elem_of_singleton. by left.
  - destruct (bool_decide (k = k0)).
    + intros [->|?]%elem_of_cons; [by left|right; by right].
    + destruct (key_before k k0).
      * intros [->|?]%elem_of_cons; [by left|by right].
      * intros [->|[->|?]%IH]%elem_of_cons; [right; by left|by left|right; by right].
Qed.

Lemma groups_get_elem_of k g gs : groups_get k gs = Some g → (k, g) ∈ gs.
Proof.
  induction gs as [|[k0 g0] gs IH]; simpl; [done|].
  case_bool_decide as Hk.
  - subst k0. intros [= ->]. by left.
  - intros ?%IH. by right.
Qed.

Lemma processEventsUnder_step_single under events idxs gs i gs' :
  NoDup ((top_key ∘ topEventId) <$> under) →
  groups_single under i gs →
  processEventsUnder_step under events idxs gs i = Ok gs' →
  groups_single under (S i) gs'.
Proof.
  intros Hnd Hsingle. unfold processEventsUnder_step.
  assert (groups_single under (S i) gs) as Hmono.
  { intros k g Hkg. destruct (Hsingle k g Hkg) as (? & j & u & ? & ?).
    split; [done|]. exists j, u. split; [lia|done]. }
  destruct (under !! i) as [event|] eqn:Hi; [|by intros [= <-]].
  set (t := top_key (topEventId event)).
  destruct (idxs !! t) as [idx|]; [|done]. simpl.
  destruct (events !! idx) as [eventAtTop|]; [|done]. simpl.
  assert (groups_get t gs = None) as ->.
  { destruct (groups_get t gs) as [g|] eqn:Hg; [|done].
    apply groups_get_elem_of, Hsingle in Hg as (_ & j & u & Hj & Hu & Hut).
    assert (j = i); [|lia].
    eapply (NoDup_lookup ((top_key ∘ topEventId) <$> under)); [done| |].
    - rewrite list_lookup_fmap, Hu. simpl. by rewrite Hut.
    - by rewrite list_lookup_fmap, Hi. }
  destruct (inherited t); [done|]. simpl.
  set (gs1 := groups_put t _ gs).
  assert (groups_single under (S i) gs1) as Hgs1.
  { intros k g [[= -> ->]|Hkg]%elem_of_groups_put; [|by apply Hmono].
    split; [done|]. exists i, event. split; [lia|done]. }
  assert (∀ l w, groups_single under (S i) (groups_put t (mkGroup [i] l w) gs1))
    as Hgs2.
  { intros l w k g [[= -> ->]|Hkg]%elem_of_groups_put; [|by apply Hgs1].
    split; [done|]. exists i, event. split; [lia|done]. }
  destruct (_ && _); [|by intros [= <-]].
  match goal with |- context [mbind _ ?r] => destruct r as [lw|] end; [|done].
  simpl. intros [= <-]. apply Hgs2.
Qed.

Lemma build_groups_single under events gs :
  NoDup ((top_key ∘ topEventId) <$> under) →
  build_groups under events = Ok gs →
  Forall (λ kg, length (items kg.2) = 1%nat) gs.
Proof.
  intros Hnd. unfold build_groups.
  assert (∀ n a gs0 gs1,
    groups_single under a gs0 →
    foldM (processEventsUnder_step under events (fill_eventIdxById events))
          (seq a n) gs0 = Ok gs1 →
    groups_single under (a + n) gs1) as Hloop.
  { induction n as [|n IH]; intros a gs0 gs1 H0; simpl.
    - intros [= <-]. by rewrite Nat.add_0_r.
    - destruct (processEventsUnder_step _ _ _ _ _) as [gs'|] eqn:Hstep; [|done].
      simpl. intros Hrest. rewrite <-Nat.add_succ_comm.
      eapply IH; [|done]. by eapply processEventsUnder_step_single. }
  intros Hgs. apply Hloop in Hgs; [|by intros k g ?%elem_of_nil].
  apply Forall_forall. intros [k g] Hkg. by apply Hgs in Hkg as [? _].
Qed.

Lemma anchors_extract es i under tops st0 cur j leftEvent :
  anchors es i under tops →
  es !! i = Some cur →
  find_leftEvent es cur (seq st0 (i - st0)) = Some (j, leftEvent) →
  anchors (after_extract es i j) i
          (under ++ [set_topEventId (Some (id leftEvent)) cur]) (tops ++ [j]).
Proof.
  intros (Hnd & Hlen & Htops) Hi
    (Hj%elem_of_seq & Hle & _ & Hflag)%find_leftEvent_Some.
  assert (j < i)%nat as Hji by lia.
  split_and!.
  - apply NoDup_app. split_and!; [done| |apply NoDup_singleton].
    intros m [k Hk]%list_elem_of_lookup ->%list_elem_of_singleton.
    destruct (lookup_lt_is_Some_2 under k) as [u Hu].
    { rewrite <-Hlen. by eapply lookup_lt_Some. }
    destruct (Htops k u j Hu Hk) as (_ & e & He & _ & Hflag'). congruence.
  - rewrite !length_app. simpl. lia.
  - intros k u m Hu Hm.
    destruct (decide (k < length under)%nat) as [Hk|Hk].
    + rewrite lookup_app_l in Hu by done. rewrite lookup_app_l in Hm by lia.
      destruct (Htops k u m Hu Hm) as (Hmi & e & He & Htop & Hflag').
      split; [done|].
      destruct (after_extract_lookup_lt es i j m Hmi) as [cs Hlk].
      rewrite He in Hlk. simpl in Hlk. eexists. split_and!; [exact Hlk|..].
      * rewrite Htop. by case_decide.
      * by case_decide.
    + rewrite lookup_app_r in Hu by lia. rewrite lookup_app_r in Hm by lia.
      rewrite Hlen in Hm.
      destruct (k - length under)%nat as [|?]; [|done].
      simpl in Hu, Hm. injection Hu as <-. injection Hm as <-.
      split; [done|].
      destruct (after_extract_lookup_lt es i j j Hji) as [cs Hlk].
      rewrite Hle in Hlk. simpl in Hlk. rewrite decide_True in Hlk by done.
      eexists. split_and!; [exact Hlk|done..].
Qed.

Lemma getEventsUnder_anchors es :
  ∃ tops, NoDup tops ∧ length tops = length (getEventsUnder es).2
    ∧ ∀ k u m, (getEventsUnder es).2 !! k = Some u → tops !! k = Some m →
        ∃ e, (getEventsUnder es).1 !! m = Some e ∧ topEventId u = Some (id e)
             ∧ hasEventUnder e = true.
Proof.
  unfold getEventsUnder.
  destruct (getEventsUnder_loop_ind (λ es i under, ∃ tops, anchors es i under tops))
    with (n := length es) (es := es) (under := @nil WorkingEvent)
         (st0 := 0%nat) (i := 0%nat) as (i' & tops & Hnd & Hlen & Htops).
  - intros es' i under (tops & Hnd & Hlen & Htops). exists tops.
    split_and!; [done..|]. intros k u m Hu Hm.
    destruct (Htops k u m Hu Hm) as [? ?]. split; [lia|done].
  - intros es' i under st0 cur j leftEvent [tops Htops] Hi Hfind.
    exists (tops ++ [j]). by eapply anchors_extract.
  - exists []. split_and!; [constructor|done|]. by intros k u m ?.
  - destruct (getEventsUnder_loop _ _ _ _ _) as [es' under]. simpl in *.
    exists tops. destruct (_ =? _)%nat; simpl.
    + split_and!; [done..|]. intros k u m Hu Hm.
      by destruct (Htops k u m Hu Hm) as [_ ?].
    + rewrite updateCollisions_length. split_and!; [done..|].
      intros k u m Hu Hm.
      apply updateCollisions_fields in Hu as (u0 & Hu0 & ->).
      by destruct (Htops k u0 m Hu0 Hm) as [_ ?].
Qed.

Lemma NoDup_top_keys (under : list WorkingEvent) :
  (∀ u, u ∈ under → is_Some (topEventId u)) →
  NoDup (topEventId <$> under) →
  NoDup ((top_key ∘ topEventId) <$> under).
Proof.
  intros Hsome Hnd. rewrite list_fmap_compose.
  apply NoDup_fmap_2_strong; [|done].
  intros x y (u & -> & Hu)%list_elem_of_fmap (v & -> & Hv)%list_elem_of_fmap.
  destruct (Hsome u Hu) as [t ->], (Hsome v Hv) as [t' ->]. simpl. congruence.
Qed.

(** C9, as stated, fails: when two events have the same id, two of the
    events that [getEventsUnder] returns can have the same [topEventId],
    and [processEventsUnder] puts both into one group.  Here the event
    [30, 60) is put under the event [0, 30) and the event [40, 70) under
    the event [10, 40). *)
Lemma getEventsUnder_one_per_top_counterexample :
  let es := updateCollisions [mkWorking 1%nat 0 100 [] 0 0 false None;
                              mkWorking 1%nat 0 30 [] 0 0 false None;
                              mkWorking 1%nat 10 40 [] 0 0 false None;
                              mkWorking 1%nat 30 60 [] 0 0 false None;
                              mkWorking 1%nat 40 70 [] 0 0 false None] in
  let r := getEventsUnder es in
  topEventId <$> r.2 = [Some (1%nat : ident); Some (1%nat : ident)]
  ∧ ¬ NoDup (topEventId <$> r.2)
  ∧ ∃ gs, build_groups r.2 r.1 = Ok gs
          ∧ ¬ Forall (λ kg, length (items kg.2) = 1%nat) gs.
Proof.
  intros es r. split_and!.
  - by vm_compute.
  - assert (topEventId <$> r.2 = [Some (1%nat : ident); Some (1%nat : ident)])
      as -> by (by vm_compute).
    intros Hnd. apply NoDup_cons in Hnd as [Hnotin _]. apply Hnotin. by left.
  - eexists. split; [vm_compute; reflexivity|].
    intros H. apply Forall_cons in H as [H _]. simpl in H. lia.
Qed.

(** C9, amended: the events that [getEventsUnder] returns are under
    pairwise different events of the array, each marked [hasEventUnder]:
    an event has at most one event under it, in every run.  When the ids
    of the array are pairwise distinct, no two of the returned events have
    the same [topEventId], and every group that [processEventsUnder]
    builds from them has exactly one item; the groups are built when,
    moreover, no id is a key that plain objects inherit. *)
Theorem getEventsUnder_one_per_top es :
  (∃ tops, NoDup tops ∧ length tops = length (getEventsUnder es).2
     ∧ ∀ k u m, (getEventsUnder es).2 !! k = Some u → tops !! k = Some m →
         ∃ e, (getEventsUnder es).1 !! m = Some e ∧ topEventId u = Some (id e)
              ∧ hasEventUnder e = true)
  ∧ (NoDup (id <$> es) →
     NoDup (topEventId <$> (getEventsUnder es).2)
     ∧ (∀ events gs, build_groups (getEventsUnder es).2 events = Ok gs →
          Forall (λ kg, length (items kg.2) = 1%nat) gs)
     ∧ (plain_ids es →
        ∀ events, id <$> events = id <$> (getEventsUnder es).1 →
          ∃ gs, build_groups (getEventsUnder es).2 events = Ok gs)).
Proof.
  split; [apply getEventsUnder_anchors|].
  intros Hid. pose proof (getEventsUnder_distinct_tops es Hid) as Htop.
  split_and!; [done| |].
  - intros events gs Hgs. eapply build_groups_single; [|done].
    apply NoDup_top_keys; [|done]. intros u Hu.
    destruct (getEventsUnder_anchored es u Hu) as (e & _ & -> & _). by eexists.
  - intros Hplain events Hevents. apply build_groups_ok.
    by apply getEventsUnder_tops_named.
Qed.

Lemma getEventsUnder_one_per_top_witness :
  let es := updateCollisions [mkWorking 1%nat 0 100 [] 0 0 false None;
                              mkWorking 2%nat 0 50 [] 0 0 false None;
                              mkWorking 3%nat 60 100 [] 0 0 false None] in
  NoDup (topEventId <$> (getEventsUnder es).2)
  ∧ (∀ events gs, build_groups (getEventsUnder es).2 events = Ok gs →
       Forall (λ kg, length (items kg.2) = 1%nat) gs)
  ∧ (plain_ids es →
     ∀ events, id <$> events = id <$> (getEventsUnder es).1 →
       ∃ gs, build_groups (getEventsUnder es).2 events = Ok gs).
Proof.
  intros es. apply (getEventsUnder_one_per_top es).
  refine (bool_decide_unpack _ _). vm_compute. exact I.
Defined.

(** ** The bounds of setLayOutParams *)

Lemma fold_left_seq_inv {S} (P : nat → S → Prop) (body : S → nat → S) a n s :
  P a s →
  (∀ i s, (a ≤ i < a + n)%nat → P i s → P (Datatypes.S i) (body s i)) →
  P (a + n)%nat (fold_left body (seq a n) s).
Proof.
  revert a s. induction n as [|n IH]; intros a s Hs Hbody; simpl.
  - by rewrite Nat.add_0_r.
  - rewrite <-Nat.add_succ_comm. apply IH; [apply Hbody; [lia|done]|].
    intros i s2 ? ?. apply Hbody; [lia|done].
Qed.

Lemma div_shl0_bounds a n :
  0 <= a < 2 ^ 31 → (1 ≤ n)%nat →
  0 <= div_shl0 a n ∧ Z.of_nat n * div_shl0 a n <= a.
Proof.
  intros Ha Hn. unfold div_shl0, to_int32.
  assert (0 <= a ÷ Z.of_nat n) by (apply Z.quot_pos; lia).
  assert (Z.of_nat n * (a ÷ Z.of_nat n) <= a) by (apply Z.mul_quot_le; lia).
  assert (a ÷ Z.of_nat n <= a) by nia.
  rewrite Z.mod_small by lia. lia.
Qed.

Lemma relayout_step_replaced minLeft maxWidth w i st0 m st :
  0 <= w → Z.of_nat (i - st0 + 1) * w <= maxWidth →
  (st0 ≤ m < i)%nat →
  replaced minLeft maxWidth w i st0 m st →
  replaced minLeft maxWidth w i st0 (S m) (relayout_step minLeft w st0 st m).
Proof.
  intros Hw Hn Hm. destruct st as [es l].
  intros (Hin & (s & Hs & Hsl) & Hl & Hup). simpl in *.
  unfold relayout_step. rewrite Hs, Hsl.
  set (l1 := if (m =? st0)%nat && (l >? minLeft) then minLeft else l).
  assert (minLeft <= l1 ∧ l1 <= minLeft + Z.of_nat (m - st0) * w) as [Hl1 Hl1'].
  { unfold l1. destruct (Nat.eqb_spec m st0) as [->|]; simpl.
    - rewrite Nat.sub_diag. destruct (Z.gtb_spec l minLeft); lia.
    - split; [done|]. apply Hup. lia. }
  assert (Z.of_nat (m - st0) * w + w <= Z.of_nat (i - st0 + 1) * w) by nia.
  unfold replaced. simpl. split_and!.
  - intros k e Hk. rewrite update_at_lookup. case_decide as Hkm; [|by apply Hin].
    subst k. destruct (es !! m) as [e0|]; [|done]. intros [= <-].
    unfold within. simpl. lia.
  - rewrite update_at_lookup. case_decide as Hkm.
    + subst m. rewrite Hs. simpl. eexists. split; [done|]. simpl.
      unfold l1. rewrite Nat.eqb_refl. simpl. destruct (Z.gtb_spec l minLeft); lia.
    + by exists s.
  - lia.
  - intros _. replace (Z.of_nat (S m - st0)) with (Z.of_nat (m - st0) + 1) by lia.
    lia.
Qed.

Lemma setLayOutParams_step_placed minLeft maxWidth i st st' :
  0 <= maxWidth < 2 ^ 31 →
  (i < length st.1)%nat →
  placed minLeft maxWidth i st →
  setLayOutParams_step minLeft maxWidth st i = Ok st' →
  placed minLeft maxWidth (S i) st'.
Proof.
  intros Hmax Hlen [Hin Hstart]. destruct st as [es st0]. simpl in *.
  unfold setLayOutParams_step.
  destruct (lookup_lt_is_Some_2 es i Hlen) as [event Hi]. rewrite Hi.
  destruct (Nat.eqb_spec (getLeftCollisionsCount (collisions event) i) 0) as [Hz|Hn].
  - intros [= <-]. split; simpl.
    + intros k e Hk. rewrite update_at_lookup. case_decide as Hki.
      * subst k. rewrite Hi. intros [= <-]. unfold within. simpl. lia.
      * apply Hin. lia.
    + intros _. split; [lia|]. rewrite update_at_lookup, decide_True, Hi by done.
      by eexists.
  - apply getLeftCollisionsCount_pos in Hn as (c & rest & Hcs & Hc).
    rewrite Hcs. simpl.
    destruct (es !! c) as [first|] eqn:Hfirst; [|done]. simpl.
    destruct Hstart as [Hst0 Hs]; [lia|].
    destruct (div_shl0_bounds maxWidth (i - st0 + 1)) as [Hw Hnw]; [done|lia|].
    set (w := div_shl0 maxWidth (i - st0 + 1)) in *.
    pose proof (fold_left_seq_inv (replaced minLeft maxWidth w i st0)
                  (relayout_step minLeft w st0) st0 (i - st0) (es, left first))
      as Hfold.
    destruct (fold_left _ _ _) as [es' l'].
    intros [= <-]. destruct Hfold as (Hin' & (s' & Hs' & Hsl') & Hl' & Hup').
    { split_and!; simpl; [done|done| |lia]. by apply (Hin c first). }
    { intros m st ? ?. apply relayout_step_replaced; [done|done|lia|done]. }
    simpl in *. replace (st0 + (i - st0))%nat with i in Hup' by lia.
    specialize (Hup' Hst0).
    assert (Z.of_nat (i - st0) * w + w <= Z.of_nat (i - st0 + 1) * w) by nia.
    split; simpl.
    + intros k e Hk. rewrite update_at_lookup. case_decide as Hki.
      * subst k. destruct (es' !! i); [|done]. intros [= <-].
        unfold within. simpl. lia.
      * apply Hin'. lia.
    + intros _. split; [lia|]. rewrite update_at_lookup, decide_False by lia.
      by exists s'.
Qed.

Lemma setLayOutParams_within es minLeft maxWidth es' :
  0 <= maxWidth < 2 ^ 31 →
  setLayOutParams es minLeft maxWidth = Ok es' →
  Forall (within minLeft maxWidth) es'.
Proof.
  intros Hmax. unfold setLayOutParams.
  destruct (foldM_seq_inv
              (λ i st, length st.1 = length es ∧ placed minLeft maxWidth i st)
              (setLayOutParams_step minLeft maxWidth) 0 (length es) (es, 0%nat))
    as (st & -> & Hlen & Hin & _).
  - split; [done|]. split; simpl; intros; lia.
  - intros i st Hi [Hlen Hplaced].
    destruct (setLayOutParams_step_ok (λ _, ()) minLeft maxWidth st i)
      as (st1 & Hst1 & Hlen1); [done..|].
    apply (f_equal length) in Hlen1. rewrite !length_fmap in Hlen1.
    exists st1. split_and!; [done|congruence|].
    apply (setLayOutParams_step_placed minLeft maxWidth i st st1); [done|lia|done..].
  - simpl. intros [= <-]. apply Forall_forall. intros e [k Hk]%list_elem_of_lookup.
    apply (Hin k e); [|done]. apply lookup_lt_Some in Hk. lia.
Qed.

(** ** The output of layOutDay *)

(** The sample runs of the documentation. *)
Example layOutDay_two_disjoint :
  layOutDay (JsArray [Some (mkInput 1%nat 0 60); Some (mkInput 2%nat 120 180)])
  = Ok [mkOutput 1%nat 0 60 10 620 0; mkOutput 2%nat 120 180 10 620 120].
Proof. by vm_compute. Qed.

Example layOutDay_two_overlapping :
  layOutDay (JsArray [Some (mkInput 1%nat 0 60); Some (mkInput 2%nat 30 90)])
  = Ok [mkOutput 1%nat 0 60 10 310 0; mkOutput 2%nat 30 90 320 310 30].
Proof. by vm_compute. Qed.

Example layOutDay_three_overlapping :
  layOutDay (JsArray [Some (mkInput 1%nat 0 90); Some (mkInput 2%nat 10 80);
                      Some (mkInput 3%nat 20 70)])
  = Ok [mkOutput 1%nat 0 90 10 206 0; mkOutput 2%nat 10 80 216 206 10;
        mkOutput 3%nat 20 70 422 206 20].
Proof. by vm_compute. Qed.

(** The run over a store: the four input objects and the argument array
    stay, the clones and the two arrays of the call come after them. *)
Example Mem_layOutDay_run :
  let h := Mem.mkHeap [mkWorking 1%nat 0 60 [] 0 0 false None;
                       mkWorking 2%nat 30 90 [] 0 0 false None;
                       mkWorking 3%nat 60 120 [] 0 0 false None;
                       mkWorking 4%nat 90 120 [] 0 0 false None]
                      [[Some 3; Some 1; Some 0; Some 2]%nat] in
  let r := Mem.layOutDay h (Mem.ArrayRef 0%nat) in
  take 4%nat (Mem.objects r.1) = Mem.objects h
  ∧ Mem.arrays r.1 = Mem.arrays h ++ [[Some 6; Some 5; Some 4]; [Some 7]]%nat
  ∧ r.2 = Ok [mkOutput 1%nat 0 60 10 310 0; mkOutput 2%nat 30 90 320 310 30;
              mkOutput 4%nat 90 120 10 620 90; mkOutput 3%nat 60 120 10 310 60].
Proof. by vm_compute. Qed.

(** C1: four well-formed events for which two records of the output
    collide in time and overlap horizontally: the event 3 is put under the
    event 1 in the columns [10, 320), and the event 4, which collides with
    it, gets the whole width [10, 630). *)
Theorem layOutDay_overlap :
  let input := JsArray [Some (mkInput 1%nat 0 60); Some (mkInput 2%nat 30 90);
                        Some (mkInput 3%nat 60 120); Some (mkInput 4%nat 90 120)] in
  let out := [mkOutput 1%nat 0 60 10 310 0; mkOutput 2%nat 30 90 320 310 30;
              mkOutput 4%nat 90 120 10 620 90; mkOutput 3%nat 60 120 10 310 60] in
  layOutDay input = Ok out ∧ ¬ no_overlap out.
Proof.
  intros input out. split; [by vm_compute|]. intros Hno.
  apply (Hno 2%nat 3%nat _ _ ltac:(done) eq_refl eq_refl); [done|].
  exists 10. simpl. lia.
Qed.

(** C3, as stated, fails: a record of an event left in the array ends at
    630, and a record of an event put under another one ends at 940. *)
Lemma layOutDay_bounds_620_counterexample :
  let input := JsArray [Some (mkInput 1%nat 4 5); Some (mkInput 2%nat 6 12);
                        Some (mkInput 3%nat 6 14); Some (mkInput 4%nat 6 10);
                        Some (mkInput 5%nat 0 5); Some (mkInput 6%nat 3 6);
                        Some (mkInput 7%nat 2 8)] in
  let out := [mkOutput 5%nat 0 5 10 155 0; mkOutput 7%nat 2 8 165 155 2;
              mkOutput 6%nat 3 6 320 155 3; mkOutput 1%nat 4 5 475 155 4;
              mkOutput 3%nat 6 14 10 155 6; mkOutput 2%nat 6 12 320 155 6;
              mkOutput 4%nat 6 10 475 465 6] in
  layOutDay input = Ok out ∧ ¬ Forall (in_bounds 620) out.
Proof.
  intros input out. split; [by vm_compute|]. intros H.
  rewrite Forall_forall in H.
  destruct (H (mkOutput 1%nat 4 5 475 155 4)) as [_ Hr]; [set_solver|].
  simpl in Hr. lia.
Qed.

(** The same for the least input: one event fills [10, 630). *)
Example layOutDay_single_event :
  layOutDay (JsArray [Some (mkInput 1%nat 0 60)]) = Ok [mkOutput 1%nat 0 60 10 620 0].
Proof. by vm_compute. Qed.

(** C3, amended: the records of the events that [getEventsUnder] leaves in
    the array lie between 10 and 630; they come first in the output, before
    the records of the events put under others.  There is an output when
    no id is a key that plain objects inherit. *)
Theorem layOutDay_primary_bounds elems :
  let r := getEventsUnder
             (updateCollisions
                (sort_events compareStartEndTime (cloneEvents elems))) in
  (all_plain elems → ∃ out, layOutDay (JsArray elems) = Ok out)
  ∧ ∀ out, layOutDay (JsArray elems) = Ok out →
      ∃ primary nested,
        out = primary ++ nested
        ∧ out_id <$> primary = id <$> r.1
        ∧ out_id <$> nested = id <$> r.2
        ∧ Forall (in_bounds 630) primary.
Proof.
  intros r. split.
  - intros Hplain.
    destruct (layOutDay_run elems) as (events & under' & _ & _ & Hout & _);
      [by apply all_plain_cloneEvents|by eexists].
  - intros out (events & under' & Hev & _ & -> & Hg1 & Hg2)%layOutDay_returns.
    fold r in Hev, Hg1, Hg2.
    exists (normalizeEvents events), (normalizeEvents under'). split_and!.
    + unfold normalizeEvents. by rewrite map_app.
    + rewrite normalizeEvents_ids. by apply (no_geometry_fmap id).
    + rewrite normalizeEvents_ids. by apply (no_geometry_fmap id).
    + apply setLayOutParams_within in Hev; [|done].
      unfold normalizeEvents. apply Forall_fmap.
      eapply Forall_impl; [exact Hev|].
      intros e (? & ? & ?). unfold in_bounds, MIN_LEFT, MAX_WIDTH in *. simpl. lia.
Qed.

(** ** The order of the sort *)

Lemma compareStartEndTime_pos a b :
  (compareStartEndTime a b >? 0) = true ↔ ¬ before a b.
Proof.
  unfold compareStartEndTime, before.
  destruct (Z.eqb_spec (start a) (start b));
    [destruct (Z.gtb_spec (end_ a) (end_ b))
    |destruct (Z.gtb_spec (start a) (start b))]; simpl; split; try done; lia.
Qed.

Lemma compareStartEndTime_nonpos a b :
  (compareStartEndTime a b >? 0) = false ↔ before a b.
Proof.
  unfold compareStartEndTime, before.
  destruct (Z.eqb_spec (start a) (start b));
    [destruct (Z.gtb_spec (end_ a) (end_ b))
    |destruct (Z.gtb_spec (start a) (start b))]; simpl; split; try done; lia.
Qed.

Lemma not_before a b : times a ≠ times b → ¬ before a b → before b a.
Proof.
  unfold times, before. intros Hne Hnb.
  destruct (decide (start a = start b)) as [Hs|]; [|lia].
  destruct (decide (end_ a = end_ b)) as [He|]; [|lia].
  rewrite Hs, He in Hne. done.
Qed.

Lemma before_trans a b c : before a b → before b c → before a c.
Proof. unfold before. lia. Qed.

Lemma before_asym a b : before a b → before b a → False.
Proof. unfold before. lia. Qed.

Lemma insert_back_sorted x r :
  (∀ t, t ∈ r → times t ≠ times x) →
  StronglySorted (flip before) r →
  StronglySorted (flip before) (insert_back compareStartEndTime x r).
Proof.
  intros Hne Hr. induction Hr as [|t r Hr IH Ht]; simpl.
  { repeat constructor. }
  destruct (compareStartEndTime t x >? 0) eqn:Hc.
  - apply compareStartEndTime_pos, not_before in Hc; [|apply Hne; by left].
    constructor.
    + apply IH. intros t' ?. apply Hne. by right.
    + rewrite (insert_back_perm _ x r). by constructor.
  - apply compareStartEndTime_nonpos in Hc.
    constructor; [by constructor|]. constructor; [done|].
    eapply Forall_impl; [exact Ht|]. intros y Hy. by eapply before_trans.
Qed.

Lemma sort_fold_sorted es acc :
  NoDup (times <$> (es ++ acc)) →
  StronglySorted (flip before) acc →
  StronglySorted (flip before)
    (fold_left (λ rprefix element, insert_back compareStartEndTime element rprefix)
               es acc).
Proof.
  revert acc. induction es as [|x es IH]; intros acc Hnd Hacc; simpl; [done|].
  csimpl in Hnd. apply NoDup_cons in Hnd as [Hx Hnd].
  apply IH.
  - rewrite fmap_app, insert_back_perm, fmap_cons, <-Permutation_middle.
    apply NoDup_cons. split; [|by rewrite <-fmap_app].
    by rewrite <-fmap_app.
  - apply insert_back_sorted; [|done]. intros t Ht Heq. apply Hx.
    rewrite <-Heq. apply list_elem_of_fmap_2. apply elem_of_app. by right.
Qed.

Lemma sort_events_unique (es1 es2 : list WorkingEvent) :
  NoDup (times <$> es1) → es1 ≡ₚ es2 →
  sort_events compareStartEndTime es1 = sort_events compareStartEndTime es2.
Proof.
  intros Hnd Hp. unfold sort_events. f_equal.
  apply (StronglySorted_unique_strong (flip before)).
  - intros x y _ _ Hxy Hyx. destruct (before_asym _ _ Hxy Hyx).
  - apply sort_fold_sorted; [by rewrite app_nil_r|constructor].
  - apply sort_fold_sorted; [|constructor].
    by rewrite app_nil_r, <-Hp.
  - pose proof (sort_events_perm compareStartEndTime es1) as H1.
    pose proof (sort_events_perm compareStartEndTime es2) as H2.
    unfold sort_events in H1, H2. rewrite <-Permutation_rev in H1, H2.
    by rewrite H1, H2.
Qed.

(** C4, as stated, fails: of two events with the same times, the one that
    the sort puts first gets the left column, and which one that is follows
    the order of the input. *)
Lemma layOutDay_permutation_counterexample :
  let ins1 := [mkInput 1%nat 0 60; mkInput 2%nat 0 60] in
  let ins2 := [mkInput 2%nat 0 60; mkInput 1%nat 0 60] in
  Forall well_formed ins1 ∧ ins1 ≡ₚ ins2
  ∧ ∃ out1 out2,
      layOutDay (JsArray (Some <$> ins1)) = Ok out1
      ∧ layOutDay (JsArray (Some <$> ins2)) = Ok out2
      ∧ ¬ (∀ g, g ∈ geometry <$> out1 ↔ g ∈ geometry <$> out2).
Proof.
  intros ins1 ins2. split_and!.
  - repeat constructor; simpl; lia.
  - apply perm_swap.
  - exists [mkOutput 2%nat 0 60 10 310 0; mkOutput 1%nat 0 60 320 310 0],
           [mkOutput 1%nat 0 60 10 310 0; mkOutput 2%nat 0 60 320 310 0].
    split_and!; [by vm_compute..|].
    intros H. destruct (H ((1%nat : ident), (320, 310, 0))) as [H1 _].
    assert (((1%nat : ident), (320, 310, 0))
            ∈ geometry <$> [mkOutput 1%nat 0 60 10 310 0;
                            mkOutput 2%nat 0 60 320 310 0]) as Hin.
    { apply H1. by apply (list_elem_of_lookup_2 _ 1%nat). }
    apply list_elem_of_lookup_1 in Hin as [[|[|k]] Hk]; by vm_compute in Hk.
Qed.

(** C4, amended: when no two events of the input have the same start and
    the same end, a permutation of the input gives the same output, hence
    the same geometry for each id. *)
Theorem layOutDay_permutation ins1 ins2 :
  Forall well_formed ins1 →
  NoDup ((λ e, (in_start e, in_end e)) <$> ins1) →
  ins1 ≡ₚ ins2 →
  layOutDay (JsArray (Some <$> ins1)) = layOutDay (JsArray (Some <$> ins2)).
Proof.
  intros _ Hnd Hp. unfold layOutDay. rewrite !cloneEvents_Some.
  rewrite (sort_events_unique (clone_of <$> ins1) (clone_of <$> ins2)); [done| |].
  - by rewrite <-list_fmap_compose.
  - by rewrite Hp.
Qed.

Lemma layOutDay_permutation_witness :
  layOutDay (JsArray (Some <$> [mkInput 1%nat 0 60; mkInput 2%nat 30 90]))
  = layOutDay (JsArray (Some <$> [mkInput 2%nat 30 90; mkInput 1%nat 0 60])).
Proof.
  apply (layOutDay_permutation [mkInput 1%nat 0 60; mkInput 2%nat 30 90]
                               [mkInput 2%nat 30 90; mkInput 1%nat 0 60]).
  - repeat constructor; simpl; lia.
  - refine (bool_decide_unpack _ _). vm_compute. exact I.
  - apply perm_swap.
Defined.

(** ** The store *)

Lemma unchanged_refl h : unchanged h h.
Proof. by split. Qed.

Lemma unchanged_length h0 h :
  unchanged h0 h →
  (length (Mem.objects h0) ≤ length (Mem.objects h))%nat
  ∧ (length (Mem.arrays h0) ≤ length (Mem.arrays h))%nat.
Proof.
  intros [Ho Ha]. split.
  - destruct (decide (length (Mem.objects h0) ≤ length (Mem.objects h))%nat)
      as [|Hn]; [done|].
    destruct (lookup_lt_is_Some_2 (Mem.objects h0) (length (Mem.objects h)))
      as [e He]; [lia|].
    apply Ho, lookup_lt_Some in He. lia.
  - destruct (decide (length (Mem.arrays h0) ≤ length (Mem.arrays h))%nat)
      as [|Hn]; [done|].
    destruct (lookup_lt_is_Some_2 (Mem.arrays h0) (length (Mem.arrays h)))
      as [e He]; [lia|].
    apply Ha, lookup_lt_Some in He. lia.
Qed.

Lemma truthy_Some (ls : list Mem.loc) : Mem.truthy (Some <$> ls) = ls.
Proof. induction ls as [|l ls IH]; csimpl; [done|]. by rewrite IH. Qed.

Lemma private_set_obj h0 arrs h l e :
  fresh h0 l → private h0 arrs h → private h0 arrs (Mem.set_obj l e h).
Proof.
  intros Hl [[Ho Ha] Harrs]. split; [split|]; simpl; [|done|done].
  intros l' e' He'. rewrite list_lookup_insert_ne; [by apply Ho|].
  apply lookup_lt_Some in He'. unfold fresh in Hl. lia.
Qed.

Lemma private_store h0 arrs h locs es :
  Forall (fresh h0) locs → private h0 arrs h →
  private h0 arrs (Mem.store locs es h).
Proof.
  intros Hlocs Hp. unfold Mem.store.
  apply (fold_left_inv (private h0 arrs)); [done|].
  intros h' [l e] Hh' Hle. simpl. apply private_set_obj; [|done].
  apply elem_of_zip_l in Hle. rewrite Forall_forall in Hlocs. by apply Hlocs.
Qed.

Lemma refs_set_array a ls h b :
  Mem.refs (Mem.set_array a ls h) b
  = if decide (a = b ∧ (a < length (Mem.arrays h))%nat) then ls else Mem.refs h b.
Proof.
  unfold Mem.refs, Mem.elements, Mem.set_array. simpl.
  case_decide as Hd.
  - destruct Hd as [<- Ha]. rewrite list_lookup_insert_eq by done. simpl.
    apply truthy_Some.
  - destruct (decide (a = b)) as [<-|]; [|by rewrite list_lookup_insert_ne].
    by rewrite list_insert_ge by lia.
Qed.

Lemma private_set_array h0 arrs h a ls :
  a ∈ arrs → Forall (fresh h0) ls → private h0 arrs h →
  private h0 arrs (Mem.set_array a ls h).
Proof.
  intros Ha Hls [[Ho Harr] Harrs]. rewrite Forall_forall in Harrs.
  split; [split|]; simpl; [done| |].
  - intros a' elems He. rewrite list_lookup_insert_ne; [by apply Harr|].
    apply lookup_lt_Some in He. destruct (Harrs a Ha) as [? _]. lia.
  - apply Forall_forall. intros b Hb. destruct (Harrs b Hb) as [? ?].
    split; [done|]. rewrite refs_set_array. by case_decide.
Qed.

Lemma private_refs h0 arrs h a :
  a ∈ arrs → private h0 arrs h → Forall (fresh h0) (Mem.refs h a).
Proof.
  intros Ha [_ Harrs]. rewrite Forall_forall in Harrs. by apply Harrs.
Qed.

Lemma private_updateCollisions h0 arrs h a :
  a ∈ arrs → private h0 arrs h → private h0 arrs (Mem.updateCollisions h a).
Proof.
  intros Ha Hp. apply private_store; [|done]. by eapply private_refs.
Qed.

(** ** The call writes to its own objects and arrays only *)

Lemma private_getEventsUnder_loop h0 n h a under st0 i :
  private h0 [a; under] h →
  private h0 [a; under] (Mem.getEventsUnder_loop n h a under st0 i).
Proof.
  assert (a ∈ [a; under]) as Hin_a by (by left).
  assert (under ∈ [a; under]) as Hin_u by (right; by left).
  revert h st0 i. induction n as [|n IH]; intros h st0 i Hp; simpl; [done|].
  destruct (Mem.refs h a !! i) as [cur|] eqn:Hcur; [|done].
  destruct (_ =? _)%nat; [by apply IH|].
  destruct (find_leftEvent _ _ _) as [[j leftEvent]|]; [|by apply IH].
  pose proof (private_refs h0 _ h a Hin_a Hp) as Ha.
  assert (fresh h0 cur) as Hfcur.
  { rewrite Forall_forall in Ha. by eapply Ha, list_elem_of_lookup_2. }
  assert (fresh h0 (default cur (Mem.refs h a !! j))) as Hflft.
  { destruct (Mem.refs h a !! j) as [l|] eqn:Hl; simpl; [|done].
    rewrite Forall_forall in Ha. by eapply Ha, list_elem_of_lookup_2. }
  assert (private h0 [a; under]
            (Mem.set_obj cur (set_topEventId (Some (id leftEvent))
               (Mem.obj (Mem.set_array a (delete i (Mem.refs h a)) h) cur))
               (Mem.set_array a (delete i (Mem.refs h a)) h))) as Hp2.
  { apply private_set_obj; [done|].
    apply private_set_array; [done| |done]. by apply Forall_delete. }
  apply IH, private_updateCollisions; [done|].
  apply private_set_obj; [done|].
  apply private_set_array; [done| |done].
  apply Forall_app. split; [|by repeat constructor].
  by apply (private_refs h0 [a; under]).
Qed.

Lemma private_new_array h0 arrs h ls :
  Forall (fresh h0) ls → private h0 arrs h →
  private h0 ((Mem.new_array ls h).2 :: arrs) (Mem.new_array ls h).1.
Proof.
  intros Hls [[Ho Ha] Harrs]. pose proof (unchanged_length h0 h (conj Ho Ha)) as [_ Hlen].
  unfold Mem.new_array. simpl. split; [split|]; simpl; [done| |].
  - intros a elems He. apply lookup_app_l_Some. by apply Ha.
  - constructor.
    + split; [done|]. unfold Mem.refs, Mem.elements. simpl.
      rewrite list_lookup_middle by done. simpl. by rewrite truthy_Some.
    + eapply Forall_impl; [exact Harrs|]. intros b [Hb Hrefs]. split; [done|].
      unfold Mem.refs, Mem.elements in *. simpl.
      destruct (Mem.arrays h !! b) as [elems|] eqn:Hlk.
      * by rewrite (lookup_app_l_Some _ _ _ _ Hlk).
      * apply lookup_ge_None in Hlk.
        destruct (decide (b = length (Mem.arrays h))) as [->|].
        -- rewrite list_lookup_middle by done. simpl. by rewrite truthy_Some.
        -- rewrite lookup_ge_None_2; [done|]. rewrite length_app. simpl. lia.
Qed.

Lemma private_getEventsUnder h0 h a :
  private h0 [a] h →
  private h0 [a; (Mem.getEventsUnder h a).2] (Mem.getEventsUnder h a).1.
Proof.
  intros Hp. unfold Mem.getEventsUnder.
  pose proof (private_new_array h0 [a] h [] ltac:(constructor) Hp) as Hp1.
  destruct (Mem.new_array [] h) as [h1 under]. simpl in *.
  assert (private h0 [a; under] h1) as Hp1'.
  { destruct Hp1 as [? Harrs]. split; [done|].
    apply Forall_cons in Harrs as [Hu [Ha _]%Forall_cons].
    apply Forall_cons. split; [done|]. apply Forall_cons. split; [done|].
    constructor. }
  pose proof (private_getEventsUnder_loop h0 (length (Mem.refs h1 a)) h1 a under
                0 0 Hp1') as Hp2.
  destruct (_ =? _)%nat; simpl; [done|].
  apply private_updateCollisions; [right; by left|done].
Qed.

Lemma private_cloneEvents h a :
  private h [(Mem.cloneEvents h a).2] (Mem.cloneEvents h a).1.
Proof.
  unfold Mem.cloneEvents, Mem.new_objects.
  set (clones := cloneEvents (Mem.input_of h a)).
  set (h1 := Mem.mkHeap _ _).
  apply (private_new_array h [] h1).
  - apply Forall_forall. intros l Hl%elem_of_seq. unfold fresh. lia.
  - split; [|constructor]. split; simpl; [|done].
    intros l e He. by apply lookup_app_l_Some.
Qed.

Lemma private_setLayOutParams h0 arrs h locs minLeft maxWidth h' :
  Forall (fresh h0) locs → private h0 arrs h →
  Mem.setLayOutParams h locs minLeft maxWidth = Ok h' →
  private h0 arrs h'.
Proof.
  intros Hlocs Hp. unfold Mem.setLayOutParams.
  destruct (setLayOutParams _ _ _) as [es|]; [|done]. simpl.
  intros [= <-]. by apply private_store.
Qed.

Lemma private_processEventsUnder h0 arrs h under a h' :
  under ∈ arrs → private h0 arrs h →
  Mem.processEventsUnder h under a = Ok h' →
  private h0 arrs h'.
Proof.
  intros Hin Hp. unfold Mem.processEventsUnder.
  destruct (build_groups _ _) as [gs|]; [|done]. simpl.
  pose proof (private_refs h0 arrs h under Hin Hp) as Hrefs.
  generalize dependent (Mem.refs h under). intros under_refs Hrefs.
  revert h Hp. induction gs as [|kg gs IH]; intros h Hp; simpl.
  { by intros [= <-]. }
  destruct (Mem.setLayOutParams h _ _ _) as [h1|] eqn:Hh1; [|done]. simpl.
  apply IH. eapply private_setLayOutParams; [|done|done].
  apply Forall_forall. intros l (k & _ & Hk)%list_elem_of_omap.
  rewrite Forall_forall in Hrefs. by eapply Hrefs, list_elem_of_lookup_2.
Qed.

Lemma Mem_layOutDay_unchanged h v : unchanged h (Mem.layOutDay h v).1.
Proof.
  destruct v as [|a]; [apply unchanged_refl|]. unfold Mem.layOutDay.
  pose proof (private_cloneEvents h a) as Hp1.
  destruct (Mem.cloneEvents h a) as [h1 events]. simpl in Hp1.
  assert (events ∈ [events]) as Hin by (by left).
  assert (private h [events] (Mem.updateCollisions (Mem.sort h1 events) events))
    as Hp2.
  { apply private_updateCollisions; [done|]. unfold Mem.sort.
    apply private_set_array; [done| |done].
    rewrite sort_events_perm. by eapply private_refs. }
  apply private_getEventsUnder in Hp2.
  destruct (Mem.getEventsUnder _ _) as [h3 eventsUnder]. simpl in Hp2.
  destruct (Mem.setLayOutParams h3 _ _ _) as [h4|] eqn:Hh4; [|by destruct Hp2].
  eapply private_setLayOutParams in Hh4;
    [|eapply private_refs; [|exact Hp2]; by left|exact Hp2].
  destruct (Mem.processEventsUnder h4 _ _) as [h5|] eqn:Hh5; [|by destruct Hh4].
  eapply private_processEventsUnder in Hh5; [|right; by left|exact Hh4].
  by destruct Hh5.
Qed.

(** ** The store run computes what the run on values computes *)

Lemma obj_set_obj_eq h l e :
  (l < length (Mem.objects h))%nat → Mem.obj (Mem.set_obj l e h) l = e.
Proof.
  intros Hl. unfold Mem.obj, Mem.set_obj. simpl.
  by apply list_lookup_total_insert_eq.
Qed.

Lemma obj_set_obj_ne h l l' e :
  l ≠ l' → Mem.obj (Mem.set_obj l e h) l' = Mem.obj h l'.
Proof.
  intros Hl. unfold Mem.obj, Mem.set_obj. simpl.
  by apply list_lookup_total_insert_ne.
Qed.

Lemma objs_set_obj_at h a j l e :
  good h a → Mem.refs h a !! j = Some l →
  Mem.objs (Mem.set_obj l e h) a = <[j := e]> (Mem.objs h a).
Proof.
  intros (_ & Hnd & Hin) Hj. unfold Mem.objs.
  change (Mem.refs (Mem.set_obj l e h) a) with (Mem.refs h a).
  apply list_eq. intros k. rewrite list_lookup_fmap.
  destruct (decide (j = k)) as [<-|Hjk].
  - rewrite list_lookup_insert_eq.
    + rewrite Hj. simpl. f_equal. apply obj_set_obj_eq.
      rewrite Forall_forall in Hin. by eapply Hin, list_elem_of_lookup_2.
    + rewrite length_fmap. by eapply lookup_lt_Some.
  - rewrite list_lookup_insert_ne, list_lookup_fmap by done.
    destruct (Mem.refs h a !! k) as [l'|] eqn:Hk; simpl; [|done].
    f_equal. apply obj_set_obj_ne. intros ->.
    by pose proof (NoDup_lookup _ _ _ _ Hnd Hj Hk).
Qed.

Lemma store_arrays locs es h : Mem.arrays (Mem.store locs es h) = Mem.arrays h.
Proof.
  unfold Mem.store. by apply (fold_left_inv (λ h', Mem.arrays h' = Mem.arrays h)).
Qed.

Lemma store_length locs es h :
  length (Mem.objects (Mem.store locs es h)) = length (Mem.objects h).
Proof.
  unfold Mem.store.
  apply (fold_left_inv (λ h', length (Mem.objects h') = length (Mem.objects h)));
    [done|].
  intros h' [l e] Hh' _. simpl. by rewrite length_insert.
Qed.

Lemma refs_store locs es h a : Mem.refs (Mem.store locs es h) a = Mem.refs h a.
Proof. unfold Mem.refs, Mem.elements. by rewrite store_arrays. Qed.

Lemma obj_store_notin locs es h l :
  l ∉ locs → Mem.obj (Mem.store locs es h) l = Mem.obj h l.
Proof.
  intros Hl. unfold Mem.store.
  apply (fold_left_inv (λ h', Mem.obj h' l = Mem.obj h l)); [done|].
  intros h' [l' e] Hh' Hle%elem_of_zip_l. simpl.
  rewrite obj_set_obj_ne; [done|]. by intros ->.
Qed.

Lemma obj_store locs es h :
  NoDup locs → length es = length locs →
  Forall (λ l, (l < length (Mem.objects h))%nat) locs →
  Mem.obj (Mem.store locs es h) <$> locs = es.
Proof.
  intros Hnd. revert es h. induction Hnd as [|l locs Hl Hnd IH];
    intros [|e es] h Hlen Hin; simplify_eq/=; [done|].
  apply Forall_cons in Hin as [Hlin Hin]. f_equal.
  - change (Mem.obj (Mem.store locs es (Mem.set_obj l e h)) l = e).
    rewrite obj_store_notin by done. by apply obj_set_obj_eq.
  - apply (IH es (Mem.set_obj l e h)); [done|]. simpl. by rewrite length_insert.
Qed.

Lemma objs_store_same a es h :
  good h a → length es = length (Mem.refs h a) →
  Mem.objs (Mem.store (Mem.refs h a) es h) a = es.
Proof.
  intros (_ & Hnd & Hin) Hlen. unfold Mem.objs. rewrite refs_store.
  by apply obj_store.
Qed.

Lemma objs_store_other locs b es h :
  (∀ l, l ∈ locs → l ∉ Mem.refs h b) →
  Mem.objs (Mem.store locs es h) b = Mem.objs h b.
Proof.
  intros Hdisj. unfold Mem.objs. rewrite refs_store.
  apply list_fmap_ext. intros k l Hk. apply obj_store_notin.
  intros Hl. apply (Hdisj l Hl). by eapply list_elem_of_lookup_2.
Qed.

Lemma good_store locs es h a : good h a → good (Mem.store locs es h) a.
Proof.
  intros (? & ? & ?). unfold good.
  by rewrite refs_store, store_arrays, store_length.
Qed.

Lemma good_set_obj l e h a : good h a → good (Mem.set_obj l e h) a.
Proof.
  intros (? & ? & ?). unfold good. simpl. rewrite length_insert. done.
Qed.

Lemma objs_set_array_same a ls h :
  (a < length (Mem.arrays h))%nat →
  Mem.objs (Mem.set_array a ls h) a = Mem.obj h <$> ls.
Proof.
  intros Ha. unfold Mem.objs. rewrite refs_set_array, decide_True by done. done.
Qed.

Lemma refs_set_array_ne a b ls h :
  a ≠ b → Mem.refs (Mem.set_array a ls h) b = Mem.refs h b.
Proof. intros Hab. rewrite refs_set_array, decide_False; [done|]. by intros [? _]. Qed.

Lemma refs_set_array_same a ls h :
  (a < length (Mem.arrays h))%nat → Mem.refs (Mem.set_array a ls h) a = ls.
Proof. intros Ha. by rewrite refs_set_array, decide_True. Qed.

Lemma good_set_array_same a ls h :
  (a < length (Mem.arrays h))%nat → NoDup ls →
  Forall (λ l, (l < length (Mem.objects h))%nat) ls →
  good (Mem.set_array a ls h) a.
Proof.
  intros Ha Hnd Hin. unfold good. rewrite refs_set_array_same by done.
  simpl. by rewrite length_insert.
Qed.

Lemma insert_back_fmap {A B} (f : A → B) (cmp : B → B → Z) x r :
  f <$> insert_back (λ a b, cmp (f a) (f b)) x r = insert_back cmp (f x) (f <$> r).
Proof.
  induction r as [|t r IH]; csimpl; [done|].
  destruct (cmp (f t) (f x) >? 0); csimpl; [|done]. by rewrite IH.
Qed.

Lemma sort_events_fmap {A B} (f : A → B) (cmp : B → B → Z) l :
  f <$> sort_events (λ a b, cmp (f a) (f b)) l = sort_events cmp (f <$> l).
Proof.
  unfold sort_events.
  change (map f (rev (fold_left
            (λ rprefix element, insert_back (λ a b, cmp (f a) (f b)) element rprefix)
            l []))
          = rev (fold_left (λ rprefix element, insert_back cmp element rprefix)
                           (f <$> l) (f <$> []))).
  rewrite map_rev. f_equal. generalize (@nil A).
  induction l as [|x l IH]; intros acc; csimpl; [done|].
  rewrite <-insert_back_fmap. apply IH.
Qed.

Lemma sim_sort h a :
  good h a →
  good (Mem.sort h a) a
  ∧ Mem.objs (Mem.sort h a) a = sort_events compareStartEndTime (Mem.objs h a).
Proof.
  intros (Ha & Hnd & Hin). unfold Mem.sort. split.
  - apply good_set_array_same; [done|..]; by rewrite sort_events_perm.
  - rewrite objs_set_array_same by done. apply sort_events_fmap.
Qed.

Lemma sim_updateCollisions h a :
  good h a →
  good (Mem.updateCollisions h a) a
  ∧ Mem.objs (Mem.updateCollisions h a) a = updateCollisions (Mem.objs h a).
Proof.
  intros Hg. unfold Mem.updateCollisions. split; [by apply good_store|].
  apply objs_store_same; [done|].
  unfold Mem.objs. by rewrite updateCollisions_length, length_fmap.
Qed.

Lemma sim_cloneEvents h a :
  good (Mem.cloneEvents h a).1 (Mem.cloneEvents h a).2
  ∧ Mem.objs (Mem.cloneEvents h a).1 (Mem.cloneEvents h a).2
    = cloneEvents (Mem.input_of h a).
Proof.
  unfold Mem.cloneEvents, Mem.new_objects, Mem.new_array. simpl.
  set (clones := cloneEvents (Mem.input_of h a)).
  unfold good, Mem.objs, Mem.refs, Mem.elements. simpl.
  rewrite list_lookup_middle by done. simpl. rewrite truthy_Some.
  split_and!.
  - rewrite length_app. simpl. lia.
  - apply NoDup_seq.
  - apply Forall_forall. intros l Hl%elem_of_seq. rewrite length_app. lia.
  - apply list_eq. intros k. rewrite list_lookup_fmap.
    destruct (clones !! k) as [e|] eqn:Hk.
    + rewrite (proj2 (lookup_seq _ _ k _) (conj eq_refl (lookup_lt_Some _ _ _ Hk))).
      simpl. f_equal. unfold Mem.obj. simpl.
      apply list_lookup_total_correct.
      rewrite lookup_app_r by lia. by rewrite Nat.add_comm, Nat.add_sub.
    + rewrite lookup_ge_None_2; [done|]. rewrite length_seq.
      by apply lookup_ge_None.
Qed.

Lemma NoDup_delete {A} (l : list A) i : NoDup l → NoDup (delete i l).
Proof. intros Hnd. eapply sublist_NoDup; [done|apply sublist_delete]. Qed.

Lemma sim_extract h a u es uv i j cur t :
  sim h a u es uv →
  Mem.refs h a !! i = Some cur → (j < i)%nat →
  let lft := default cur (Mem.refs h a !! j) in
  let h1 := Mem.set_array a (delete i (Mem.refs h a)) h in
  let h2 := Mem.set_obj cur (set_topEventId t (Mem.obj h1 cur)) h1 in
  let h3 := Mem.set_array u (Mem.refs h2 u ++ [cur]) h2 in
  let h4 := Mem.set_obj lft (set_hasEventUnder true (Mem.obj h3 lft)) h3 in
  sim (Mem.updateCollisions h4 a) a u
      (updateCollisions (update_at j (set_hasEventUnder true) (delete i es)))
      (uv ++ [set_topEventId t (Mem.obj h cur)]).
Proof.
  intros ((Ha & Hnda & Hina) & (Hu & Hndu & Hinu) & Hau & Hdisj & Hes & Huv) Hi Hji.
  intros lft0 h1 h2 h3 h4.
  destruct (lookup_lt_is_Some_2 (Mem.refs h a) j) as [lft Hj].
  { apply lookup_lt_Some in Hi. lia. }
  assert (lft0 = lft) as Hlft0 by (unfold lft0; by rewrite Hj).
  clearbody lft0. subst lft0.
  assert (cur ≠ lft) as Hcl.
  { intros ->. pose proof (NoDup_lookup _ _ _ _ Hnda Hi Hj). lia. }
  assert (cur ∈ Mem.refs h a) as Hcur_a by (by eapply list_elem_of_lookup_2).
  assert (lft ∈ Mem.refs h a) as Hlft_a by (by eapply list_elem_of_lookup_2).
  assert ((cur < length (Mem.objects h))%nat) as Hcur_in.
  { rewrite Forall_forall in Hina. by apply Hina. }
  assert ((lft < length (Mem.objects h))%nat) as Hlft_in.
  { rewrite Forall_forall in Hina. by apply Hina. }
  assert (Mem.refs h4 a = delete i (Mem.refs h a)) as Hrefs_a.
  { change (Mem.refs h4 a) with (Mem.refs h3 a). unfold h3.
    rewrite refs_set_array_ne by done.
    change (Mem.refs h2 a) with (Mem.refs h1 a). unfold h1.
    by rewrite refs_set_array_same. }
  assert (Mem.refs h4 u = Mem.refs h u ++ [cur]) as Hrefs_u.
  { change (Mem.refs h4 u) with (Mem.refs h3 u). unfold h3.
    rewrite refs_set_array_same by (simpl; by rewrite length_insert).
    change (Mem.refs h2 u) with (Mem.refs h1 u). unfold h1.
    by rewrite refs_set_array_ne. }
  assert (length (Mem.objects h4) = length (Mem.objects h)) as Hlen.
  { simpl. by rewrite !length_insert. }
  assert (length (Mem.arrays h4) = length (Mem.arrays h)) as Hlen'.
  { simpl. by rewrite !length_insert. }
  assert (∀ l, l ≠ cur → l ≠ lft → Mem.obj h4 l = Mem.obj h l) as Hother.
  { intros l ? ?. unfold h4. rewrite obj_set_obj_ne by done.
    change (Mem.obj h3 l) with (Mem.obj h2 l). unfold h2.
    by rewrite obj_set_obj_ne. }
  assert (Mem.obj h4 cur = set_topEventId t (Mem.obj h cur)) as Hobj_cur.
  { unfold h4. rewrite obj_set_obj_ne by done.
    change (Mem.obj h3 cur) with (Mem.obj h2 cur). unfold h2.
    by rewrite obj_set_obj_eq. }
  assert (Mem.obj h4 lft = set_hasEventUnder true (Mem.obj h lft)) as Hobj_lft.
  { unfold h4. rewrite obj_set_obj_eq by (simpl; by rewrite length_insert).
    f_equal. change (Mem.obj h3 lft) with (Mem.obj h2 lft). unfold h2.
    by rewrite obj_set_obj_ne. }
  assert (good h4 a) as Hga.
  { unfold good. rewrite Hrefs_a, Hlen, Hlen'. split_and!; [done| |].
    - by apply NoDup_delete.
    - by apply Forall_delete. }
  assert (good h4 u) as Hgu.
  { unfold good. rewrite Hrefs_u, Hlen, Hlen'. split_and!; [done| |].
    - apply NoDup_app. split_and!; [done| |apply NoDup_singleton].
      intros l Hl ->%list_elem_of_singleton. by apply (Hdisj cur).
    - apply Forall_app. split; [done|]. by repeat constructor. }
  assert (∀ l, l ∈ delete i (Mem.refs h a) → l ∈ Mem.refs h a ∧ l ≠ cur) as Hdel.
  { intros l [k Hk]%list_elem_of_lookup. rewrite list_lookup_delete in Hk.
    case_decide.
    - split; [by eapply list_elem_of_lookup_2|]. intros ->.
      pose proof (NoDup_lookup _ _ _ _ Hnda Hi Hk). lia.
    - split; [by eapply list_elem_of_lookup_2|]. intros ->.
      pose proof (NoDup_lookup _ _ _ _ Hnda Hi Hk). lia. }
  assert (∀ l, l ∈ Mem.refs h4 a → l ∉ Mem.refs h4 u) as Hdisj4.
  { rewrite Hrefs_a, Hrefs_u. intros l [Hl Hlc]%Hdel.
    rewrite elem_of_app, list_elem_of_singleton. intros [?|?]; [|done].
    by apply (Hdisj l). }
  assert (Mem.objs h4 a = update_at j (set_hasEventUnder true) (delete i es))
    as Hobjs_a.
  { unfold Mem.objs. rewrite Hrefs_a, <-Hes. unfold Mem.objs, update_at.
    rewrite <-list_fmap_delete. apply list_eq. intros k.
    rewrite list_lookup_alter, !list_lookup_fmap.
    destruct (delete i (Mem.refs h a) !! k) as [l|] eqn:Hk; simpl.
    2:{ case_decide; [subst k; by rewrite Hk|done]. }
    assert (delete i (Mem.refs h a) !! j = Some lft) as Hj'.
    { by rewrite list_lookup_delete_lt. }
    destruct (Hdel l) as [_ Hlc]; [by eapply list_elem_of_lookup_2|].
    case_decide as Hjk.
    - subst k. rewrite Hj'. simpl. assert (l = lft) as -> by congruence.
      by rewrite Hobj_lft.
    - f_equal. apply Hother; [done|]. intros ->.
      pose proof (NoDup_lookup _ _ _ _ (NoDup_delete _ i Hnda) Hk Hj'). done. }
  assert (Mem.objs h4 u = uv ++ [set_topEventId t (Mem.obj h cur)]) as Hobjs_u.
  { unfold Mem.objs. rewrite Hrefs_u, fmap_app, <-Huv. simpl. rewrite Hobj_cur.
    f_equal. apply list_fmap_ext. intros k l Hk%list_elem_of_lookup_2.
    apply Hother; intros ->;
      [exact (Hdisj cur Hcur_a Hk)|exact (Hdisj lft Hlft_a Hk)]. }
  destruct (sim_updateCollisions h4 a Hga) as [Hga5 Hobjs5].
  split_and!.
  - done.
  - by apply good_store.
  - done.
  - unfold Mem.updateCollisions. by rewrite !refs_store.
  - by rewrite Hobjs5, Hobjs_a.
  - rewrite <-Hobjs_u. apply objs_store_other. done.
Qed.

Lemma sim_getEventsUnder_loop n h a u es uv st0 i :
  sim h a u es uv →
  sim (Mem.getEventsUnder_loop n h a u st0 i) a u
      (getEventsUnder_loop n es uv st0 i).1 (getEventsUnder_loop n es uv st0 i).2.
Proof.
  revert h es uv st0 i. induction n as [|n IH]; intros h es uv st0 i Hsim; simpl;
    [done|].
  pose proof Hsim as (_ & _ & _ & _ & Hes & _).
  assert (es !! i = Mem.obj h <$> Mem.refs h a !! i) as ->.
  { rewrite <-Hes. apply list_lookup_fmap. }
  destruct (Mem.refs h a !! i) as [cur|] eqn:Hi; simpl; [|done].
  destruct (_ =? _)%nat; [by apply IH|].
  rewrite Hes.
  destruct (find_leftEvent es (Mem.obj h cur) (seq st0 (i - st0)))
    as [[j leftEvent]|] eqn:Hfind; [|by apply IH].
  apply IH.
  apply find_leftEvent_Some in Hfind as (Hj%elem_of_seq & _).
  apply sim_extract; [done|done|lia].
Qed.

Lemma sim_new_array h a es :
  good h a → Mem.objs h a = es →
  sim (Mem.new_array [] h).1 a (Mem.new_array [] h).2 es [].
Proof.
  intros (Ha & Hnd & Hin) Hes. unfold Mem.new_array. simpl.
  assert (∀ h', Mem.arrays h' = Mem.arrays h ++ [[]] →
                Mem.refs h' a = Mem.refs h a
                ∧ Mem.refs h' (length (Mem.arrays h)) = []) as Hrefs.
  { intros h' Heq. unfold Mem.refs, Mem.elements. rewrite Heq.
    rewrite lookup_app_l by done. by rewrite list_lookup_middle. }
  set (h' := Mem.mkHeap _ _).
  destruct (Hrefs h' eq_refl) as [Hra Hru].
  unfold sim, good, Mem.objs. rewrite Hra, Hru. simpl.
  rewrite length_app. simpl. split_and!; try done; try lia.
  - constructor.
  - by intros l _ ?%elem_of_nil.
Qed.

Lemma sim_getEventsUnder h a es :
  good h a → Mem.objs h a = es →
  sim (Mem.getEventsUnder h a).1 a (Mem.getEventsUnder h a).2
      (getEventsUnder es).1 (getEventsUnder es).2.
Proof.
  intros Hg Hes. unfold Mem.getEventsUnder, getEventsUnder.
  pose proof (sim_new_array h a es Hg Hes) as Hsim.
  destruct (Mem.new_array [] h) as [h1 u]. simpl in Hsim.
  assert (length (Mem.refs h1 a) = length es) as ->.
  { destruct Hsim as (_ & _ & _ & _ & <- & _). unfold Mem.objs.
    by rewrite length_fmap. }
  pose proof (sim_getEventsUnder_loop (length es) h1 a u es [] 0 0 Hsim) as Hloop.
  destruct (getEventsUnder_loop _ es _ _ _) as [es' uv]. simpl in *.
  set (h2 := Mem.getEventsUnder_loop _ _ _ _ _ _) in *.
  destruct Hloop as (Hga & Hgu & Hau & Hdisj & Hes' & Huv).
  assert (length (Mem.refs h2 u) = length uv) as ->.
  { rewrite <-Huv. unfold Mem.objs. by rewrite length_fmap. }
  destruct (_ =? _)%nat; simpl; [done|].
  destruct (sim_updateCollisions h2 u Hgu) as [Hgu' Hobjs].
  split_and!.
  - by apply good_store.
  - done.
  - done.
  - unfold Mem.updateCollisions. by rewrite !refs_store.
  - rewrite <-Hes'. apply objs_store_other. intros l Hl Hl'. by apply (Hdisj l).
  - by rewrite Hobjs, Huv.
Qed.

Lemma sim_setLayOutParams h a u es uv minLeft maxWidth es' :
  sim h a u es uv →
  setLayOutParams es minLeft maxWidth = Ok es' →
  ∃ h', Mem.setLayOutParams h (Mem.refs h a) minLeft maxWidth = Ok h'
        ∧ sim h' a u es' uv.
Proof.
  intros (Hga & Hgu & Hau & Hdisj & Hes & Huv) Hrun.
  unfold Mem.setLayOutParams. fold (Mem.objs h a). rewrite Hes, Hrun. simpl.
  eexists. split; [done|].
  destruct (setLayOutParams_ok (λ _, ()) es minLeft maxWidth) as (es1 & Hes1 & Hlen);
    [done..|].
  rewrite Hrun in Hes1. injection Hes1 as <-.
  apply (f_equal length) in Hlen. rewrite !length_fmap in Hlen.
  split_and!; [by apply good_store|by apply good_store|done|..].
  - by rewrite !refs_store.
  - apply objs_store_same; [done|].
    rewrite Hlen, <-Hes. unfold Mem.objs. by rewrite length_fmap.
  - rewrite <-Huv. by apply objs_store_other.
Qed.

Lemma omap_indices {A B} (f : A → B) (locs : list A) (ks : list nat) :
  let r := omap (λ k, pair k <$> (f <$> locs) !! k) ks in
  r.*2 = f <$> omap (locs !!.) ks
  ∧ omap (locs !!.) r.*1 = omap (locs !!.) ks
  ∧ Forall (λ k, (k < length locs)%nat) r.*1.
Proof.
  induction ks as [|k ks IH]; [by repeat constructor|].
  destruct IH as (IH1 & IH2 & IH3). cbn zeta in *.
  change (omap ?g (k :: ks)) with (match g k with Some y => y :: omap g ks
                                              | None => omap g ks end).
  cbn beta. rewrite list_lookup_fmap.
  destruct (locs !! k) as [l|] eqn:Hk; csimpl; [|done].
  rewrite Hk, IH1, IH2. split_and!; [done..|].
  constructor; [by eapply lookup_lt_Some|done].
Qed.

Lemma store_indices locs h u ks es :
  good h u → Mem.refs h u = locs →
  Forall (λ k, (k < length locs)%nat) ks →
  Mem.objs (Mem.store (omap (locs !!.) ks) es h) u
  = fold_left (λ acc ko, <[ko.1 := ko.2]> acc) (zip ks es) (Mem.objs h u).
Proof.
  intros Hg Hu Hks. revert es h Hg Hu. induction Hks as [|k ks Hk Hks IH];
    intros es h Hg Hu; [done|].
  destruct (lookup_lt_is_Some_2 _ _ Hk) as [l Hl].
  change (omap ?g (k :: ks)) with (match g k with Some y => y :: omap g ks
                                              | None => omap g ks end).
  cbn beta. rewrite Hl.
  destruct es as [|e es]; [done|].
  change (Mem.store (l :: ?ls) (e :: es) h)
    with (Mem.store ls es (Mem.set_obj l e h)).
  rewrite IH; [|by apply good_set_obj|done].
  simpl. f_equal. apply objs_set_obj_at; [done|by rewrite Hu].
Qed.

Lemma sim_layout_group h a u es uv kg uv' :
  sim h a u es uv →
  layout_group uv kg = Ok uv' →
  ∃ h', Mem.setLayOutParams h (omap (Mem.refs h u !!.) (items kg.2))
                            (g_left kg.2) (g_width kg.2) = Ok h'
        ∧ sim h' a u es uv' ∧ Mem.refs h' u = Mem.refs h u.
Proof.
  intros (Hga & Hgu & Hau & Hdisj & Hes & Huv). unfold layout_group.
  rewrite <-Huv. unfold Mem.objs at 1 2.
  destruct (omap_indices (Mem.obj h) (Mem.refs h u) (items kg.2)) as (H1 & H2 & H3).
  set (r := omap _ _) in *. rewrite H1.
  unfold Mem.setLayOutParams.
  destruct (setLayOutParams _ _ _) as [objs|]; [|done]. simpl.
  intros [= <-]. eexists. split; [done|].
  split; [|by rewrite refs_store]. split_and!.
  - by apply good_store.
  - by apply good_store.
  - done.
  - by rewrite !refs_store.
  - rewrite <-Hes. apply objs_store_other.
    intros l (k & _ & Hk)%list_elem_of_omap Hl.
    apply (Hdisj l Hl). by eapply list_elem_of_lookup_2.
  - rewrite <-H2. by apply store_indices.
Qed.

Lemma sim_layout_groups gs h a u es uv uv' under :
  sim h a u es uv → Mem.refs h u = under →
  foldM layout_group gs uv = Ok uv' →
  ∃ h', foldM (λ h kg, Mem.setLayOutParams h (omap (under !!.) (items kg.2))
                                           (g_left kg.2) (g_width kg.2)) gs h
        = Ok h'
        ∧ sim h' a u es uv'.
Proof.
  revert h uv. induction gs as [|kg gs IH]; intros h uv Hsim Hu; simpl.
  { intros [= <-]. by exists h. }
  destruct (layout_group uv kg) as [uv1|] eqn:Hkg; [|done]. simpl. intros Hrest.
  destruct (sim_layout_group h a u es uv kg uv1 Hsim Hkg) as (h1 & Hh1 & Hsim1 & Hrefs).
  rewrite <-Hu, Hh1. simpl. rewrite Hu.
  apply (IH h1 uv1); [done|congruence|done].
Qed.

Lemma Mem_layOutDay_result h v :
  (Mem.layOutDay h v).2 = layOutDay (value_of h v).
Proof.
  destruct v as [|a]; [done|]. unfold value_of.
  destruct (layOutDay_steps (Mem.input_of h a)) as (events & Hev & _ & ->).
  unfold Mem.layOutDay.
  destruct (sim_cloneEvents h a) as [Hg1 Hobjs1].
  destruct (Mem.cloneEvents h a) as [h1 ea]. simpl in Hg1, Hobjs1.
  destruct (sim_sort h1 ea Hg1) as [Hg2 Hobjs2].
  destruct (sim_updateCollisions _ ea Hg2) as [Hg3 Hobjs3].
  rewrite Hobjs2, Hobjs1 in Hobjs3.
  pose proof (sim_getEventsUnder _ ea _ Hg3 Hobjs3) as Hsim.
  destruct (Mem.getEventsUnder _ ea) as [h3 u]. simpl in Hsim.
  destruct (sim_setLayOutParams _ _ _ _ _ _ _ _ Hsim Hev) as (h4 & -> & Hsim4).
  unfold processEventsUnder, Mem.processEventsUnder.
  pose proof Hsim4 as (_ & _ & _ & _ & -> & ->).
  destruct (build_groups _ events) as [gs|]; [|done]. simpl.
  match goal with
  | |- context [foldM layout_group gs ?uv] =>
      destruct (foldM_inv (λ _, True) layout_group gs uv) as (uv' & Hunder & _);
        [done| |]
  end.
  { intros cur kg _ _.
    destruct (layout_group_ok (λ _, ()) cur kg) as (cur' & ? & _); [done..|].
    by exists cur'. }
  rewrite Hunder.
  destruct (sim_layout_groups gs h4 ea u _ _ _ _ Hsim4 eq_refl Hunder)
    as (h5 & -> & Hsim5).
  destruct Hsim5 as (_ & _ & _ & _ & -> & ->). done.
Qed.

(** C8: the run over the store returns what [layOutDay] returns on the
    values that the argument holds, and whatever the store and the
    argument, every object and every array that exists before the call is
    the same after it: the argument array keeps its length and its
    elements, and the elements keep all their fields, [id], [start] and
    [end] among them. *)
Theorem layOutDay_leaves_input h v :
  (Mem.layOutDay h v).2 = layOutDay (value_of h v)
  ∧ unchanged h (Mem.layOutDay h v).1.
Proof.
  split; [apply Mem_layOutDay_result|apply Mem_layOutDay_unchanged].
Qed.

(** C7: [layOutDay] throws the "must be an array" error exactly when its
    argument is not an array.  An array of well-formed events does not
    always get an output: with the ids "constructor", "b" and "c" the event
    "c" is put under "constructor", [processEventsUnder] finds the inherited
    property of that name where it looks for the group, makes no group and
    reads [items] of [undefined].  This TypeError is the only other error
    of [layOutDay], and there is none when no id is a key that plain
    objects inherit.  A call that throws leaves every object and array of
    the caller as it was; at the guard nothing is allocated either. *)
Theorem layOutDay_raises :
  (∀ v, layOutDay v = Throw InvalidInput ↔ v = JsNotArray)
  ∧ (let ins := [mkInput "constructor" 0 60; mkInput "b" 30 90;
                 mkInput "c" 60 120] in
     Forall well_formed ins
     ∧ layOutDay (JsArray (Some <$> ins)) = Throw TypeError)
  ∧ (∀ elems e, layOutDay (JsArray elems) = Throw e → e = TypeError)
  ∧ (∀ elems, all_plain elems → ∃ out, layOutDay (JsArray elems) = Ok out)
  ∧ (∀ h v e, (Mem.layOutDay h v).2 = Throw e →
       unchanged h (Mem.layOutDay h v).1
       ∧ (e = InvalidInput → (Mem.layOutDay h v).1 = h)).
Proof.
  assert (∀ elems e, layOutDay (JsArray elems) = Throw e → e = TypeError)
    as Honly.
  { intros elems e Hthrow. pose proof (layOutDay_only_throws elems) as H.
    by rewrite Hthrow in H. }
  split_and!.
  - intros [|elems]; [done|]. split; [|done]. intros Hthrow.
    by specialize (Honly _ _ Hthrow).
  - intros ins. split; [|by vm_compute].
    repeat constructor; simpl; lia.
  - exact Honly.
  - intros elems Hplain.
    destruct (layOutDay_run elems) as (events & under' & _ & _ & Hout & _);
      [by apply all_plain_cloneEvents|by eexists].
  - intros h v e Hthrow. split; [apply Mem_layOutDay_unchanged|].
    intros ->. destruct v as [|a]; [done|].
    rewrite Mem_layOutDay_result in Hthrow. unfold value_of in Hthrow.
    by specialize (Honly _ _ Hthrow).
Qed.

(** * Further properties of the functions *)

(** ** getLeftCollisionsCount *)

Lemma getLeftCollisionsCount_filter cs i :
  StronglySorted lt cs →
  getLeftCollisionsCount cs i = length (filter (λ c, c < i)%nat cs).
Proof.
  induction 1 as [|c cs Hcs IH Hc]; simpl; [done|].
  destruct (Nat.ltb_spec c i) as [Hlt|Hge].
  - rewrite filter_cons_True by done. simpl. by rewrite IH.
  - rewrite filter_cons_False by lia.
    assert (filter (λ c0, c0 < i)%nat cs = []) as ->; [|done].
    clear IH Hcs. induction Hc as [|x l Hx _ IHl]; [done|].
    rewrite filter_cons_False by lia. exact IHl.
Qed.

Lemma getLeftCollisionsCount_zero cs i :
  StronglySorted lt cs →
  getLeftCollisionsCount cs i = 0%nat ↔ ∀ c, c ∈ cs → (i ≤ c)%nat.
Proof.
  intros Hcs. rewrite getLeftCollisionsCount_filter by done. split.
  - intros H c Hc. destruct (decide (c < i)%nat) as [Hlt|]; [|lia].
    assert (c ∈ filter (λ c0, c0 < i)%nat cs) as Hin
      by (by apply list_elem_of_filter).
    destruct (filter _ cs); [by apply elem_of_nil in Hin|done].
  - intros H. induction cs as [|c cs IH]; [done|].
    rewrite filter_cons_False.
    + apply IH; [by inversion Hcs|]. intros x Hx. apply H. by right.
    + assert (i ≤ c)%nat by (apply H; by left). lia.
Qed.

(** X1: on a strictly ascending list, as [updateCollisions] builds them,
    [getLeftCollisionsCount] is the number of all the indices below
    [_eventIdx]; it never exceeds the length of the list. *)
Theorem getLeftCollisionsCount_counts cs i :
  StronglySorted lt cs →
  getLeftCollisionsCount cs i = length (filter (λ c, c < i)%nat cs)
  ∧ (getLeftCollisionsCount cs i ≤ length cs)%nat.
Proof.
  intros Hcs. rewrite getLeftCollisionsCount_filter by done.
  split; [done|]. apply length_filter.
Qed.

Lemma getLeftCollisionsCount_counts_witness :
  getLeftCollisionsCount [0; 2; 5]%nat 3
  = length (filter (λ c, c < 3)%nat [0; 2; 5]%nat)
  ∧ (getLeftCollisionsCount [0; 2; 5]%nat 3 ≤ length [0; 2; 5]%nat)%nat.
Proof.
  apply (getLeftCollisionsCount_counts [0; 2; 5]%nat 3).
  repeat constructor; lia.
Defined.

(** ** updateCollisions, once more *)

Lemma updateCollisions_ext es1 es2 :
  set_collisions [] <$> es1 = set_collisions [] <$> es2 →
  updateCollisions es1 = updateCollisions es2.
Proof.
  intros Heq. apply list_eq. intros k.
  rewrite !updateCollisions_lookup.
  assert (length es1 = length es2) as ->.
  { apply (f_equal length) in Heq. by rewrite !length_fmap in Heq. }
  assert (∀ m, set_collisions [] <$> es1 !! m = set_collisions [] <$> es2 !! m)
    as Hlk.
  { intros m. by rewrite <-!list_lookup_fmap, Heq. }
  rewrite (flat_map_ext _ _ (λ q, contrib_ext es1 es2 k q Hlk)).
  specialize (Hlk k).
  destruct (es1 !! k) as [e1|], (es2 !! k) as [e2|]; simpl in *; try done.
  f_equal. destruct e1, e2. unfold set_collisions in *. simpl in *. congruence.
Qed.

Lemma updateCollisions_idem es :
  updateCollisions (updateCollisions es) = updateCollisions es.
Proof. apply updateCollisions_ext. by apply updateCollisions_fmap. Qed.

(** X2: [updateCollisions] computes the lists from scratch: arrays that
    differ in their [collisions] only get the same result, no other field
    is changed, and a second run changes nothing. *)
Theorem updateCollisions_from_scratch es1 es2 :
  set_collisions [] <$> es1 = set_collisions [] <$> es2 →
  updateCollisions es1 = updateCollisions es2
  ∧ set_collisions [] <$> updateCollisions es1 = set_collisions [] <$> es1
  ∧ updateCollisions (updateCollisions es1) = updateCollisions es1.
Proof.
  intros Heq. split_and!.
  - by apply updateCollisions_ext.
  - by apply updateCollisions_fmap.
  - apply updateCollisions_idem.
Qed.

Lemma updateCollisions_from_scratch_witness :
  let es1 := [mkWorking 1%nat 0 60 [5%nat] 0 0 false None;
              mkWorking 2%nat 30 90 [] 0 0 false None] in
  let es2 := [mkWorking 1%nat 0 60 [] 0 0 false None;
              mkWorking 2%nat 30 90 [0; 0]%nat 0 0 false None] in
  updateCollisions es1 = updateCollisions es2
  ∧ set_collisions [] <$> updateCollisions es1 = set_collisions [] <$> es1
  ∧ updateCollisions (updateCollisions es1) = updateCollisions es1.
Proof. intros es1 es2. apply (updateCollisions_from_scratch es1 es2). reflexivity. Defined.

(** X3: after [updateCollisions], every index in a collision list is an
    index of the array, and the array has kept its length. *)
Theorem updateCollisions_in_range es :
  length (updateCollisions es) = length es
  ∧ ∀ i e x, updateCollisions es !! i = Some e → x ∈ collisions e →
      (x < length es)%nat.
Proof.
  split; [apply updateCollisions_length|].
  intros i e x He Hx. apply (updateCollisions_elem_of _ _ _ x He) in Hx.
  destruct Hx as (a & b & _ & Hb & _). by eapply lookup_lt_Some.
Qed.

Lemma isEventsCollides_times a a' b b' :
  times a = times a' → times b = times b' →
  isEventsCollides a b = isEventsCollides a' b'.
Proof.
  unfold times, isEventsCollides. intros [= -> ->] [= -> ->]. done.
Qed.

Lemma updateCollisions_times es k e :
  updateCollisions es !! k = Some e →
  ∃ a, es !! k = Some a ∧ times e = times a ∧ id e = id a
       ∧ hasEventUnder e = hasEventUnder a ∧ topEventId e = topEventId a
       ∧ left e = left a ∧ width e = width a.
Proof.
  intros (a & Ha & ->)%updateCollisions_fields. exists a. by destruct a.
Qed.

Lemma updateCollisions_earlier es i e x :
  updateCollisions es !! i = Some e → (x < i)%nat →
  x ∈ collisions e ↔
  ∃ a b, es !! x = Some a ∧ es !! i = Some b ∧ isEventsCollides a b = true.
Proof.
  intros He Hx. rewrite (updateCollisions_elem_of _ _ _ x He). split.
  - intros (b & a & ? & ? & [[? ?]|[? ?]]); [lia|]. by exists a, b.
  - intros (a & b & ? & ? & ?). exists b, a. split_and!; [done..|]. by right.
Qed.

Lemma getLeftCollisionsCount_zero_iff es i e :
  updateCollisions es !! i = Some e →
  getLeftCollisionsCount (collisions e) i = 0%nat ↔
  ∀ k a, (k < i)%nat → updateCollisions es !! k = Some a →
    isEventsCollides a e = false.
Proof.
  intros He.
  assert (StronglySorted lt (collisions e)) as Hsorted.
  { rewrite updateCollisions_lookup in He.
    destruct (es !! i); simplify_eq/=. apply contrib_sorted. }
  rewrite getLeftCollisionsCount_zero by done.
  pose proof He as (b & Hb & Hbe & _)%updateCollisions_times.
  split.
  - intros H k a Hk Ha. apply updateCollisions_times in Ha as (a0 & Ha0 & Haa & _).
    destruct (isEventsCollides a e) eqn:Hc; [|done].
    assert (k ∈ collisions e) as Hin; [|apply H in Hin; lia].
    apply (updateCollisions_earlier es i e k He Hk). exists a0, b.
    split_and!; [done..|]. by rewrite <-(isEventsCollides_times a a0 e b).
  - intros H c Hc. destruct (decide (i ≤ c)%nat) as [|Hn]; [done|].
    assert (c < i)%nat as Hci by lia.
    apply (updateCollisions_earlier es i e c He Hci) in Hc as (a0 & b0 & Ha0 & Hb0 & Hcol).
    destruct (lookup_lt_is_Some_2 (updateCollisions es) c) as [a Ha].
    { rewrite updateCollisions_length. by eapply lookup_lt_Some. }
    specialize (H c a Hci Ha).
    apply updateCollisions_times in Ha as (a1 & Ha1 & Haa & _).
    rewrite (isEventsCollides_times a a1 e b) in H by done.
    simplify_eq. by rewrite Hcol in H.
Qed.

(** X4: after [updateCollisions], the count of left collisions of the event
    at [i] is zero exactly when no earlier event of the array collides with
    it: the event opens a new column group. *)
Theorem getLeftCollisionsCount_fresh es i e :
  updateCollisions es !! i = Some e →
  getLeftCollisionsCount (collisions e) i = 0%nat ↔
  ∀ k a, (k < i)%nat → updateCollisions es !! k = Some a →
    isEventsCollides a e = false.
Proof. apply getLeftCollisionsCount_zero_iff. Qed.

Lemma getLeftCollisionsCount_fresh_witness :
  let es := [mkWorking 1%nat 0 60 [] 0 0 false None;
             mkWorking 2%nat 30 90 [] 0 0 false None] in
  let e := mkWorking 2%nat 30 90 [0%nat] 0 0 false None in
  getLeftCollisionsCount (collisions e) 1 = 0%nat ↔
  ∀ k a, (k < 1)%nat → updateCollisions es !! k = Some a →
    isEventsCollides a e = false.
Proof. intros es e. apply (getLeftCollisionsCount_fresh es 1 e). reflexivity. Defined.

(** ** compareStartEndTime and the sort, for any input *)




Lemma in_order_trans a b c : in_order a b → in_order b c → in_order a c.
Proof. unfold in_order, before. lia. Qed.

Lemma insert_back_in_order x r :
  StronglySorted (flip in_order) r →
  StronglySorted (flip in_order) (insert_back compareStartEndTime x r).
Proof.
  intros Hr. induction Hr as [|t r Hr IH Ht]; simpl.
  { repeat constructor. }
  destruct (compareStartEndTime t x >? 0) eqn:Hc.
  - apply compareStartEndTime_pos in Hc. constructor; [done|].
    rewrite (insert_back_perm _ x r). by constructor.
  - apply compareStartEndTime_nonpos in Hc.
    constructor; [by constructor|]. constructor.
    + unfold flip, in_order. intros ?. by eapply before_asym.
    + eapply Forall_impl; [exact Ht|]. unfold flip, in_order, before in *.
      intros y Hy. lia.
Qed.

Lemma StronglySorted_rev {A} (R : relation A) l :
  StronglySorted (flip R) l → StronglySorted R (rev l).
Proof.
  induction 1 as [|x l Hl IH Hx]; simpl; [constructor|].
  apply StronglySorted_app_2; [|done|repeat constructor].
  intros y z Hy ->%list_elem_of_singleton.
  rewrite Forall_forall in Hx. apply Hx.
  apply list_elem_of_In, in_rev, list_elem_of_In. exact Hy.
Qed.

Lemma StronglySorted_lookup {A} (R : relation A) l i j a b :
  StronglySorted R l → (i < j)%nat → l !! i = Some a → l !! j = Some b → R a b.
Proof.
  intros Hs Hij Ha Hb.
  apply list_elem_of_split_length in Ha as (l1 & l2 & Heq & Hi).
  rewrite Heq in Hs, Hb.
  apply StronglySorted_app_1_r in Hs. inversion Hs as [|? ? _ Hall]; subst.
  rewrite Forall_forall in Hall. apply Hall.
  rewrite lookup_app_r in Hb by lia.
  destruct (j - length l1)%nat as [|n] eqn:Hn; [lia|].
  simpl in Hb. by eapply list_elem_of_lookup_2.
Qed.

Lemma sort_events_in_order es :
  StronglySorted in_order (sort_events compareStartEndTime es).
Proof.
  unfold sort_events. apply StronglySorted_rev.
  assert (StronglySorted (flip in_order) (@nil WorkingEvent)) as Hnil by constructor.
  revert Hnil. generalize (@nil WorkingEvent).
  induction es as [|x es IH]; intros acc Hacc; simpl; [done|].
  apply IH. by apply insert_back_in_order.
Qed.

(** X6: for every array, also one with equal events, the sort gives a
    permutation of it ordered by start time, and by latest end first among
    equal starts: no event stands before one that sorts before it. *)
Theorem sort_events_sorted es :
  sort_events compareStartEndTime es ≡ₚ es
  ∧ StronglySorted in_order (sort_events compareStartEndTime es)
  ∧ ∀ i j a b, (i < j)%nat →
      sort_events compareStartEndTime es !! i = Some a →
      sort_events compareStartEndTime es !! j = Some b →
      start a < start b ∨ (start a = start b ∧ end_ b <= end_ a).
Proof.
  split_and!; [apply sort_events_perm|apply sort_events_in_order|].
  intros i j a b Hij Ha Hb.
  pose proof (sort_events_in_order es) as Hs.
  assert (in_order a b) as Hab; [|unfold in_order, before in Hab; lia].
  by apply (StronglySorted_lookup in_order _ i j a b Hs).
Qed.

(** ** setLayOutParams: the columns *)

Lemma no_geometry_lookup (l1 l2 : list WorkingEvent) (k : nat) e :
  no_geometry <$> l1 = no_geometry <$> l2 → l1 !! k = Some e →
  ∃ e', l2 !! k = Some e' ∧ times e = times e' ∧ collisions e = collisions e'.
Proof.
  intros Heq He. apply (f_equal (.!! k)) in Heq.
  rewrite !list_lookup_fmap, He in Heq. simpl in Heq.
  destruct (l2 !! k) as [e'|]; [|done]. exists e'. split; [done|].
  apply (inj Some) in Heq.
  split; [change (times (no_geometry e) = times (no_geometry e'))
         |change (collisions (no_geometry e) = collisions (no_geometry e'))];
    by rewrite Heq.
Qed.

Lemma div_shl0_1 a : 0 <= a < 2 ^ 31 → div_shl0 a 1 = a.
Proof.
  intros Ha. unfold div_shl0, to_int32. change (Z.of_nat 1) with 1.
  rewrite Z.quot_1_r, Z.mod_small by lia. lia.
Qed.

Lemma relayout_step_recolumned minLeft w cur st0 i m st :
  0 <= w → (st0 ≤ m < i)%nat → (i < length cur)%nat →
  (∀ s, cur !! st0 = Some s → left s = minLeft) →
  recolumned minLeft w cur st0 m st →
  recolumned minLeft w cur st0 (S m) (relayout_step minLeft w st0 st m).
Proof.
  intros Hw Hm Hlen Hst0. destruct st as [es l].
  intros (Hframe & Hcols & Hrest & Hl & Hlm). simpl in *.
  unfold relayout_step.
  assert (length es = length cur) as Hlen'.
  { apply (f_equal length) in Hframe. by rewrite !length_fmap in Hframe. }
  destruct (lookup_lt_is_Some_2 es st0) as [s Hs]; [lia|]. rewrite Hs.
  set (l1 := if (m =? st0)%nat && (l >? left s) then left s else l).
  assert (l1 = minLeft + Z.of_nat (m - st0) * w) as Hl1.
  { unfold l1. destruct (Nat.eqb_spec m st0) as [->|Hne]; simpl.
    - rewrite Nat.sub_diag. rewrite Hrest in Hs by lia.
      rewrite (Hst0 s Hs). destruct (Z.gtb_spec l minLeft); lia.
    - apply Hlm. lia. }
  clearbody l1. subst l1. unfold recolumned. simpl. split_and!.
  - rewrite <-Hframe. by apply update_at_fmap.
  - intros k e Hk. rewrite update_at_lookup. case_decide as Hkm.
    + subst k. destruct (es !! m) as [e0|]; [|done]. intros [= <-]. simpl.
      split; [lia|done].
    + apply Hcols. lia.
  - intros k Hk. rewrite update_at_lookup, decide_False by lia.
    apply Hrest. lia.
  - nia.
  - intros _. replace (Z.of_nat (S m - st0)) with (Z.of_nat (m - st0) + 1) by lia.
    lia.
Qed.

Lemma setLayOutParams_step_columns minLeft maxWidth es0 i st :
  0 <= maxWidth < 2 ^ 31 →
  separated es0 → heads_in_group es0 →
  (i < length es0)%nat →
  columns minLeft maxWidth es0 i st →
  ∃ st', setLayOutParams_step minLeft maxWidth st i = Ok st'
         ∧ columns minLeft maxWidth es0 (S i) st'.
Proof.
  intros Hmax Hsep Hcons Hlen. destruct st as [cur st0].
  intros (Hframe & Hst0 & Hopen & Hcols & Hdone). simpl in *.
  assert (length cur = length es0) as Hlen'.
  { apply (f_equal length) in Hframe. by rewrite !length_fmap in Hframe. }
  assert (∀ k e, cur !! k = Some e →
            ∃ e', es0 !! k = Some e' ∧ times e = times e'
                  ∧ collisions e = collisions e') as Hcur.
  { intros k e. by apply no_geometry_lookup. }
  unfold setLayOutParams_step.
  destruct (lookup_lt_is_Some_2 cur i) as [event Hi]; [lia|]. rewrite Hi.
  destruct (Hcur i event Hi) as (e0 & He0 & Ht0 & Hc0).
  destruct (Nat.eqb_spec (getLeftCollisionsCount (collisions event) i) 0) as [Hz|Hn].
  - eexists. split; [done|]. unfold columns. simpl. split_and!.
    + rewrite <-Hframe. by apply update_at_fmap.
    + lia.
    + intros c Hc. rewrite He0 in Hc. injection Hc as <-. by rewrite <-Hc0.
    + intros k e Hk. assert (k = i) as -> by lia.
      rewrite update_at_lookup, decide_True, Hi by done. intros [= <-]. simpl.
      replace (S i - i)%nat with 1%nat by lia. rewrite Nat.sub_diag.
      rewrite div_shl0_1 by done. lia.
    + intros k k' a b Hk. rewrite !update_at_lookup.
      rewrite (decide_False (P := i = k)) by lia.
      case_decide as Hk'.
      * subst k'. rewrite Hi. simpl. intros Ha Hb Hcol.
        destruct (Hcur k a Ha) as (a0 & Ha0 & Hta & _).
        assert (isEventsCollides a0 e0 = false) as Hno.
        { apply (Hsep k i i a0 e0 e0); [lia|done..|]. by rewrite <-Hc0. }
        rewrite (isEventsCollides_times a a0 b e0) in Hcol; [congruence|done|].
        injection Hb as <-. exact Ht0.
      * apply Hdone. lia.
  - apply getLeftCollisionsCount_pos in Hn as (c & rest & Hcs & Hc).
    rewrite Hcs. simpl.
    destruct (lookup_lt_is_Some_2 cur c) as [first Hfirst]; [lia|].
    rewrite Hfirst. simpl.
    assert (0 < i)%nat as Hipos by lia. specialize (Hst0 Hipos).
    destruct (lookup_lt_is_Some_2 es0 st0) as [s0 Hs0]; [lia|].
    assert (st0 ≤ c)%nat as Hst0c.
    { apply (Hcons st0 i s0 e0 c rest); [lia|done|by apply Hopen|done| |done].
      by rewrite <-Hc0. }
    destruct (div_shl0_bounds maxWidth (i - st0)) as [Hwp _]; [done|lia|].
    destruct (div_shl0_bounds maxWidth (i - st0 + 1)) as [Hw _]; [done|lia|].
    destruct (Hcols c first) as [Hfl _]; [lia|done|].
    set (w := div_shl0 maxWidth (i - st0 + 1)) in *.
    pose proof (fold_left_seq_inv (recolumned minLeft w cur st0)
                  (relayout_step minLeft w st0) st0 (i - st0) (cur, left first))
      as Hfold.
    destruct (fold_left _ _ _) as [es' l'].
    destruct Hfold as (Hframe' & Hcols' & Hrest' & _ & Hl').
    { unfold recolumned. simpl. split_and!; [done| |done| |lia].
      - intros; lia.
      - rewrite Hfl. nia. }
    { intros m st Hm HJ. apply (relayout_step_recolumned _ _ _ _ i);
        [done|lia|lia| |done].
      intros s Hs. destruct (Hcols st0 s) as [-> _]; [lia|done|].
      rewrite Nat.sub_diag. lia. }
    simpl in *. replace (st0 + (i - st0))%nat with i in * by lia.
    specialize (Hl' Hst0).
    eexists. split; [done|]. unfold columns. simpl.
    replace (S i - st0)%nat with (i - st0 + 1)%nat by lia. fold w.
    assert (∀ k e, (st0 ≤ k < S i)%nat →
              update_at i (λ e, set_width w (set_left l' e)) es' !! k = Some e →
              left e = minLeft + Z.of_nat (k - st0) * w ∧ width e = w) as Hnew.
    { intros k e Hk. rewrite update_at_lookup. case_decide as Hki.
      - subst k. destruct (es' !! i); [|done]. intros [= <-]. simpl.
        split; [lia|done].
      - apply Hcols'. lia. }
    split_and!.
    + rewrite update_at_fmap by done. congruence.
    + lia.
    + done.
    + exact Hnew.
    + intros k k' a b Hk Ha Hb Hcol.
      destruct (decide (st0 ≤ k)%nat) as [Hk0|Hk0].
      * destruct (Hnew k a) as [-> ->]; [lia|done|].
        destruct (Hnew k' b) as [-> _]; [lia|done|].
        replace (Z.of_nat (k' - st0)) with (Z.of_nat (k - st0) + Z.of_nat (k' - k))
          by lia. nia.
      * rewrite update_at_lookup, decide_False in Ha by lia.
        rewrite Hrest' in Ha by lia.
        destruct (decide (st0 ≤ k')%nat) as [Hk0'|Hk0'].
        -- assert (∃ b0, es0 !! k' = Some b0 ∧ times b = times b0)
             as (b0 & Hb0 & Htb).
           { destruct (no_geometry_lookup
                         (update_at i (λ e, set_width w (set_left l' e)) es')
                         es0 k' b) as (b0 & ? & ? & _); [|done|by exists b0].
             rewrite update_at_fmap by done. congruence. }
           destruct (Hcur k a Ha) as (a0 & Ha0 & Hta & _).
           rewrite (isEventsCollides_times a a0 b b0) in Hcol by done.
           rewrite (Hsep k st0 k' a0 s0 b0) in Hcol;
             [done|lia|done..|by apply Hopen].
        -- rewrite update_at_lookup, decide_False in Hb by lia.
           rewrite Hrest' in Hb by lia.
           apply (Hdone k k' a b); [lia|done..].
Qed.

Lemma setLayOutParams_columns es minLeft maxWidth :
  0 <= maxWidth < 2 ^ 31 →
  separated es → heads_in_group es →
  ∃ es' st0, setLayOutParams es minLeft maxWidth = Ok es'
             ∧ columns minLeft maxWidth es (length es) (es', st0).
Proof.
  intros Hmax Hsep Hcons. unfold setLayOutParams.
  destruct (foldM_seq_inv (columns minLeft maxWidth es)
              (setLayOutParams_step minLeft maxWidth) 0 (length es) (es, 0%nat))
    as ([es' st0] & -> & Hcol).
  - unfold columns. simpl. split_and!; [done|lia| |intros; lia|intros; lia].
    intros c _. by destruct (collisions c).
  - intros i st Hi Hst.
    apply setLayOutParams_step_columns; [done..|lia|done].
  - simpl. by exists es', st0.
Qed.

Lemma up_to_date_left_consistent es :
  updateCollisions es = es → left_consistent es.
Proof.
  intros Hfresh i e c He Hc Hci. rewrite <-Hfresh in He.
  apply (updateCollisions_earlier es i e c He Hci) in Hc as (a & b & Ha & Hb & Hcol).
  rewrite Hfresh in He. exists a. split; [done|]. congruence.
Qed.

Lemma heads_in_group_intro es :
  separated es → left_consistent es → heads_in_group es.
Proof.
  intros Hsep Hcons s i o e c rest Hsi Ho Hz He Hcs Hci.
  destruct (decide (s ≤ c)%nat) as [|Hlt]; [done|].
  destruct (Hcons i e c He) as (a & Ha & Hcol); [rewrite Hcs; by left|done|].
  rewrite (Hsep c s i a o e) in Hcol; [done|lia|done..].
Qed.

Lemma sorted_separated es :
  updateCollisions es = es →
  Forall (λ e, start e < end_ e) es →
  StronglySorted in_order es →
  separated es.
Proof.
  intros Hfresh Hwf Hsorted k s k' a c b Hk Ha Hc Hb Hz.
  rewrite Forall_forall in Hwf.
  assert (start a < end_ a) as Hwa by (eapply Hwf, list_elem_of_lookup_2, Ha).
  assert (start b < end_ b) as Hwb by (eapply Hwf, list_elem_of_lookup_2, Hb).
  assert (start c < end_ c) as Hwc by (eapply Hwf, list_elem_of_lookup_2, Hc).
  assert (isEventsCollides a c = false) as Hac.
  { pose proof Hc as Hc'. rewrite <-Hfresh in Hc'.
    apply (getLeftCollisionsCount_zero_iff es s c Hc') with (k := k); [done|lia|].
    by rewrite Hfresh. }
  destruct (decide (s = k')) as [->|Hne]; [congruence|].
  pose proof (StronglySorted_lookup in_order es k s a c Hsorted
                ltac:(lia) Ha Hc) as Hoac.
  pose proof (StronglySorted_lookup in_order es s k' c b Hsorted
                ltac:(lia) Hc Hb) as Hocb.
  unfold in_order, before in Hoac, Hocb.
  destruct (isEventsCollides a b) eqn:Hab; [|done].
  apply isEventsCollides_true in Hab; [|done..].
  assert (isEventsCollides a c = true); [|congruence].
  apply isEventsCollides_true; [done..|]. lia.
Qed.

(** X7: [setLayOutParams] never throws, whatever the collisions lists hold,
    and writes nothing but [left] and [width]: the array keeps its length
    and every event its other fields. *)
Theorem setLayOutParams_total es minLeft maxWidth :
  ∃ es', setLayOutParams es minLeft maxWidth = Ok es'
         ∧ length es' = length es
         ∧ ∀ k e', es' !! k = Some e' →
             ∃ e, es !! k = Some e
                  ∧ e' = set_left (left e') (set_width (width e') e).
Proof.
  destruct (setLayOutParams_ok no_geometry es minLeft maxWidth)
    as (es' & Hrun & Hframe); [done..|].
  exists es'. split_and!; [done| |].
  - apply (f_equal length) in Hframe. by rewrite !length_fmap in Hframe.
  - intros k e' He'. apply (f_equal (.!! k)) in Hframe.
    rewrite !list_lookup_fmap, He' in Hframe. simpl in Hframe.
    destruct (es !! k) as [e|]; [|done]. exists e. split; [done|].
    apply (inj Some) in Hframe. destruct e, e'.
    unfold no_geometry, set_left, set_width in *. simpl in *. congruence.
Qed.

(** X8: for a width [0 <= maxWidth < 2^31], and bounds [minLeft] and
    [minLeft + maxWidth] of magnitude at most [2^53], where the sums of the
    code are exact, [setLayOutParams] puts every event of the array between
    [minLeft] and [minLeft + maxWidth], with a width that is not
    negative. *)
Theorem setLayOutParams_bounds es minLeft maxWidth :
  0 <= maxWidth < 2 ^ 31 →
  - 2 ^ 53 <= minLeft ∧ minLeft + maxWidth <= 2 ^ 53 →
  ∃ es', setLayOutParams es minLeft maxWidth = Ok es'
         ∧ Forall (within minLeft maxWidth) es'.
Proof.
  intros Hmax _.
  destruct (setLayOutParams_ok no_geometry es minLeft maxWidth)
    as (es' & Hrun & _); [done..|].
  exists es'. split; [done|]. by eapply setLayOutParams_within.
Qed.

Lemma setLayOutParams_bounds_witness :
  ∃ es', setLayOutParams
           [mkWorking 1%nat 0 60 [1%nat] 0 0 false None;
            mkWorking 2%nat 30 90 [0%nat] 0 0 false None] 10 620 = Ok es'
         ∧ Forall (within 10 620) es'.
Proof. apply setLayOutParams_bounds; lia. Defined.

Lemma div_shl0_quot a n :
  0 <= a < 2 ^ 31 → (1 ≤ n)%nat → div_shl0 a n = a ÷ Z.of_nat n.
Proof.
  intros Ha Hn. unfold div_shl0, to_int32.
  assert (0 <= a ÷ Z.of_nat n) by (apply Z.quot_pos; lia).
  assert (Z.of_nat n * (a ÷ Z.of_nat n) <= a) by (apply Z.mul_quot_le; lia).
  assert (a ÷ Z.of_nat n <= a) by nia.
  rewrite Z.mod_small by lia. lia.
Qed.

Lemma setLayOutParams_chain es minLeft maxWidth :
  0 <= maxWidth < 2 ^ 31 →
  (∀ i e, (0 < i)%nat → es !! i = Some e →
     getLeftCollisionsCount (collisions e) i ≠ 0%nat) →
  ∃ es', setLayOutParams es minLeft maxWidth = Ok es'
         ∧ ∀ k e, es' !! k = Some e →
             width e = maxWidth ÷ Z.of_nat (length es)
             ∧ left e = minLeft + Z.of_nat k * (maxWidth ÷ Z.of_nat (length es)).
Proof.
  intros Hmax Hchain.
  assert (∀ s o, es !! s = Some o →
            getLeftCollisionsCount (collisions o) s = 0%nat → s = 0%nat) as Hzero.
  { intros s o Ho Hz. destruct s as [|s]; [done|].
    destruct (Hchain (S s) o); [lia|done..]. }
  destruct (setLayOutParams_columns es minLeft maxWidth Hmax)
    as (es' & st0 & Hrun & Hframe & Hst0 & Hopen & Hcols & _).
  - intros k s k' a c b Hk _ Hc _ Hz. apply Hzero in Hz; [lia|done].
  - intros s i o e c rest _ Ho Hz _ _ _. apply Hzero in Hz; [lia|done].
  - exists es'. split; [done|]. simpl in *. intros k e He.
    assert (length es' = length es) as Hlen.
    { apply (f_equal length) in Hframe. by rewrite !length_fmap in Hframe. }
    pose proof (lookup_lt_Some _ _ _ He) as Hk.
    assert (st0 = 0%nat) as ->.
    { destruct (lookup_lt_is_Some_2 es st0) as [o Ho]; [lia|].
      by apply (Hzero st0 o Ho), Hopen. }
    destruct (Hcols k e) as [-> ->]; [lia|done|].
    rewrite !Nat.sub_0_r. rewrite div_shl0_quot by (done || lia). done.
Qed.

(** X9: when every event of the array but the first one has a collision to
    its left, [setLayOutParams] lays the [n] events out in [n] columns of
    the same width, the quotient of [maxWidth] by [n] truncated, side by
    side from [minLeft] on in the order of the array; this for
    [0 <= maxWidth < 2^31] and bounds [minLeft] and [minLeft + maxWidth] of
    magnitude at most [2^53], where the sums of the code are exact. *)
Theorem setLayOutParams_one_group es minLeft maxWidth :
  0 <= maxWidth < 2 ^ 31 →
  - 2 ^ 53 <= minLeft ∧ minLeft + maxWidth <= 2 ^ 53 →
  (∀ i e, (0 < i)%nat → es !! i = Some e →
     getLeftCollisionsCount (collisions e) i ≠ 0%nat) →
  ∃ es', setLayOutParams es minLeft maxWidth = Ok es'
         ∧ ∀ k e, es' !! k = Some e →
             width e = maxWidth ÷ Z.of_nat (length es)
             ∧ left e = minLeft + Z.of_nat k * (maxWidth ÷ Z.of_nat (length es)).
Proof. intros Hmax _. by apply setLayOutParams_chain. Qed.

Lemma setLayOutParams_one_group_witness :
  ∃ es', setLayOutParams
           [mkWorking 1%nat 0 90 [1; 2]%nat 0 0 false None;
            mkWorking 2%nat 10 80 [0; 2]%nat 0 0 false None;
            mkWorking 3%nat 20 70 [0; 1]%nat 0 0 false None] 10 620 = Ok es'
         ∧ ∀ k e, es' !! k = Some e →
             width e = 620 ÷ Z.of_nat 3
             ∧ left e = 10 + Z.of_nat k * (620 ÷ Z.of_nat 3).
Proof.
  apply (setLayOutParams_one_group
           [mkWorking 1%nat 0 90 [1; 2]%nat 0 0 false None;
            mkWorking 2%nat 10 80 [0; 2]%nat 0 0 false None;
            mkWorking 3%nat 20 70 [0; 1]%nat 0 0 false None] 10 620);
    [lia|lia|].
  intros [|[|[|i]]] e Hi; [lia|..]; intros He; simpl in He;
    [injection He as <-; done..|done].
Defined.

Lemma setLayOutParams_apart es minLeft maxWidth :
  0 <= maxWidth < 2 ^ 31 →
  updateCollisions es = es →
  Forall (λ e, start e < end_ e) es →
  StronglySorted in_order es →
  ∃ es', setLayOutParams es minLeft maxWidth = Ok es'
         ∧ ∀ k k' a b, (k < k')%nat → es' !! k = Some a → es' !! k' = Some b →
             isEventsCollides a b = true →
             0 <= width a ∧ left a + width a <= left b.
Proof.
  intros Hmax Hfresh Hwf Hsorted.
  pose proof (sorted_separated es Hfresh Hwf Hsorted) as Hsep.
  destruct (setLayOutParams_columns es minLeft maxWidth Hmax Hsep)
    as (es' & st0 & Hrun & Hframe & _ & _ & _ & Hdone).
  { apply heads_in_group_intro; [done|]. by apply up_to_date_left_consistent. }
  exists es'. split; [done|]. simpl in *. intros k k' a b Hk Ha Hb Hcol.
  split.
  - pose proof (setLayOutParams_within es minLeft maxWidth es' Hmax Hrun) as Hin.
    rewrite Forall_forall in Hin.
    destruct (Hin a) as (_ & ? & _); [by eapply list_elem_of_lookup_2|done].
  - apply (Hdone k k' a b); [|done..].
    apply lookup_lt_Some in Hb. apply (f_equal length) in Hframe.
    rewrite !length_fmap in Hframe. lia.
Qed.

(** X10: on an array in the order of the sort, of events with
    [start < end] whose collisions are up to date, [setLayOutParams] with
    [0 <= maxWidth < 2^31], and with bounds [minLeft] and
    [minLeft + maxWidth] of magnitude at most [2^53], where the sums of the
    code are exact, leaves no two colliding events on a common pixel: the
    earlier one of the array ends where the later one begins, or before. *)
Theorem setLayOutParams_no_overlap es minLeft maxWidth :
  0 <= maxWidth < 2 ^ 31 →
  - 2 ^ 53 <= minLeft ∧ minLeft + maxWidth <= 2 ^ 53 →
  updateCollisions es = es →
  Forall (λ e, start e < end_ e) es →
  StronglySorted in_order es →
  ∃ es', setLayOutParams es minLeft maxWidth = Ok es'
         ∧ ∀ k k' a b, (k < k')%nat → es' !! k = Some a → es' !! k' = Some b →
             isEventsCollides a b = true →
             0 <= width a ∧ left a + width a <= left b.
Proof. intros Hmax _. by apply setLayOutParams_apart. Qed.

Lemma setLayOutParams_no_overlap_witness :
  ∃ es', setLayOutParams
           [mkWorking 1%nat 0 60 [1%nat] 0 0 false None;
            mkWorking 2%nat 30 90 [0; 2]%nat 0 0 false None;
            mkWorking 3%nat 60 120 [1%nat] 0 0 false None] 10 620 = Ok es'
         ∧ ∀ k k' a b, (k < k')%nat → es' !! k = Some a → es' !! k' = Some b →
             isEventsCollides a b = true →
             0 <= width a ∧ left a + width a <= left b.
Proof.
  apply setLayOutParams_no_overlap.
  - lia.
  - lia.
  - reflexivity.
  - repeat constructor.
  - repeat constructor; unfold in_order, before; simpl; lia.
Defined.

Lemma setLayOutParams_step_full minLeft maxWidth (es : list WorkingEvent) i st :
  (∀ k e, es !! k = Some e → getLeftCollisionsCount (collisions e) k = 0%nat) →
  (∀ k, st.1 !! k
        = (if decide (k < i)%nat
           then (λ e, set_width maxWidth (set_left minLeft e)) <$> es !! k
           else es !! k)) →
  ∃ st', setLayOutParams_step minLeft maxWidth st i = Ok st'
         ∧ ∀ k, st'.1 !! k
                = (if decide (k < S i)%nat
                   then (λ e, set_width maxWidth (set_left minLeft e)) <$> es !! k
                   else es !! k).
Proof.
  intros Hz Hst. destruct st as [cur st0]. simpl in *.
  unfold setLayOutParams_step.
  pose proof (Hst i) as Hi. rewrite decide_False in Hi by lia.
  destruct (cur !! i) as [event|] eqn:Hcur.
  - rewrite (Hz i event) by done. simpl.
    eexists. split; [done|]. simpl. intros k.
    rewrite update_at_lookup. case_decide as Hki.
    + subst k. rewrite decide_True by lia. by rewrite Hcur, <-Hi.
    + rewrite Hst. repeat case_decide; try done; lia.
  - eexists. split; [done|]. simpl. intros k. rewrite Hst.
    repeat case_decide; try done; try lia.
    assert (k = i) as -> by lia. by rewrite <-Hi.
Qed.

Lemma setLayOutParams_full (es : list WorkingEvent) minLeft maxWidth :
  (∀ k e, es !! k = Some e → getLeftCollisionsCount (collisions e) k = 0%nat) →
  setLayOutParams es minLeft maxWidth
  = Ok ((λ e, set_width maxWidth (set_left minLeft e)) <$> es).
Proof.
  intros Hz. unfold setLayOutParams.
  destruct (foldM_seq_inv
              (λ i st, ∀ k, st.1 !! k
                 = (if decide (k < i)%nat
                    then (λ e, set_width maxWidth (set_left minLeft e)) <$> es !! k
                    else es !! k))
              (setLayOutParams_step minLeft maxWidth) 0 (length es) (es, 0%nat))
    as (st & -> & Hst).
  - intros k. cbn beta. by rewrite decide_False by lia.
  - intros i st _ Hst. by apply setLayOutParams_step_full.
  - simpl. f_equal. apply list_eq. intros k. rewrite Hst, list_lookup_fmap.
    simpl. case_decide as Hk; [done|].
    rewrite (lookup_ge_None_2 es k) by lia. done.
Qed.

(** X11: when no event of the array has a collision to its left, every
    event gets the whole width: [left = minLeft] and [width = maxWidth]. *)
Theorem setLayOutParams_no_left (es : list WorkingEvent) minLeft maxWidth :
  (∀ k e, es !! k = Some e → getLeftCollisionsCount (collisions e) k = 0%nat) →
  setLayOutParams es minLeft maxWidth
  = Ok ((λ e, set_width maxWidth (set_left minLeft e)) <$> es).
Proof. apply setLayOutParams_full. Qed.

Lemma setLayOutParams_no_left_witness :
  let es := [mkWorking 1%nat 0 60 [] 0 0 false None;
             mkWorking 2%nat 60 90 [] 0 0 false None] in
  setLayOutParams es 10 620
  = Ok ((λ e, set_width 620 (set_left 10 e)) <$> es).
Proof.
  intros es. apply (setLayOutParams_no_left es 10 620).
  intros [|[|k]] e He; simpl in He; [injection He as <-; done..|done].
Defined.

(** ** getEventsUnder: what the scan keeps *)

Lemma getEventsUnder_loop_up_to_date n es under st0 i :
  updateCollisions es = es →
  updateCollisions (getEventsUnder_loop n es under st0 i).1
  = (getEventsUnder_loop n es under st0 i).1.
Proof.
  intros Hfresh.
  destruct (getEventsUnder_loop_ind (λ es' _ _, updateCollisions es' = es'))
    with (n := n) (es := es) (under := under) (st0 := st0) (i := i)
    as [_ H]; [done| |done|done].
  intros es' i' under' st1 cur j leftEvent _ _ _. unfold after_extract.
  apply updateCollisions_idem.
Qed.

Lemma getEventsUnder_fixpoint es :
  updateCollisions es = es →
  updateCollisions (getEventsUnder es).1 = (getEventsUnder es).1
  ∧ updateCollisions (getEventsUnder es).2 = (getEventsUnder es).2.
Proof.
  intros Hfresh. unfold getEventsUnder.
  pose proof (getEventsUnder_loop_up_to_date (length es) es [] 0 0 Hfresh) as H.
  destruct (getEventsUnder_loop _ _ _ _ _) as [es' under]. simpl in *.
  split; [done|].
  destruct (Nat.eqb_spec (length under) 0) as [Hz|_].
  - by destruct under.
  - apply updateCollisions_idem.
Qed.



Lemma getEventsUnder_loop_scan_order keys0 n es under st0 i :
  scan_order keys0 es i under →
  ∃ i', scan_order keys0 (getEventsUnder_loop n es under st0 i).1 i'
                   (getEventsUnder_loop n es under st0 i).2.
Proof.
  intros H. apply getEventsUnder_loop_ind; [| |done]; clear.
  - intros es i under [Hes Hunder]. split; [done|].
    etrans; [|exact Hunder]. apply sublist_app; [done|].
    apply fmap_sublist.
    replace (S i) with (i + 1)%nat by lia. rewrite <-drop_drop.
    apply sublist_drop.
  - intros es i under st0 cur j leftEvent [Hes Hunder] Hi _.
    assert (event_key <$> after_extract es i j = event_key <$> delete i es) as Hk
      by (by apply after_extract_fmap).
    split.
    + rewrite Hk. etrans; [|exact Hes]. apply fmap_sublist, sublist_delete.
    + assert (drop i (event_key <$> after_extract es i j)
              = drop (S i) (event_key <$> es)) as Hd.
      { rewrite Hk, <-!fmap_drop. f_equal.
        rewrite delete_take_drop, drop_app_length'; [done|].
        rewrite length_take. apply lookup_lt_Some in Hi. lia. }
      rewrite fmap_drop, Hd, fmap_app, <-app_assoc. simpl.
      change (event_key (set_topEventId (Some (id leftEvent)) cur))
        with (event_key cur).
      rewrite <-fmap_drop, <-fmap_cons, <-(drop_S es cur i Hi). done.
Qed.

Lemma getEventsUnder_subsequences es :
  event_key <$> (getEventsUnder es).1 `sublist_of` event_key <$> es
  ∧ event_key <$> (getEventsUnder es).2 `sublist_of` event_key <$> es
  ∧ (length (getEventsUnder es).1 + length (getEventsUnder es).2 = length es)%nat.
Proof.
  pose proof (getEventsUnder_perm event_key es) as Hperm.
  unfold getEventsUnder in *.
  destruct (getEventsUnder_loop_scan_order (event_key <$> es) (length es) es [] 0 0)
    as (i' & Hes & Hunder).
  { split; [done|]. by rewrite drop_0. }
  destruct (getEventsUnder_loop _ _ _ _ _) as [es' under]. simpl in *.
  assert (event_key <$> (if (length under =? 0)%nat then under
                         else updateCollisions under) = event_key <$> under) as Hk.
  { destruct (_ =? _)%nat; [done|]. by apply updateCollisions_fmap. }
  split_and!; [done| |].
  - rewrite Hk. etrans; [|exact Hunder]. by apply sublist_inserts_r.
  - apply Permutation_length in Hperm; [|done..].
    by rewrite !length_fmap, length_app in Hperm.
Qed.

(** X13: the scan keeps the order of the array: the events left in the
    array, and the events returned to be put under others, each come in
    the order in which the array held them, and together they are as many
    as the array held. *)
Theorem getEventsUnder_order es :
  event_key <$> (getEventsUnder es).1 `sublist_of` event_key <$> es
  ∧ event_key <$> (getEventsUnder es).2 `sublist_of` event_key <$> es
  ∧ (length (getEventsUnder es).1 + length (getEventsUnder es).2 = length es)%nat.
Proof. apply getEventsUnder_subsequences. Qed.

Lemma anchored_with_extract R es i under st0 cur j leftEvent :
  on_times R → R leftEvent cur →
  anchored_with R es i under →
  es !! i = Some cur →
  find_leftEvent es cur (seq st0 (i - st0)) = Some (j, leftEvent) →
  anchored_with R (after_extract es i j) i
                (under ++ [set_topEventId (Some (id leftEvent)) cur]).
Proof.
  intros HR Hlc Hanch Hi (Hj%elem_of_seq & Hle & _)%find_leftEvent_Some u Hu.
  apply elem_of_app in Hu as [Hu|Hu%list_elem_of_singleton].
  - destruct (Hanch u Hu) as (m & e & Hm & He & Htop & Hflag & Hr).
    destruct (after_extract_lookup_lt es i j m Hm) as [cs Hlk].
    rewrite He in Hlk. simpl in Hlk.
    eexists m, _. split_and!; [done|exact Hlk|..].
    + rewrite Htop. by case_decide.
    + by case_decide.
    + apply (HR e _ u u); [|done..]. by case_decide.
  - subst u. assert (j < i)%nat as Hji by lia.
    destruct (after_extract_lookup_lt es i j j Hji) as [cs Hlk].
    rewrite Hle in Hlk. simpl in Hlk. rewrite decide_True in Hlk by done.
    eexists j, _. split_and!; [done|exact Hlk|done..|].
    by apply (HR leftEvent (set_collisions cs (set_hasEventUnder true leftEvent))
                 cur (set_topEventId (Some (id leftEvent)) cur)).
Qed.

Lemma anchored_with_S R es i under :
  anchored_with R es i under → anchored_with R es (S i) under.
Proof.
  intros Ha u Hu. destruct (Ha u Hu) as (m & e & ? & ?).
  exists m, e. split; [lia|done].
Qed.

Lemma anchored_with_end R es i under :
  on_times R → anchored_with R es i under →
  ∀ u, u ∈ (if (length under =? 0)%nat then under else updateCollisions under) →
    ∃ e, e ∈ es ∧ topEventId u = Some (id e) ∧ hasEventUnder e = true ∧ R e u.
Proof.
  intros HR Ha u Hu.
  assert (∃ u0, u0 ∈ under ∧ topEventId u0 = topEventId u ∧ times u0 = times u)
    as (u0 & Hu0 & Htop & Ht).
  { destruct (_ =? _)%nat; [by exists u|].
    destruct (fmap_eq_elem_of (λ e, (topEventId e, times e)) under
                (updateCollisions under) u) as (u0 & ? & Heq); [|done|].
    - symmetry. by apply updateCollisions_fmap.
    - exists u0.
      split_and!; [done|exact (f_equal fst Heq)|exact (f_equal snd Heq)]. }
  destruct (Ha u0 Hu0) as (m & e & _ & He & Htop0 & Hflag & Hr).
  exists e. split_and!; [by eapply list_elem_of_lookup_2|congruence|done|].
  by apply (HR e e u0 u).
Qed.

(** X14: an event is put under one that it does not collide with: every
    event that [getEventsUnder] returns names as its top an event left in
    the array, marked as having an event under it, whose times do not
    collide with its own. *)
Theorem getEventsUnder_top_apart es :
  Forall (λ u, ∃ e, e ∈ (getEventsUnder es).1 ∧ topEventId u = Some (id e)
                    ∧ hasEventUnder e = true ∧ isEventsCollides e u = false)
         (getEventsUnder es).2.
Proof.
  apply Forall_forall.
  set (R := λ e u : WorkingEvent, isEventsCollides e u = false).
  assert (on_times R) as HR.
  { intros e e' u u' He Hu. unfold R.
    by rewrite (isEventsCollides_times e e' u u'). }
  unfold getEventsUnder.
  destruct (getEventsUnder_loop_ind (anchored_with R))
    with (n := length es) (es := es) (under := @nil WorkingEvent)
         (st0 := 0%nat) (i := 0%nat) as [i' Ha].
  - apply anchored_with_S.
  - intros es' i under st0 cur j leftEvent Ha Hi Hfind.
    eapply anchored_with_extract; [done| |done..].
    by apply find_leftEvent_Some in Hfind as (_ & _ & ? & _).
  - by intros u ?%elem_of_nil.
  - destruct (getEventsUnder_loop _ _ _ _ _) as [es' under]. simpl in *.
    by apply (anchored_with_end R es' i' under).
Qed.

Lemma StronglySorted_sublist {A} (R : relation A) l1 l2 :
  l1 `sublist_of` l2 → StronglySorted R l2 → StronglySorted R l1.
Proof.
  induction 1 as [|x l1 l2 Hsub IH|x l1 l2 Hsub IH]; intros Hs.
  - constructor.
  - inversion Hs as [|? ? Hs' Hall]; subst. constructor; [by apply IH|].
    rewrite Forall_forall in *. intros y Hy. apply Hall.
    by apply (sublist_subseteq _ _ Hsub).
  - inversion Hs; subst. by apply IH.
Qed.

Lemma in_order_times es :
  StronglySorted in_order es ↔
  StronglySorted (λ s t : Z * Z, ¬ (t.1 < s.1 ∨ t.1 = s.1 ∧ s.2 < t.2))
                 (times <$> es).
Proof.
  induction es as [|e es IH]; csimpl.
  { split; constructor. }
  split; intros H; inversion H as [|? ? Hs Hall]; subst;
    (constructor; [by apply IH|]).
  - rewrite Forall_forall in Hall. apply Forall_forall.
    intros t (y & -> & Hy)%list_elem_of_fmap. by apply Hall.
  - rewrite Forall_forall in Hall. apply Forall_forall.
    intros y Hy. apply (Hall (times y)). by apply list_elem_of_fmap_2.
Qed.

Lemma after_extract_sorted es i j :
  StronglySorted in_order es → StronglySorted in_order (after_extract es i j).
Proof.
  rewrite !in_order_times. rewrite after_extract_fmap by done.
  apply StronglySorted_sublist, fmap_sublist, sublist_delete.
Qed.

Lemma after_extract_start_end es i j :
  Forall (λ e, start e < end_ e) es →
  Forall (λ e, start e < end_ e) (after_extract es i j).
Proof.
  intros H.
  change (Forall ((λ t : Z * Z, t.1 < t.2) ∘ times) (after_extract es i j)).
  rewrite <-Forall_fmap, after_extract_fmap, Forall_fmap by done.
  by apply Forall_delete.
Qed.

(** X15: in an array in the order of the sort, of events with
    [start < end], an event is put under one that has ended: the top that
    an event returned by [getEventsUnder] names ends no later than the
    event starts. *)
Theorem getEventsUnder_top_ended es :
  Forall (λ e, start e < end_ e) es →
  StronglySorted in_order es →
  Forall (λ u, ∃ e, e ∈ (getEventsUnder es).1 ∧ topEventId u = Some (id e)
                    ∧ hasEventUnder e = true ∧ end_ e <= start u)
         (getEventsUnder es).2.
Proof.
  intros Hwf Hsorted. apply Forall_forall.
  set (R := λ e u : WorkingEvent, end_ e <= start u).
  assert (on_times R) as HR.
  { intros e e' u u' [= ? He] [= Hu ?]. unfold R. by rewrite <-He, <-Hu. }
  unfold getEventsUnder.
  destruct (getEventsUnder_loop_ind
              (λ es' i under, Forall (λ e, start e < end_ e) es'
                              ∧ StronglySorted in_order es'
                              ∧ anchored_with R es' i under))
    with (n := length es) (es := es) (under := @nil WorkingEvent)
         (st0 := 0%nat) (i := 0%nat) as (i' & _ & _ & Ha).
  - intros es' i under (? & ? & ?). split_and!; [done..|].
    by apply anchored_with_S.
  - intros es' i under st0 cur j leftEvent (Hwf' & Hs' & Ha) Hi Hfind.
    split_and!; [by apply after_extract_start_end|by apply after_extract_sorted|].
    eapply anchored_with_extract; [done| |done..].
    apply find_leftEvent_Some in Hfind as (Hj%elem_of_seq & Hle & Hno & _).
    rewrite Forall_lookup in Hwf'.
    pose proof (Hwf' _ _ Hle) as Hwl. pose proof (Hwf' _ _ Hi) as Hwc.
    pose proof (StronglySorted_lookup in_order es' j i leftEvent cur Hs'
                  ltac:(lia) Hle Hi) as Hord.
    unfold in_order, before in Hord. unfold R.
    destruct (decide (end_ leftEvent <= start cur)) as [|Hn]; [done|].
    assert (isEventsCollides leftEvent cur = true); [|congruence].
    apply isEventsCollides_true; [done..|]. lia.
  - split_and!; [done..|]. by intros u ?%elem_of_nil.
  - destruct (getEventsUnder_loop _ _ _ _ _) as [es' under]. simpl in *.
    by apply (anchored_with_end R es' i' under).
Qed.

Lemma getEventsUnder_top_ended_witness :
  let es := updateCollisions
              [mkWorking 1%nat 0 60 [] 0 0 false None;
               mkWorking 2%nat 30 90 [] 0 0 false None;
               mkWorking 3%nat 60 120 [] 0 0 false None] in
  Forall (λ u, ∃ e, e ∈ (getEventsUnder es).1 ∧ topEventId u = Some (id e)
                    ∧ hasEventUnder e = true ∧ end_ e <= start u)
         (getEventsUnder es).2.
Proof.
  intros es. apply (getEventsUnder_top_ended es).
  - repeat constructor.
  - repeat constructor; unfold in_order, before; simpl; lia.
Defined.

Lemma getEventsUnder_loop_none n (es : list WorkingEvent) st0 i :
  (∀ k e, es !! k = Some e → getLeftCollisionsCount (collisions e) k = 0%nat) →
  getEventsUnder_loop n es [] st0 i = (es, []).
Proof.
  intros Hz. revert st0 i. induction n as [|n IH]; intros st0 i; simpl; [done|].
  destruct (es !! i) as [cur|] eqn:Hi; [|done].
  rewrite (Hz i cur Hi). simpl. apply IH.
Qed.

(** X16: when no event of the array has a collision to its left,
    [getEventsUnder] puts nothing under: it returns an empty array and
    leaves the array as it is. *)
Theorem getEventsUnder_none (es : list WorkingEvent) :
  (∀ k e, es !! k = Some e → getLeftCollisionsCount (collisions e) k = 0%nat) →
  getEventsUnder es = (es, []).
Proof.
  intros Hz. unfold getEventsUnder.
  by rewrite getEventsUnder_loop_none.
Qed.

Lemma getEventsUnder_none_witness :
  let es := [mkWorking 1%nat 0 60 [] 0 0 false None;
             mkWorking 2%nat 60 90 [] 0 0 false None] in
  getEventsUnder es = (es, []).
Proof.
  intros es. apply (getEventsUnder_none es).
  intros [|[|k]] e He; simpl in He; [injection He as <-; done..|done].
Defined.

(** ** processEventsUnder: the missing top *)

Lemma fill_eventIdxById_Some events t idx :
  fill_eventIdxById events !! t = Some idx →
  ∃ e, events !! idx = Some e ∧ id e = t.
Proof.
  induction events as [|x l IH] using rev_ind.
  { unfold fill_eventIdxById. simpl. by rewrite lookup_empty. }
  rewrite fill_eventIdxById_snoc.
  assert (fill_eventIdxById l !! t = Some idx →
          ∃ e, (l ++ [x]) !! idx = Some e ∧ id e = t) as IH'.
  { intros (e & ? & ?)%IH. exists e. split; [|done]. by apply lookup_app_l_Some. }
  case_bool_decide; [done|].
  destruct (decide (id x = t)) as [Heq|Hne].
  - rewrite Heq, lookup_insert_eq. intros [= <-]. exists x.
    split; [|done]. by apply list_lookup_middle.
  - by rewrite lookup_insert_ne by done.
Qed.

Lemma processEventsUnder_step_missing under events gs i u :
  under !! i = Some u →
  (∀ e, e ∈ events → id e ≠ top_key (topEventId u)) →
  processEventsUnder_step under events (fill_eventIdxById events) gs i
  = Throw TypeError.
Proof.
  intros Hi Hno. unfold processEventsUnder_step. rewrite Hi. cbn zeta.
  destruct (fill_eventIdxById events !! top_key (topEventId u))
    as [idx|] eqn:Hidx; simpl; [|done].
  apply fill_eventIdxById_Some in Hidx as (e & He & Hid).
  destruct (Hno e); [by eapply list_elem_of_lookup_2|done].
Qed.

(** X17: when the [topEventId] of some event of [_eventsUnder] is, as a
    key, the id of no event of [_events], [processEventsUnder] throws a
    TypeError, and lays out no group. *)
Theorem processEventsUnder_missing_top under events i u :
  under !! i = Some u →
  (∀ e, e ∈ events → id e ≠ top_key (topEventId u)) →
  processEventsUnder under events = Throw TypeError.
Proof.
  intros Hi Hno. unfold processEventsUnder, build_groups.
  rewrite (foldM_throws TypeError _ _ _ i); [done| | |].
  - apply elem_of_seq. apply lookup_lt_Some in Hi. lia.
  - intros gs. by eapply processEventsUnder_step_missing.
  - intros gs j. apply processEventsUnder_step_only_throws.
Qed.

Lemma processEventsUnder_missing_top_witness :
  processEventsUnder
    [mkWorking 2%nat 60 90 [] 0 0 false (Some (7%nat : ident))]
    [mkWorking 1%nat 0 60 [] 10 620 true None]
  = Throw TypeError.
Proof.
  apply (processEventsUnder_missing_top _ _ 0%nat
           (mkWorking 2%nat 60 90 [] 0 0 false (Some (7%nat : ident))));
    [reflexivity|].
  intros e [->|[]%elem_of_nil]%elem_of_cons. by vm_compute.
Defined.

(** X18: when every event of [_eventsUnder] names an event of [_events] as
    its top, and the id of that event is not a key that plain objects
    inherit, [processEventsUnder] does not throw, and it writes nothing but
    the [left] and the [width] of the events of [_eventsUnder]. *)
Theorem processEventsUnder_total under events :
  (∀ u, u ∈ under →
     ∃ e, e ∈ events ∧ topEventId u = Some (id e) ∧ inherited (id e) = false) →
  ∃ under', processEventsUnder under events = Ok under'
            ∧ length under' = length under
            ∧ ∀ k u', under' !! k = Some u' →
                ∃ u, under !! k = Some u
                     ∧ u' = set_left (left u') (set_width (width u') u).
Proof.
  intros Htop.
  destruct (processEventsUnder_ok no_geometry under events)
    as (under' & Hrun & Hframe); [done..|].
  exists under'. split_and!; [done| |].
  - apply (f_equal length) in Hframe. by rewrite !length_fmap in Hframe.
  - intros k u' Hu'. apply (f_equal (.!! k)) in Hframe.
    rewrite !list_lookup_fmap, Hu' in Hframe. simpl in Hframe.
    destruct (under !! k) as [u|]; [|done]. exists u. split; [done|].
    apply (inj Some) in Hframe. destruct u, u'.
    unfold no_geometry, set_left, set_width in *. simpl in *. congruence.
Qed.

Lemma processEventsUnder_total_witness :
  let under := [mkWorking 2%nat 60 90 [] 0 0 false (Some (1%nat : ident))] in
  let events := [mkWorking 1%nat 0 60 [] 10 620 true None] in
  ∃ under', processEventsUnder under events = Ok under'
            ∧ length under' = length under
            ∧ ∀ k u', under' !! k = Some u' →
                ∃ u, under !! k = Some u
                     ∧ u' = set_left (left u') (set_width (width u') u).
Proof.
  intros under events. apply (processEventsUnder_total under events).
  intros u [->|[]%elem_of_nil]%elem_of_cons.
  exists (mkWorking 1%nat 0 60 [] 10 620 true None).
  split_and!; [by left|done|by vm_compute].
Defined.

(** ** layOutDay: what every run gives *)

Lemma normalizeEvents_keys es : out_key <$> normalizeEvents es = event_key <$> es.
Proof. unfold normalizeEvents. by rewrite <-list_fmap_compose. Qed.

Lemma layOutDay_keys elems out :
  layOutDay (JsArray elems) = Ok out →
  out_key <$> out ≡ₚ event_key <$> cloneEvents elems
  ∧ Forall (λ o, out_top o = out_start o) out.
Proof.
  intros (events & under' & _ & _ & -> & Hg1 & Hg2)%layOutDay_returns. split.
  - rewrite normalizeEvents_keys, fmap_app.
    rewrite (no_geometry_fmap event_key _ _ (λ _, eq_refl) Hg1).
    rewrite (no_geometry_fmap event_key _ _ (λ _, eq_refl) Hg2).
    rewrite <-fmap_app, getEventsUnder_perm by done.
    rewrite updateCollisions_fmap by done.
    by rewrite sort_events_perm.
  - unfold normalizeEvents. apply Forall_fmap, Forall_true. done.
Qed.

Lemma layOutDay_plain elems :
  all_plain elems → ∃ out, layOutDay (JsArray elems) = Ok out.
Proof.
  intros Hplain.
  destruct (layOutDay_run elems) as (events & under' & _ & _ & Hout & _);
    [by apply all_plain_cloneEvents|by eexists].
Qed.

(** X19: the output of [layOutDay], for an array of events and for an
    array of events followed by a falsy element and anything else, has one
    record for each of those events, with the id, the start and the end
    of the event, and with [top] equal to the start.  There is an output
    when no id is a key that plain objects inherit. *)
Theorem layOutDay_keeps_events pre rest :
  Forall (λ elems,
            (all_plain (Some <$> pre) →
             ∃ out, layOutDay (JsArray elems) = Ok out)
            ∧ ∀ out, layOutDay (JsArray elems) = Ok out →
                out_key <$> out ≡ₚ in_key <$> pre
                ∧ Forall (λ o, out_top o = out_start o) out)
         [Some <$> pre; (Some <$> pre) ++ None :: rest].
Proof.
  assert (event_key <$> cloneEvents (Some <$> pre) = in_key <$> pre) as Hkeys.
  { rewrite cloneEvents_Some, <-list_fmap_compose. done. }
  apply Forall_cons. split; [split|apply Forall_singleton; split].
  - apply layOutDay_plain.
  - intros out [Hperm Htop]%layOutDay_keys. by rewrite <-Hkeys.
  - intros Hplain. unfold layOutDay. rewrite cloneEvents_falsy.
    by apply (layOutDay_plain (Some <$> pre)).
  - intros out [Hperm Htop]%layOutDay_keys.
    rewrite cloneEvents_falsy in Hperm. by rewrite <-Hkeys.
Qed.

Lemma sorted_clones_lookup ins k k' a b :
  (k < k')%nat →
  sort_events compareStartEndTime (clone_of <$> ins) !! k = Some a →
  sort_events compareStartEndTime (clone_of <$> ins) !! k' = Some b →
  ∃ i j x y, i ≠ j ∧ ins !! i = Some x ∧ ins !! j = Some y
             ∧ a = clone_of x ∧ b = clone_of y.
Proof.
  intros Hk Ha Hb.
  destruct (proj1 (Permutation_inj _ _)
              (sort_events_perm compareStartEndTime (clone_of <$> ins)))
    as (_ & f & Hf & Hlk).
  rewrite Hlk, list_lookup_fmap in Ha, Hb.
  destruct (ins !! f k) as [x|] eqn:Hx; [|done].
  destruct (ins !! f k') as [y|] eqn:Hy; [|done].
  simpl in Ha, Hb.
  exists (f k), (f k'), x, y. split_and!; [|done|done|congruence..].
  intros Heq. apply Hf in Heq. lia.
Qed.

Lemma disjoint_no_left ins k e :
  Forall (λ e, in_start e < in_end e) ins → disjoint_times ins →
  updateCollisions (sort_events compareStartEndTime (clone_of <$> ins)) !! k
  = Some e →
  getLeftCollisionsCount (collisions e) k = 0%nat.
Proof.
  intros Hwf Hdis He.
  apply (getLeftCollisionsCount_zero_iff _ k e He). intros k' a Hk' Ha.
  apply updateCollisions_times in He as (e0 & He0 & Hte & _).
  apply updateCollisions_times in Ha as (a0 & Ha0 & Hta & _).
  destruct (sorted_clones_lookup ins k' k a0 e0 Hk' Ha0 He0)
    as (i & j & x & y & Hij & Hx & Hy & -> & ->).
  rewrite (isEventsCollides_times a (clone_of x) e (clone_of y)) by done.
  rewrite Forall_lookup in Hwf.
  pose proof (Hwf _ _ Hx) as Hwx. pose proof (Hwf _ _ Hy) as Hwy.
  destruct (isEventsCollides (clone_of x) (clone_of y)) eqn:Hcol; [|done].
  apply isEventsCollides_true in Hcol; [|done..]. simpl in Hcol.
  destruct (Hdis i j x y Hij Hx Hy); lia.
Qed.

(** X20: events with [start < end] of which no two share a minute all get
    the whole width: every record of the output has [left = 10] and
    [width = 620], and there is one record for each event. *)
Theorem layOutDay_disjoint ins :
  Forall (λ e, in_start e < in_end e) ins → disjoint_times ins →
  ∃ out, layOutDay (JsArray (Some <$> ins)) = Ok out
         ∧ length out = length ins
         ∧ Forall (λ o, out_left o = 10 ∧ out_width o = 620) out.
Proof.
  intros Hwf Hdis. unfold layOutDay. rewrite cloneEvents_Some.
  set (events0 := updateCollisions _).
  assert (∀ k e, events0 !! k = Some e →
            getLeftCollisionsCount (collisions e) k = 0%nat) as Hz.
  { intros k e. by apply disjoint_no_left. }
  unfold getEventsUnder. rewrite getEventsUnder_loop_none by done. simpl.
  rewrite setLayOutParams_full by done. simpl.
  eexists. split_and!; [reflexivity| |].
  - unfold normalizeEvents. rewrite app_nil_r, !length_fmap.
    unfold events0. rewrite updateCollisions_length.
    by rewrite (Permutation_length (sort_events_perm _ _)), length_fmap.
  - unfold normalizeEvents. rewrite app_nil_r.
    apply Forall_fmap, Forall_fmap, Forall_true. done.
Qed.

Lemma layOutDay_disjoint_witness :
  let ins := [mkInput 1%nat 120 180; mkInput 2%nat 0 60; mkInput 3%nat 60 120] in
  ∃ out, layOutDay (JsArray (Some <$> ins)) = Ok out
         ∧ length out = length ins
         ∧ Forall (λ o, out_left o = 10 ∧ out_width o = 620) out.
Proof.
  intros ins. apply (layOutDay_disjoint ins).
  - repeat constructor.
  - intros [|[|[|i]]] [|[|[|j]]] a b Hij Ha Hb; simpl in Ha, Hb;
      try done; injection Ha as <-; injection Hb as <-; simpl; lia.
Defined.

Lemma getEventsUnder_sorted es :
  Forall (λ e, start e < end_ e) es →
  StronglySorted in_order es →
  Forall (λ e, start e < end_ e) (getEventsUnder es).1
  ∧ StronglySorted in_order (getEventsUnder es).1.
Proof.
  intros Hwf Hsorted. unfold getEventsUnder.
  destruct (getEventsUnder_loop_ind
              (λ es' _ _, Forall (λ e, start e < end_ e) es'
                          ∧ StronglySorted in_order es'))
    with (n := length es) (es := es) (under := @nil WorkingEvent)
         (st0 := 0%nat) (i := 0%nat) as [_ H]; [done| |done|].
  - intros es' i under st0 cur j leftEvent [? ?] _ _.
    split; [by apply after_extract_start_end|by apply after_extract_sorted].
  - by destruct (getEventsUnder_loop _ _ _ _ _).
Qed.

Lemma sorted_clones ins :
  Forall (λ e, in_start e < in_end e) ins →
  let events0 := updateCollisions
                   (sort_events compareStartEndTime (clone_of <$> ins)) in
  updateCollisions events0 = events0
  ∧ Forall (λ e, start e < end_ e) events0
  ∧ StronglySorted in_order events0.
Proof.
  intros Hwf events0. split_and!.
  - apply updateCollisions_idem.
  - change (Forall ((λ t : Z * Z, t.1 < t.2) ∘ times) events0).
    unfold events0. rewrite <-Forall_fmap, updateCollisions_fmap by done.
    rewrite sort_events_perm, Forall_fmap, Forall_fmap.
    eapply Forall_impl; [exact Hwf|]. by intros e He.
  - unfold events0. rewrite in_order_times, updateCollisions_fmap by done.
    rewrite <-in_order_times. apply sort_events_in_order.
Qed.

(** X21: for events with [start < end], the records of the events that
    [getEventsUnder] leaves in the array never overlap: they come first in
    the output, and no two of them that collide in time share a pixel.
    There is an output when no id is a key that plain objects inherit. *)
Theorem layOutDay_primary_no_overlap ins :
  Forall (λ e, in_start e < in_end e) ins →
  let r := getEventsUnder
             (updateCollisions
                (sort_events compareStartEndTime (clone_of <$> ins))) in
  (all_plain (Some <$> ins) →
   ∃ out, layOutDay (JsArray (Some <$> ins)) = Ok out)
  ∧ ∀ out, layOutDay (JsArray (Some <$> ins)) = Ok out →
      ∃ primary nested,
        out = primary ++ nested
        ∧ out_key <$> primary = event_key <$> r.1
        ∧ out_key <$> nested = event_key <$> r.2
        ∧ no_overlap primary.
Proof.
  intros Hwf r. split; [apply layOutDay_plain|].
  intros out (events & under' & Hev & _ & -> & Hg1 & Hg2)%layOutDay_returns.
  destruct (sorted_clones ins Hwf) as (Hfresh & Hwf0 & Hsorted0).
  destruct (getEventsUnder_sorted _ Hwf0 Hsorted0) as [Hwf1 Hsorted1].
  destruct (getEventsUnder_fixpoint _ Hfresh) as [Hfresh1 _].
  fold r in Hwf1, Hsorted1, Hfresh1.
  rewrite cloneEvents_Some in Hev, Hg1, Hg2. fold r in Hev, Hg1, Hg2.
  destruct (setLayOutParams_apart r.1 MIN_LEFT MAX_WIDTH)
    as (events' & Hev' & Hapart); [done..|].
  rewrite Hev in Hev'. injection Hev' as <-.
  assert (∀ k o, normalizeEvents events !! k = Some o →
            ∃ e, events !! k = Some e ∧ start e < end_ e
                 ∧ times (as_event o) = times e
                 ∧ out_left o = left e ∧ out_width o = width e) as Hnorm.
  { intros k o. unfold normalizeEvents. rewrite list_lookup_fmap.
    destruct (events !! k) as [e|] eqn:He; [|done]. intros [= <-].
    exists e. split_and!; [done| |done..].
    destruct (no_geometry_lookup events r.1 k e Hg1 He) as (e1 & He1 & [= -> ->] & _).
    rewrite Forall_lookup in Hwf1. exact (Hwf1 _ _ He1). }
  exists (normalizeEvents events), (normalizeEvents under'). split_and!.
  - unfold normalizeEvents. by rewrite fmap_app.
  - rewrite normalizeEvents_keys. by apply (no_geometry_fmap event_key).
  - rewrite normalizeEvents_keys. by apply (no_geometry_fmap event_key).
  - intros i j a b Hij Ha Hb Hcol (x & Hxa & Hxb).
    destruct (Hnorm i a Ha) as (ea & Hea & Hwa & Hta & Hla & Hwda).
    destruct (Hnorm j b Hb) as (eb & Heb & Hwb & Htb & Hlb & Hwdb).
    rewrite (isEventsCollides_times _ ea _ eb) in Hcol by done.
    rewrite Hla, Hwda in Hxa. rewrite Hlb, Hwdb in Hxb.
    destruct (decide (i < j)%nat) as [Hlt|Hge].
    + destruct (Hapart i j ea eb Hlt Hea Heb Hcol). lia.
    + rewrite isEventsCollides_sym in Hcol by done.
      destruct (Hapart j i eb ea ltac:(lia) Heb Hea Hcol). lia.
Qed.

Lemma layOutDay_primary_no_overlap_witness :
  let ins := [mkInput 1%nat 0 60; mkInput 2%nat 30 90; mkInput 3%nat 60 120;
              mkInput 4%nat 90 120] in
  let r := getEventsUnder
             (updateCollisions
                (sort_events compareStartEndTime (clone_of <$> ins))) in
  (all_plain (Some <$> ins) →
   ∃ out, layOutDay (JsArray (Some <$> ins)) = Ok out)
  ∧ ∀ out, layOutDay (JsArray (Some <$> ins)) = Ok out →
      ∃ primary nested,
        out = primary ++ nested
        ∧ out_key <$> primary = event_key <$> r.1
        ∧ out_key <$> nested = event_key <$> r.2
        ∧ no_overlap primary.
Proof.
  intros ins. apply (layOutDay_primary_no_overlap ins).
  repeat constructor.
Defined.

(** ** layOutDay: events that all collide *)

Lemma find_leftEvent_None es cur js :
  (∀ j e, es !! j = Some e → isEventsCollides e cur = true) →
  find_leftEvent es cur js = None.
Proof.
  intros Hall. induction js as [|j js IH]; simpl; [done|].
  destruct (es !! j) as [e|] eqn:He; [|done]. by rewrite (Hall j e He).
Qed.

Lemma getEventsUnder_loop_all_collide n (es : list WorkingEvent) st0 i :
  (∀ j k a b, es !! j = Some a → es !! k = Some b →
     isEventsCollides a b = true) →
  getEventsUnder_loop n es [] st0 i = (es, []).
Proof.
  intros Hall. revert st0 i. induction n as [|n IH]; intros st0 i; simpl; [done|].
  destruct (es !! i) as [cur|] eqn:Hi; [|done].
  destruct (_ =? _)%nat; [apply IH|].
  rewrite find_leftEvent_None; [apply IH|].
  intros j e He. by apply (Hall j i).
Qed.

Lemma sorted_clones_elem_of ins k e :
  updateCollisions (sort_events compareStartEndTime (clone_of <$> ins)) !! k
  = Some e →
  ∃ x, x ∈ ins ∧ times e = times (clone_of x).
Proof.
  intros (e0 & He0 & Ht & _)%updateCollisions_times.
  apply list_elem_of_lookup_2 in He0. rewrite sort_events_perm in He0.
  apply list_elem_of_fmap in He0 as (x & -> & Hx). by exists x.
Qed.

(** X22: events of which every two share a minute get equal columns: the
    [n] records of the output have the width 620 / n, truncated, and the
    record at position [k] has [left = 10 + k * width]. *)
Theorem layOutDay_all_collide ins :
  (∀ a b, a ∈ ins → b ∈ ins → in_start a < in_end b) →
  ∃ out, layOutDay (JsArray (Some <$> ins)) = Ok out
         ∧ length out = length ins
         ∧ ∀ k o, out !! k = Some o →
             out_width o = 620 ÷ Z.of_nat (length ins)
             ∧ out_left o = 10 + Z.of_nat k * (620 ÷ Z.of_nat (length ins)).
Proof.
  intros Hall. unfold layOutDay. rewrite cloneEvents_Some.
  set (events0 := updateCollisions _).
  assert (length events0 = length ins) as Hlen.
  { unfold events0. rewrite updateCollisions_length.
    by rewrite (Permutation_length (sort_events_perm _ _)), length_fmap. }
  assert (∀ j k a b, events0 !! j = Some a → events0 !! k = Some b →
            isEventsCollides a b = true) as Hcol.
  { intros j k a b Ha Hb.
    apply sorted_clones_elem_of in Ha as (x & Hx & Hta).
    apply sorted_clones_elem_of in Hb as (y & Hy & Htb).
    rewrite (isEventsCollides_times a (clone_of x) b (clone_of y)) by done.
    apply isEventsCollides_true; simpl; [by apply Hall..|].
    split; by apply Hall. }
  assert (∀ i e, (0 < i)%nat → events0 !! i = Some e →
            getLeftCollisionsCount (collisions e) i ≠ 0%nat) as Hchain.
  { intros i e Hi He Hz.
    destruct (lookup_lt_is_Some_2 events0 0) as [e0 He0].
    { apply lookup_lt_Some in He. lia. }
    pose proof (Hcol 0%nat i e0 e He0 He) as Hc.
    unfold events0 in He, He0.
    rewrite (getLeftCollisionsCount_zero_iff _ i e He) in Hz.
    rewrite (Hz 0%nat e0 Hi He0) in Hc. done. }
  unfold getEventsUnder. rewrite getEventsUnder_loop_all_collide by done. simpl.
  destruct (setLayOutParams_chain events0 MIN_LEFT MAX_WIDTH ltac:(done) Hchain)
    as (events & Hrun & Hcols).
  destruct (setLayOutParams_ok (λ _, ()) events0 MIN_LEFT MAX_WIDTH)
    as (events' & Hrun' & Heq); [done..|].
  rewrite Hrun in Hrun'. injection Hrun' as <-.
  apply (f_equal length) in Heq. rewrite !length_fmap in Heq.
  rewrite Hrun. simpl. eexists. split_and!; [reflexivity| |].
  - unfold normalizeEvents. rewrite app_nil_r, length_fmap. congruence.
  - intros k o. unfold normalizeEvents. rewrite app_nil_r, list_lookup_fmap.
    destruct (events !! k) as [e|] eqn:He; [|done]. intros [= <-]. simpl.
    destruct (Hcols k e He) as [-> ->]. by rewrite Hlen.
Qed.

Lemma layOutDay_all_collide_witness :
  let ins := [mkInput 1%nat 0 90; mkInput 2%nat 10 80; mkInput 3%nat 20 70] in
  ∃ out, layOutDay (JsArray (Some <$> ins)) = Ok out
         ∧ length out = length ins
         ∧ ∀ k o, out !! k = Some o →
             out_width o = 620 ÷ Z.of_nat (length ins)
             ∧ out_left o = 10 + Z.of_nat k * (620 ÷ Z.of_nat (length ins)).
Proof.
  intros ins. apply (layOutDay_all_collide ins).
  intros a b Ha Hb. unfold ins in Ha, Hb.
  repeat (apply elem_of_cons in Ha as [->|Ha]);
    repeat (apply elem_of_cons in Hb as [->|Hb]);
    try (by apply elem_of_nil in Ha); try (by apply elem_of_nil in Hb);
    simpl; lia.
Defined.

(** ** layOutDay: the order of the output *)

Lemma StronglySorted_fmap_iff {A B} (f : A → B) (R : relation B) l :
  StronglySorted (λ a b, R (f a) (f b)) l ↔ StronglySorted R (f <$> l).
Proof.
  induction l as [|x l IH]; csimpl.
  { split; constructor. }
  split; intros H; inversion H as [|? ? Hs Hall]; subst;
    (constructor; [by apply IH|]).
  - rewrite Forall_forall in Hall. apply Forall_forall.
    intros t (y & -> & Hy)%list_elem_of_fmap. by apply Hall.
  - rewrite Forall_forall in Hall. apply Forall_forall.
    intros y Hy. apply (Hall (f y)). by apply list_elem_of_fmap_2.
Qed.

Lemma sorted_keys es :
  StronglySorted in_order es → StronglySorted key_order (event_key <$> es).
Proof.
  intros Hs. apply (proj1 (StronglySorted_fmap_iff event_key key_order es)).
  eapply StronglySorted_weaken; [|exact Hs].
  intros x y _ _. unfold in_order, before, key_order, event_key. simpl. lia.
Qed.

(** X23: the output comes in two parts, the records of the events left in
    the array and then those of the events put under others, and each part
    is in the order of the sort: by start, and among equal starts by latest
    end first.  There is an output when no id is a key that plain objects
    inherit. *)
Theorem layOutDay_order elems :
  let r := getEventsUnder
             (updateCollisions
                (sort_events compareStartEndTime (cloneEvents elems))) in
  (all_plain elems → ∃ out, layOutDay (JsArray elems) = Ok out)
  ∧ ∀ out, layOutDay (JsArray elems) = Ok out →
      ∃ primary nested,
        out = primary ++ nested
        ∧ out_key <$> primary = event_key <$> r.1
        ∧ out_key <$> nested = event_key <$> r.2
        ∧ StronglySorted out_order primary
        ∧ StronglySorted out_order nested.
Proof.
  intros r. split; [apply layOutDay_plain|].
  intros out (events & under' & _ & _ & -> & Hg1 & Hg2)%layOutDay_returns.
  fold r in Hg1, Hg2.
  assert (out_key <$> normalizeEvents events = event_key <$> r.1) as Hk1.
  { rewrite normalizeEvents_keys. by apply (no_geometry_fmap event_key). }
  assert (out_key <$> normalizeEvents under' = event_key <$> r.2) as Hk2.
  { rewrite normalizeEvents_keys. by apply (no_geometry_fmap event_key). }
  set (events0 := updateCollisions _) in r.
  assert (StronglySorted key_order (event_key <$> events0)) as Hsorted.
  { unfold events0. rewrite updateCollisions_fmap by done.
    apply sorted_keys, sort_events_in_order. }
  destruct (getEventsUnder_subsequences events0) as (Hs1 & Hs2 & _).
  fold r in Hs1, Hs2.
  exists (normalizeEvents events), (normalizeEvents under'). split_and!.
  - unfold normalizeEvents. by rewrite fmap_app.
  - done.
  - done.
  - change (StronglySorted (λ a b, key_order (out_key a) (out_key b))
                           (normalizeEvents events)).
    rewrite (StronglySorted_fmap_iff out_key key_order), Hk1.
    by apply (StronglySorted_sublist _ _ _ Hs1).
  - change (StronglySorted (λ a b, key_order (out_key a) (out_key b))
                           (normalizeEvents under')).
    rewrite (StronglySorted_fmap_iff out_key key_order), Hk2.
    by apply (StronglySorted_sublist _ _ _ Hs2).
Qed.

(** ** processEventsUnder: the table of indices *)

(** X24: the own properties of the table [eventIdxById]: it maps an id to
    the index of the last event of the array with that id, and holds no
    other id; the id ["__proto__"] gets no own property. *)
Theorem fill_eventIdxById_last events t idx :
  fill_eventIdxById events !! t = Some idx ↔
  t ≠ "__proto__"
  ∧ (∃ e, events !! idx = Some e ∧ id e = t)
  ∧ ∀ j e, (idx < j)%nat → events !! j = Some e → id e ≠ t.
Proof.
  revert idx. induction events as [|x l IH] using rev_ind; intros idx.
  { unfold fill_eventIdxById. simpl. rewrite lookup_empty.
    split; [done|]. by intros (_ & (e & ? & _) & _). }
  rewrite fill_eventIdxById_snoc.
  assert (∀ e, id e ≠ t →
            (fill_eventIdxById l !! t = Some idx ↔
             t ≠ "__proto__"
             ∧ (∃ e', (l ++ [e]) !! idx = Some e' ∧ id e' = t)
             ∧ ∀ j e', (idx < j)%nat → (l ++ [e]) !! j = Some e' → id e' ≠ t))
    as Hother.
  { intros x' Hne. rewrite IH. split.
    - intros (Hp & (e & He & Hid) & Hlast). split_and!; [done| |].
      + exists e. split; [|done]. by apply lookup_app_l_Some.
      + intros j e' Hj [He'|[_ He']]%lookup_app_Some.
        * by apply (Hlast j).
        * destruct (j - length l)%nat; [|done]. simpl in He'. congruence.
    - intros (Hp & (e & He & Hid) & Hlast). split_and!; [done| |].
      + exists e. split; [|done].
        apply lookup_app_Some in He as [He|[_ He]]; [done|].
        destruct (idx - length l)%nat; [|done]. simpl in He. congruence.
      + intros j e' Hj He'. apply (Hlast j); [done|].
        by apply lookup_app_l_Some. }
  case_bool_decide as Hproto.
  { destruct (decide (id x = t)) as [Heq|Hne]; [|by apply Hother].
    rewrite IH. split; intros (Hp & _); congruence. }
  destruct (decide (id x = t)) as [Heq|Hne]; [|by rewrite lookup_insert_ne; [apply Hother|]].
  rewrite Heq, lookup_insert_eq. split.
  - intros [= <-]. split_and!; [congruence| |].
    + exists x. split; [|done]. by apply list_lookup_middle.
    + intros j e Hj He. apply lookup_lt_Some in He.
      rewrite length_app in He. simpl in He. lia.
  - intros (_ & (e & He & _) & Hlast). f_equal.
    pose proof (lookup_lt_Some _ _ _ He) as Hlt.
    rewrite length_app in Hlt. simpl in Hlt.
    destruct (decide (idx = length l)) as [|Hne]; [done|].
    destruct (Hlast (length l) x); [lia|by apply list_lookup_middle|done].
Qed.

(** ** setLayOutParams: the events that open a group *)

Lemma relayout_step_opener_kept minLeft w cur st0 m st :
  (st0 ≤ m)%nat →
  opener_kept minLeft cur st0 m st →
  opener_kept minLeft cur st0 (S m) (relayout_step minLeft w st0 st m).
Proof.
  intros Hm. destruct st as [es l]. intros (Hframe & Hrest & Hst0). simpl in *.
  unfold relayout_step, opener_kept. simpl. split_and!.
  - rewrite <-Hframe. by apply update_at_fmap.
  - intros k Hk. rewrite update_at_lookup, decide_False by lia.
    apply Hrest. lia.
  - intros s. rewrite update_at_lookup. case_decide as Hk.
    + subst m. destruct (es !! st0) as [s0|] eqn:Hs0; [|done].
      intros [= <-]. simpl. rewrite Nat.eqb_refl. simpl.
      rewrite (Hst0 s0 eq_refl). destruct (Z.gtb_spec l minLeft); lia.
    + apply Hst0.
Qed.

Lemma setLayOutParams_step_openers minLeft maxWidth i st :
  openers_left minLeft i st →
  ∃ st', setLayOutParams_step minLeft maxWidth st i = Ok st'
         ∧ openers_left minLeft (S i) st'.
Proof.
  destruct st as [cur st0]. intros (Hle & Hst0 & Hopen & Hmid & Hleft).
  simpl in *.
  unfold setLayOutParams_step.
  destruct (cur !! i) as [event|] eqn:Hi.
  2:{ eexists. split; [done|]. unfold openers_left. simpl.
      apply lookup_ge_None in Hi. split_and!; [lia|lia|done|..].
      - intros k e Hk He. apply Hmid; [|done]. apply lookup_lt_Some in He. lia.
      - intros k e Hk He. apply Hleft; [|done]. apply lookup_lt_Some in He. lia. }
  destruct (Nat.eqb_spec (getLeftCollisionsCount (collisions event) i) 0) as [Hz|Hn].
  - eexists. split; [done|]. unfold openers_left. simpl. split_and!; [lia|lia|..].
    + intros s. rewrite update_at_lookup, decide_True, Hi by done.
      by intros [= <-].
    + intros k e Hk. lia.
    + intros k e Hk. rewrite update_at_lookup. case_decide as Hki.
      * subst k. rewrite Hi. by intros [= <-].
      * apply Hleft. lia.
  - pose proof Hn as (c & rest & Hcs & Hc)%getLeftCollisionsCount_pos.
    rewrite Hcs. simpl.
    destruct (lookup_lt_is_Some_2 cur c) as [first Hfirst].
    { apply lookup_lt_Some in Hi. lia. }
    rewrite Hfirst. simpl.
    assert (0 < i)%nat as Hipos by lia. specialize (Hst0 Hipos).
    set (w := div_shl0 maxWidth (i - st0 + 1)).
    pose proof (fold_left_seq_inv (opener_kept minLeft cur st0)
                  (relayout_step minLeft w st0) st0 (i - st0) (cur, left first))
      as Hfold.
    destruct (fold_left _ _ _) as [es' l'].
    destruct Hfold as (Hframe' & Hrest' & Hopen').
    { unfold opener_kept. simpl. split_and!; [done..|].
      intros s Hs. apply (Hleft st0 s Hst0 Hs). by apply Hopen. }
    { intros m st Hm HJ. apply relayout_step_opener_kept; [lia|done]. }
    simpl in *. replace (st0 + (i - st0))%nat with i in * by lia.
    assert (∀ k e, update_at i (λ e, set_width w (set_left l' e)) es' !! k = Some e →
              ∃ e0, cur !! k = Some e0 ∧ collisions e = collisions e0) as Hcol.
    { intros k e He.
      destruct (no_geometry_lookup
                  (update_at i (λ e, set_width w (set_left l' e)) es') cur k e)
        as (e0 & ? & _ & ?); [|done|by exists e0].
      rewrite update_at_fmap by done. exact Hframe'. }
    eexists. split; [done|]. unfold openers_left. simpl. split_and!; [lia|lia|..].
    + intros s Hs. destruct (Hcol st0 s Hs) as (s0 & Hs0 & ->). by apply Hopen.
    + intros k e Hk He. destruct (Hcol k e He) as (e0 & He0 & ->).
      destruct (decide (k = i)) as [->|Hki].
      * rewrite Hi in He0. by injection He0 as <-.
      * apply (Hmid k e0); [lia|done].
    + intros k e Hk He Hz. destruct (Hcol k e He) as (e0 & He0 & Hce).
      rewrite update_at_lookup in He. case_decide as Hki.
      { subst k. rewrite Hi in He0. injection He0 as <-. congruence. }
      destruct (decide (k = st0)) as [->|Hks]; [by apply Hopen'|].
      destruct (decide (st0 < k)%nat) as [Hgt|Hlt].
      * destruct (Hmid k e0); [lia|done|congruence].
      * rewrite Hrest' in He by lia. apply (Hleft k e); [lia|done..].
Qed.

(** X25: whatever the array holds, [setLayOutParams] puts every event
    without a collision to its left at [minLeft], also when later events
    are laid out beside it. *)
Theorem setLayOutParams_opener es minLeft maxWidth :
  ∃ es', setLayOutParams es minLeft maxWidth = Ok es'
         ∧ ∀ k e, es' !! k = Some e →
             getLeftCollisionsCount (collisions e) k = 0%nat →
             left e = minLeft.
Proof.
  unfold setLayOutParams.
  destruct (foldM_seq_inv (openers_left minLeft)
              (setLayOutParams_step minLeft maxWidth) 0 (length es) (es, 0%nat))
    as ([es' st0] & Hrun & _ & _ & _ & _ & Hleft).
  - unfold openers_left. simpl. split_and!; [lia|lia| |intros; lia|intros; lia].
    intros s _. by destruct (collisions s).
  - intros i st _ Hst. by apply setLayOutParams_step_openers.
  - rewrite Hrun. simpl in *. exists es'. split; [done|].
    intros k e He. apply Hleft; [|done].
    destruct (setLayOutParams_ok (λ _, ()) es minLeft maxWidth)
      as (es1 & Hes1 & Hlen); [done..|].
    unfold setLayOutParams in Hes1. rewrite Hrun in Hes1. injection Hes1 as <-.
    apply (f_equal length) in Hlen. rewrite !length_fmap in Hlen.
    apply lookup_lt_Some in He. lia.
Qed.
